(** * Quadratic-model builders of the ZebraKet notebooks

    A shallow embedding of the model-building cells of
    [ZebraKet/notebooks/SetCoverBQM.ipynb] ([build_setcover_bqm]) and of
    [ZebraKet/notebooks/.ipynb_checkpoints/CombinedQUBO-checkpoint.ipynb]
    (the combined knapsack / set-cover discrete quadratic model), together
    with the properties of the compiled coefficient maps.

    Python integers are unbounded and are modelled by [Z]; the tables
    of the combined notebook hold 64-bit integers ([np.int64]) and its
    Lagrange weight is a double, modelled in [Float64]; labels are
    Python strings and are modelled by [string]; the coefficient
    dictionaries of the [dimod] models are finite maps. *)

From stdpp Require Import base numbers list strings pretty gmap fin_maps
  sorting.
From Stdlib Require Import ZArith QArith Qcanon Lia Ascii.

Local Open Scope Z_scope.

(** ** Python exceptions and fallible computations *)

(** The only exception the modelled cells can raise is [ValueError]:
    [math.log2] raises it ("math domain error") on a non-positive
    argument, [max] on an empty sequence, and the [dimod] models on a
    call they reject (a self-interaction, a label declared twice, an
    undeclared variable, biases that do not fit the cases of a
    variable). *)
Inductive exn : Type :=
  | ValueError (msg : string).

Inductive result (A : Type) : Type :=
  | Ok (a : A)
  | Raise (e : exn).
Arguments Ok {A} a.
Arguments Raise {A} e.

Definition rbind {A B : Type} (r : result A) (k : A → result B) : result B :=
  match r with
  | Ok a => k a
  | Raise e => Raise e
  end.

Notation "x ←r r ; k" := (rbind r (λ x, k))
  (at level 20, r at level 100, k at level 200, only parsing).

(** ** Sums over lists *)

Fixpoint sumZ {A : Type} (f : A → Z) (l : list A) : Z :=
  match l with
  | [] => 0
  | x :: l' => f x + sumZ f l'
  end.

(** Python's [range(lo, hi)] for naturals. *)
Definition range (lo hi : nat) : list nat := seq lo (hi - lo).

(** [c] does not occur in [s]. *)
Fixpoint char_free (c : ascii) (s : string) : Prop :=
  match s with
  | EmptyString => True
  | String c' s' => c' ≠ c ∧ char_free c s'
  end.

(** [c] is none of the ten decimal digits. *)
Definition not_digit (c : ascii) : Prop :=
  ∀ d : N, pretty_N_char d ≠ c.

(** ** Machine numbers

    The combined notebook computes with NumPy.  Its tables hold 64-bit
    integers, whose arithmetic wraps around, and its Lagrange weight
    [max(values)*0.5] is a double; an integer that meets a double is
    converted to a double first, and every product or sum of doubles is
    rounded to the nearest double, ties to the one with an even last bit.
    No number of the cells comes near the largest double, [2^1024], so
    rounding only cuts a number to 53 significant bits. *)

Module Float64.

(** [np.int64] arithmetic: the result modulo [2^64], in
    [-2^63 .. 2^63 - 1]. *)
Definition wrap64 (z : Z) : Z := (z + 2 ^ 63) mod 2 ^ 64 - 2 ^ 63.

(** [float(x)] for an integer [x]: the nearest integer with at most 53
    significant bits, ties to even.  An integer below [2^53] in absolute
    value is its own double. *)
Definition round53 (x : Z) : Z :=
  let a := Z.abs x in
  let s := Z.log2 a - 52 in
  if decide (s ≤ 0) then x
  else
    let q := a / 2 ^ s in
    let r := a mod 2 ^ s in
    let q' := if decide (2 * r < 2 ^ s) then q
              else if decide (2 ^ s < 2 * r) then q + 1
              else if Z.even q then q else q + 1 in
    Z.sgn x * (q' * 2 ^ s).

(** Every double of the combined cell is [max(values)*0.5] or a product
    or a sum of such a number with integers, hence a multiple of [1/2]:
    a double is written by _twice its value_, an integer.  Rounding to 53
    significant bits commutes with doubling, so [round53] also rounds a
    double written this way.

    [a * n] and [a + n] for a double [a] and an integer [n] (an
    [np.int64] or a Python integer): [n] is converted, the result is
    rounded. *)
Definition mul_int (a n : Z) : Z := round53 (a * round53 n).
Definition add_int (a n : Z) : Z := round53 (a + 2 * round53 n).

End Float64.

(** ** Slack weights of the budget constraint (Lucas decomposition)

    Cell "Create the Combined Knapsack-SetCover DQM model":
<<
    M = floor(log2(weight_capacity))
    num_slack_variables = M + 1
    w = [2**n for n in range(M)]
    w.append(weight_capacity + 1 - 2**M)
>>
    [weight_capacity] is a Python integer and [log2] is [math.log2]: it
    raises [ValueError] when its argument is not positive, and otherwise
    converts the argument to a double and returns the double nearest to
    its binary logarithm (the logarithm of the C library, taken as
    correctly rounded; arguments stay below [2^1024]). *)

Module Slack.
Import Float64.

(** Whether the double nearest to [log2 x] is [k + 1], for
    [2^k ≤ x < 2^(k+1)] (otherwise it lies in [[k, k + 1)]).  The gap
    between [k + 1] and the double before it is [2/N] with
    [N = 2^(53 - floor(log2 k))], so [log2 x] is rounded up to [k + 1]
    when [log2 x ≥ k + 1 - 1/N], that is, when
    [x^N ≥ 2^((k+1) N) / 2].  With [P = 2^(k+1)] and [d = P - x],
    Bernoulli's inequality decides this without the powers when
    [2 N d ≤ P] (it holds) and when [N d ≥ P] (it does not). *)
Definition log2_rounds_up (x : Z) : bool :=
  let k := Z.log2 x in
  let P := 2 ^ (k + 1) in
  let N := 2 ^ (53 - Z.log2 k) in
  if decide (2 * (N * (P - x)) ≤ P) then true
  else if decide (P ≤ N * (P - x)) then false
  else bool_decide (P ^ N ≤ 2 * x ^ N).

(** [floor(math.log2(x))] *)
Definition floor_log2 (x : Z) : result Z :=
  if decide (x ≤ 0) then Raise (ValueError "math domain error")
  else
    let d := round53 x in
    Ok (if log2_rounds_up d then Z.log2 d + 1 else Z.log2 d).

(** [w] after the [append], for a given [M]. *)
Definition weights_for (M : nat) (weight_capacity : Z) : list Z :=
  ((λ n : nat, 2 ^ Z.of_nat n) <$> range 0 M)
    ++ [weight_capacity + 1 - 2 ^ Z.of_nat M].

Definition slack_weights (weight_capacity : Z) : result (list Z) :=
  M ←r floor_log2 weight_capacity;
  Ok (weights_for (Z.to_nat M) weight_capacity).

(** Value of the slack under a binary assignment of the pieces:
    [sum(w[k] * b[k])]. *)
Fixpoint weighted_sum (w : list Z) (b : list bool) : Z :=
  match w, b with
  | wk :: w', bk :: b' => wk * Z.b2z bk + weighted_sum w' b'
  | _, _ => 0
  end.

(** All binary assignments of [n] pieces, and all the sums they reach. *)
Fixpoint assignments (n : nat) : list (list bool) :=
  match n with
  | O => [[]]
  | S n' => (cons false <$> assignments n') ++ (cons true <$> assignments n')
  end.

Definition achievable_sums (w : list Z) : list Z :=
  weighted_sum w <$> assignments (length w).

(** The first [M] bits of [v], least significant first. *)
Definition bits (M : nat) (v : Z) : list bool :=
  (λ n : nat, Z.testbit v (Z.of_nat n)) <$> range 0 M.

End Slack.

(** ** The set-cover binary quadratic model

    [SetCoverBQM.ipynb], function [build_setcover_bqm(U, V)]. *)

Module SetCover.

(** [str(n)] for a non-negative integer: its decimal numeral. *)
Definition str (n : nat) : string := pretty n.

(** ['x_' + str(i)] and ['y_(' + str(a) + ', ' + str(m) + ')']. *)
Definition x_label (i : nat) : string := "x_" +:+ str i.
Definition y_label (a m : nat) : string :=
  "y_(" +:+ str a +:+ ", " +:+ str m +:+ ")".

(** [BinaryQuadraticModel('BINARY')]: the linear and the quadratic
    coefficient maps.  An interaction belongs to its two variables
    whatever their order; the map holds it under the pair of labels of
    the first write to it. *)
Record BQM : Type := mkBQM {
  linear : gmap string Z;
  quadratic : gmap (string * string) Z
}.

Definition empty_bqm : BQM := mkBQM ∅ ∅.

(** [bqm.add_variable(v, bias)]: the bias is added to the linear bias [v]
    already has (0 for a new variable); the label is returned. *)
Definition add_variable (v : string) (bias : Z) (bqm : BQM) : BQM :=
  mkBQM (<[v := default 0 (linear bqm !! v) + bias]> (linear bqm))
        (quadratic bqm).

(** Modelled from the spec: the self-pair rejection of the coefficient
    store (section 4.4, "add_quadratic must reject a self-pair").  The
    notebooks hand their keys to the model object of the [dimod] library,
    whose code is not part of the sources; its check is modelled here. *)
Definition reject_self_pair (u v : string) : result unit :=
  if decide (u = v) then Raise (ValueError "no self-loops allowed")
  else Ok ().

(** The pair of labels under which the model holds, or will hold, the
    interaction of [key]: the reversed pair when the model has an entry
    for it, [key] itself otherwise. *)
Definition stored_key (key : string * string) (bqm : BQM)
    : string * string :=
  if decide (is_Some (quadratic bqm !! (key.2, key.1)))
  then (key.2, key.1) else key.

(** [bqm.quadratic[key] = bias]: item assignment, the coefficient of the
    interaction becomes [bias]. *)
Definition quadratic_setitem (key : string * string) (bias : Z)
    (bqm : BQM) : BQM :=
  mkBQM (linear bqm) (<[stored_key key bqm := bias]> (quadratic bqm)).

(** [bqm.quadratic[key]] *)
Definition quadratic_getitem (key : string * string) (bqm : BQM)
    : option Z :=
  quadratic bqm !! stored_key key bqm.

Definition set_quadratic (key : string * string) (bias : Z)
    (bqm : BQM) : result BQM :=
  _ ←r reject_self_pair key.1 key.2;
  Ok (quadratic_setitem key bias bqm).

(** The statements of the builder that touch the model, in program
    order. *)
Inductive write : Type :=
  | AddVariable (v : string) (bias : Z)
  | SetQuadratic (key : string * string) (bias : Z).

Definition exec (w : write) (bqm : BQM) : result BQM :=
  match w with
  | AddVariable v bias => Ok (add_variable v bias bqm)
  | SetQuadratic key bias => set_quadratic key bias bqm
  end.

Fixpoint run (ws : list write) (bqm : BQM) : result BQM :=
  match ws with
  | [] => Ok bqm
  | w :: ws' => bqm' ←r exec w bqm; run ws' bqm'
  end.

(** [np.dot] of two integer vectors. *)
Fixpoint dot (l1 l2 : list Z) : Z :=
  match l1, l2 with
  | a :: l1', b :: l2' => a * b + dot l1' l2'
  | _, _ => 0
  end.

(** Lagrange multipliers, [A = 2] and [B = 1]. *)
Definition A : Z := 2.
Definition B : Z := 1.

Section Builder.
Context {E : Type} `{Countable E}.
Variable U : list E.
Variable V : list (gset E).

(** [I[i] = [1 if U[a] in V[i] else 0 for a in range(len(U))]]. *)
Definition I : list (list Z) :=
  (λ Vi : gset E, (λ e : E, if decide (e ∈ Vi) then 1 else 0) <$> U) <$> V.

(** [I[i][a]]; every index the loops use is in range. *)
Definition I_at (i a : nat) : Z := default 0 ((I !!! i) !! a).

(** [x = [bqm.add_variable('x_'+str(i+1), A*sum(I[i])+B)
          for i in range(0,len(V))]] *)
Definition x_linear_terms : list write :=
  (λ i, AddVariable (x_label (i + 1)) (A * sumZ id (I !!! i) + B))
    <$> range 0 (length V).

Definition x : list string :=
  (λ i, x_label (i + 1)) <$> range 0 (length V).

(** [for a in range(1,len(U)+1): ... for m in range(1,len(V)+1):
       bqm.add_variable('y_(a, m)', A*(m**2-1))] *)
Definition y_linear_terms : list write :=
  a ← range 1 (length U + 1);
  (λ m : nat, AddVariable (y_label a m) (A * (Z.of_nat m ^ 2 - 1)))
    <$> range 1 (length V + 1).

(** [for i in range(1,len(V)+1): for j in range(i+1,len(V)+1):
       bqm.quadratic[('x_i','x_j')] = 2*A*np.dot(I[i-1], I[j-1])] *)
Definition xx_terms : list write :=
  i ← range 1 (length V + 1);
  j ← range (i + 1) (length V + 1);
  [SetQuadratic (x_label i, x_label j)
                (2 * A * dot (I !!! (i - 1)%nat) (I !!! (j - 1)%nat))].

(** [for m in range(1,len(V)+1): for n in range(m+1,len(V)+1):
       for a in range(1,len(U)+1):
         bqm.quadratic[('y_(a, m)','y_(a, n)')] = 2*A*(1+m*n)] *)
Definition yy_terms : list write :=
  m ← range 1 (length V + 1);
  n ← range (m + 1) (length V + 1);
  a ← range 1 (length U + 1);
  [SetQuadratic (y_label a m, y_label a n)
                (2 * A * (1 + Z.of_nat m * Z.of_nat n))].

(** [for i in range(1,len(V)+1): for m in range(1,len(V)+1):
       for a in range(1,len(U)+1):
         bqm.quadratic[('x_i','y_(a, m)')] = -2*A*m*I[i-1][a-1]] *)
Definition xy_terms : list write :=
  i ← range 1 (length V + 1);
  m ← range 1 (length V + 1);
  a ← range 1 (length U + 1);
  [SetQuadratic (x_label i, y_label a m)
                (-2 * A * Z.of_nat m * I_at (i - 1) (a - 1))].

Definition quadratic_terms : list write :=
  xx_terms ++ yy_terms ++ xy_terms.

Definition setcover_writes : list write :=
  x_linear_terms ++ y_linear_terms ++ quadratic_terms.

(** [return bqm, x] *)
Definition build_setcover_bqm : result (BQM * list string) :=
  bqm ←r run setcover_writes empty_bqm;
  Ok (bqm, x).

End Builder.

(** A sample gives every variable the value 0 or 1. *)
Definition sample : Type := string → bool.
Definition val (s : sample) (v : string) : Z := Z.b2z (s v).

(** [bqm.energy(sample)]: the linear biases of the variables set to 1
    plus the quadratic biases of the pairs both set to 1. *)
Definition energy (bqm : BQM) (s : sample) : Z :=
  map_fold (λ v bias acc, bias * val s v + acc) 0 (linear bqm)
  + map_fold (λ (key : string * string) bias acc,
                bias * val s key.1 * val s key.2 + acc) 0 (quadratic bqm).

(** The entries a script writes to either map, and their keys. *)
Definition linear_entry (w : write) : option (string * Z) :=
  match w with
  | AddVariable v bias => Some (v, bias)
  | SetQuadratic _ _ => None
  end.
Definition quadratic_entry (w : write) : option ((string * string) * Z) :=
  match w with
  | AddVariable _ _ => None
  | SetQuadratic key bias => Some (key, bias)
  end.
Definition linear_entries (ws : list write) : list (string * Z) :=
  omap linear_entry ws.
Definition quadratic_entries (ws : list write)
    : list ((string * string) * Z) :=
  omap quadratic_entry ws.
Definition linear_keys (ws : list write) : list string :=
  (linear_entries ws).*1.
Definition quadratic_keys (ws : list write) : list (string * string) :=
  (quadratic_entries ws).*1.

(** The interaction a quadratic key names: the unordered pair of its
    labels; and the interactions a script assigns, in program order. *)
Definition interaction (key : string * string) : gset string :=
  {[key.1; key.2]}.
Definition interactions (ws : list write) : list (gset string) :=
  interaction <$> quadratic_keys ws.

(** A write that does not pair a variable with itself. *)
Definition no_self_pair (w : write) : Prop :=
  match w with
  | AddVariable _ _ => True
  | SetQuadratic key _ => key.1 ≠ key.2
  end.

(** The term one write contributes to the energy of a sample. *)
Definition write_energy (s : sample) (w : write) : Z :=
  match w with
  | AddVariable v bias => bias * val s v
  | SetQuadratic key bias => bias * val s key.1 * val s key.2
  end.

Section Hamiltonian.
Context {E : Type} `{Countable E}.
Variable U : list E.
Variable V : list (gset E).
Variable s : sample.

(** The Hamiltonian of the notebook's "QUBO Representation" cell,

      H = A sum_a (1 - sum_m y_(a,m))^2
        + A sum_a (sum_m m y_(a,m) - sum_i I_(i,a) x_i)^2
        + B sum_i x_i,

    with [a] over [1..len(U)] and [i], [m] over [1..len(V)]. *)
Definition one_hot_penalty (a : nat) : Z :=
  (1 - sumZ (λ m, val s (y_label a m)) (range 1 (length V + 1))) ^ 2.

Definition cover_penalty (a : nat) : Z :=
  (sumZ (λ m : nat, Z.of_nat m * val s (y_label a m)) (range 1 (length V + 1))
   - sumZ (λ i : nat, I_at U V (i - 1) (a - 1) * val s (x_label i))
          (range 1 (length V + 1))) ^ 2.

Definition hamiltonian : Z :=
  A * sumZ one_hot_penalty (range 1 (length U + 1))
  + A * sumZ cover_penalty (range 1 (length U + 1))
  + B * sumZ (λ i, val s (x_label i)) (range 1 (length V + 1)).

End Hamiltonian.

(** The coverage scenario of the specification: universe [{a, b}] and
    candidate sets [{a}], [{a, b}]. *)
Definition U_ab : list string := ["a"; "b"].
Definition V_ab : list (gset string) := [{["a"]}; {["a"; "b"]}].

End SetCover.

(** ** The combined knapsack / set-cover discrete quadratic model

    [CombinedQUBO-checkpoint.ipynb], cell "Create the Combined
    Knapsack-SetCover DQM model". *)

Module Combined.
Import SetCover Float64.

(** ['z' + str(k) + ',' + str(s)] and ['w' + str(k)]. *)
Definition z_label (k s : nat) : string := "z" +:+ str k +:+ "," +:+ str s.
Definition w_label (k : nat) : string := "w" +:+ str k.

(** Biases are rationals.  The knapsack Lagrange weight is
    [max(values)*0.5]; [dbl h] is the double written by [h], twice its
    value (see [Float64]). *)
Definition ofZ (z : Z) : Qc := Q2Qc (inject_Z z).
Definition half : Qc := Q2Qc (1 # 2).
Definition dbl (h : Z) : Qc := (ofZ h * half)%Qc.

(** [DiscreteQuadraticModel()]: the number of cases of every variable, the
    linear biases of every variable (one per case; a variable whose
    biases were never set has all biases zero and no entry), and for
    every pair of labels handed to [set_quadratic] the biases of the
    pairs of cases.  The cell hands over no pair of labels in both
    orders, so an interaction is kept under the pair of labels it was
    written with. *)
Record DQM : Type := mkDQM {
  num_cases : gmap string nat;
  dlinear : gmap string (list Qc);
  dquadratic : gmap (string * string) (gmap (nat * nat) Qc)
}.

Definition empty_dqm : DQM := mkDQM ∅ ∅ ∅.

(** [repr] of a label. *)
Definition quoted (v : string) : string := "'" +:+ v +:+ "'".

(** The methods of the model object check their arguments and raise
    [ValueError] on a call they reject; the checks are those of the
    [dimod] library, whose code is not part of the sources.

    [dqm.add_variable(n, label=v)]: a label the model already has is
    rejected, and so is a number of cases that is not positive. *)
Definition dqm_add_variable (n : nat) (v : string) (dqm : DQM)
    : result DQM :=
  if decide (is_Some (num_cases dqm !! v))
  then Raise (ValueError (quoted v +:+ " is already a variable"))
  else if decide (n = 0%nat)
  then Raise (ValueError "num_cases must be a positive integer")
  else Ok (mkDQM (<[v := n]> (num_cases dqm)) (dlinear dqm) (dquadratic dqm)).

(** [dqm.set_linear(v, biases)]: the variable must have been added, and
    there must be one bias per case. *)
Definition dqm_set_linear (v : string) (biases : list Qc) (dqm : DQM)
    : result DQM :=
  match num_cases dqm !! v with
  | None => Raise (ValueError ("unknown variable " +:+ quoted v))
  | Some n =>
      if decide (length biases = n)
      then Ok (mkDQM (num_cases dqm) (<[v := biases]> (dlinear dqm))
                 (dquadratic dqm))
      else Raise (ValueError
                    ("Recieved " +:+ str (length biases)
                     +:+ " bias(es) for a variable of degree " +:+ str n))
  end.

(** The pairs of cases of a dictionary of biases all exist. *)
Definition cases_in_range (nu nv : nat)
    (biases : list ((nat * nat) * Qc)) : Prop :=
  Forall (λ cb, (cb.1.1 < nu)%nat ∧ (cb.1.2 < nv)%nat) biases.

(** [dqm.set_quadratic(u, v, biases)] with a dictionary of biases: both
    variables must have been added and be different, and every pair of
    cases must exist; the listed pairs of cases get the listed biases,
    the other pairs of cases of [(u, v)] keep theirs. *)
Definition dqm_set_quadratic (u v : string)
    (biases : list ((nat * nat) * Qc)) (dqm : DQM) : result DQM :=
  match num_cases dqm !! u, num_cases dqm !! v with
  | Some nu, Some nv =>
      _ ←r reject_self_pair u v;
      if decide (cases_in_range nu nv biases)
      then Ok (mkDQM (num_cases dqm) (dlinear dqm)
                 (<[(u, v) := list_to_map biases
                                ∪ default ∅ (dquadratic dqm !! (u, v))]>
                    (dquadratic dqm)))
      else Raise (ValueError "case is invalid")
  | None, _ => Raise (ValueError ("unknown variable " +:+ quoted u))
  | _, None => Raise (ValueError ("unknown variable " +:+ quoted v))
  end.

Inductive dwrite : Type :=
  | DAddVariable (n : nat) (v : string)
  | DSetLinear (v : string) (biases : list Qc)
  | DSetQuadratic (u v : string) (biases : list ((nat * nat) * Qc)).

Definition dexec (w : dwrite) (dqm : DQM) : result DQM :=
  match w with
  | DAddVariable n v => dqm_add_variable n v dqm
  | DSetLinear v biases => dqm_set_linear v biases dqm
  | DSetQuadratic u v biases => dqm_set_quadratic u v biases dqm
  end.

Fixpoint drun (ws : list dwrite) (dqm : DQM) : result DQM :=
  match ws with
  | [] => Ok dqm
  | w :: ws' => dqm' ←r dexec w dqm; drun ws' dqm'
  end.

(** Python's [max] of a list. *)
Definition py_max (l : list Z) : result Z :=
  match l with
  | [] => Raise (ValueError "max() arg is an empty sequence")
  | v :: l' => Ok (foldl Z.max v l')
  end.

(** Set-cover Lagrange multipliers and the H3 multiplier of the cell. *)
Definition A : Z := 2000.
Definition B : Z := 1000.
Definition C : Z := 0.

Section Builder.
Context {E : Type} `{Countable E}.
(** The data of the cell "Generate data for the grocery problem": the
    inventory [U], the suppliers [S], the cost table [W] (rows: items,
    columns: suppliers, [-1] where the supplier does not carry the item),
    the budget, the selling prices [V] and the purchase bounds. *)
Variable U : list E.
Variable S : list (gset E).
Variable weights : list (list Z).
Variable weight_capacity : Z.
Variable values : list Z.
Variable bound0 : list nat.

(** [bound = [b+1 for b in bound]] *)
Definition bound : list nat := (λ b, b + 1)%nat <$> bound0.

(** [bound[k]], [weights[k][s]], [values[k]]; every index the loops use
    is in range for tables shaped as the data cell builds them. *)
Definition bound_at (k : nat) : nat := default 0%nat (bound !! k).
Definition weight_at (k s : nat) : Z :=
  default 0 ((weights !!! k) !! s).
Definition value_at (k : nat) : Z := default 0 (values !! k).

(** [x_size = len(values)] *)
Definition x_size : nat := length values.

(** The tables as the data cell shapes them: a row of costs and a bound
    for every priced item, a cost for every supplier in every row.  On
    such tables no lookup of the loops is out of range. *)
Definition well_shaped : Prop :=
  length weights = length values
  ∧ length bound0 = length values
  ∧ Forall (λ row : list Z, length row = length S) weights.

Section Writes.
(** [lagrange] (a double, written by twice its value), [M] and the slack
    weights [w], once computed. *)
Variable lagrange : Z.
Variable M : nat.
Variable w : list Z.

Definition w_at (k : nat) : Z := default 0 (w !! k).
Definition num_slack_variables : nat := M + 1.

(** [for k in range(x_size): for s in range(len(S)):
       z.append(dqm.add_variable(bound[k], label='z'+str(k)+','+str(s)))] *)
Definition z_variables : list dwrite :=
  k ← range 0 x_size;
  s ← range 0 (length S);
  [DAddVariable (bound_at k) (z_label k s)].

(** [for k in range(num_slack_variables):
       dqm.add_variable(2, label='w'+str(k))] *)
Definition w_variables : list dwrite :=
  k ← range 0 num_slack_variables;
  [DAddVariable 2 (w_label k)].

(** [lagrange * (weights[k][s]**2) * (np.array(pieces)**2)
     + (C-values[k])*pieces], with [pieces = range(bound[k])]: the square
    of the cost, the squares of the pieces and [(C-values[k])*pieces] are
    64-bit integers; the two products and the sum are doubles. *)
Definition z_linear_biases (k s : nat) : list Qc :=
  (λ p : nat,
     dbl (add_int
            (mul_int (mul_int lagrange (wrap64 (weight_at k s ^ 2)))
                     (wrap64 (Z.of_nat p ^ 2)))
            (wrap64 (wrap64 (C - value_at k) * Z.of_nat p))))
    <$> range 0 (bound_at k).

Definition z_linear_terms : list dwrite :=
  k ← range 0 x_size;
  s ← range 0 (length S);
  [DSetLinear (z_label k s) (z_linear_biases k s)].

(** [biases_dict[(piece1, piece2)] =
       (2 * lagrange * weights[i][s1] * weights[j][s2])*piece1*piece2],
    a double after every product. *)
Definition zz_biases (i j s1 s2 : nat) : list ((nat * nat) * Qc) :=
  piece1 ← range 0 (bound_at i);
  piece2 ← range 0 (bound_at j);
  [((piece1, piece2),
    dbl (mul_int
           (mul_int
              (mul_int (mul_int (mul_int lagrange 2) (weight_at i s1))
                       (weight_at j s2))
              (Z.of_nat piece1))
           (Z.of_nat piece2)))].

Definition zz_terms : list dwrite :=
  i ← range 0 x_size;
  j ← range (i + 1) x_size;
  s1 ← range 0 (length S);
  s2 ← range 0 (length S);
  [DSetQuadratic (z_label i s1) (z_label j s2) (zz_biases i j s1 s2)].

(** [dqm.set_linear('w'+str(k), lagrange*np.array([0,1])*(w[k]**2))];
    [w[k]**2] is a Python integer. *)
Definition w_linear_terms : list dwrite :=
  k ← range 0 num_slack_variables;
  [DSetLinear (w_label k)
     [dbl (mul_int (mul_int lagrange 0) (w_at k ^ 2));
      dbl (mul_int (mul_int lagrange 1) (w_at k ^ 2))]].

(** [dqm.set_quadratic('w'+str(i), 'w'+str(j),
                       {(1,1): 2 * lagrange * w[i] * w[j]})] *)
Definition ww_terms : list dwrite :=
  i ← range 0 num_slack_variables;
  j ← range (i + 1) num_slack_variables;
  [DSetQuadratic (w_label i) (w_label j)
     [((1, 1)%nat,
       dbl (mul_int (mul_int (mul_int lagrange 2) (w_at i)) (w_at j)))]].

(** [biases_dict[(piece1, 1)] =
       -2 * lagrange * weights[i][s] * w[j]*piece1] *)
Definition zw_biases (i s j : nat) : list ((nat * nat) * Qc) :=
  piece1 ← range 0 (bound_at i);
  [((piece1, 1%nat),
    dbl (mul_int
           (mul_int (mul_int (mul_int lagrange (-2)) (weight_at i s))
                    (w_at j))
           (Z.of_nat piece1)))].

Definition zw_terms : list dwrite :=
  i ← range 0 x_size;
  s ← range 0 (length S);
  j ← range 0 num_slack_variables;
  [DSetQuadratic (z_label i s) (w_label j) (zw_biases i s j)].

(** The set-cover part and the H3 block write integers, which the
    model stores as they are.

    [x.append(dqm.add_variable(2, label='x_'+str(i+1)))
     dqm.set_linear('x_'+str(i+1), (A*sum(I[i])+B)*np.array([0,1]))] *)
Definition x_terms : list dwrite :=
  i ← range 0 (length S);
  [DAddVariable 2 (x_label (i + 1));
   DSetLinear (x_label (i + 1))
     [ofZ ((A * sumZ id (I U S !!! i) + B) * 0);
      ofZ ((A * sumZ id (I U S !!! i) + B) * 1)]].

(** [y.append(dqm.add_variable(2, label='y_(a, m)'))
     dqm.set_linear('y_(a, m)', A*(m**2-1)*np.array([0,1]))] *)
Definition y_terms : list dwrite :=
  a ← range 1 (length U + 1);
  m ← range 1 (length S + 1);
  [DAddVariable 2 (y_label a m);
   DSetLinear (y_label a m)
     [ofZ (A * (Z.of_nat m ^ 2 - 1) * 0);
      ofZ (A * (Z.of_nat m ^ 2 - 1) * 1)]].

Definition xx_terms : list dwrite :=
  i ← range 1 (length S + 1);
  j ← range (i + 1) (length S + 1);
  [DSetQuadratic (x_label i) (x_label j)
     [((1, 1)%nat,
       ofZ (2 * A * dot (I U S !!! (i - 1)%nat) (I U S !!! (j - 1)%nat)))]].

Definition yy_terms : list dwrite :=
  m ← range 1 (length S + 1);
  n ← range (m + 1) (length S + 1);
  a ← range 1 (length U + 1);
  [DSetQuadratic (y_label a m) (y_label a n)
     [((1, 1)%nat, ofZ (2 * A * (1 + Z.of_nat m * Z.of_nat n)))]].

Definition xy_terms : list dwrite :=
  i ← range 1 (length S + 1);
  m ← range 1 (length S + 1);
  a ← range 1 (length U + 1);
  [DSetQuadratic (x_label i) (y_label a m)
     [((1, 1)%nat, ofZ (-2 * A * Z.of_nat m * I_at U S (i - 1) (a - 1)))]].

(** "Hamiltonian x-z terms in H3":
    [for i in range(x_size): for s in range(1,len(S)):
       for j in range(num_slack_variables):
         biases_dict[(piece1, 1)] = -C * piece1
         dqm.set_quadratic('z'+str(i)+','+str(s), 'x_'+str(s+1),
                           biases_dict)] *)
Definition h3_biases (i : nat) : list ((nat * nat) * Qc) :=
  piece1 ← range 0 (bound_at i);
  [((piece1, 1%nat), ofZ (- C * Z.of_nat piece1))].

Definition h3_terms : list dwrite :=
  i ← range 0 x_size;
  s ← range 1 (length S);
  j ← range 0 num_slack_variables;
  [DSetQuadratic (z_label i s) (x_label (s + 1)) (h3_biases i)].

(** Everything before the H3 block, and the whole cell. *)
Definition knapsack_and_cover_writes : list dwrite :=
  z_variables ++ w_variables ++ z_linear_terms ++ zz_terms
  ++ w_linear_terms ++ ww_terms ++ zw_terms
  ++ x_terms ++ y_terms ++ xx_terms ++ yy_terms ++ xy_terms.

Definition combined_writes : list dwrite :=
  knapsack_and_cover_writes ++ h3_terms.

End Writes.

(** [lagrange = max(values)*0.5] (the largest price as a double, halved)
    and the slack setup, then the writes. *)
Definition build_with (writes : Z → nat → list Z → list dwrite)
    : result DQM :=
  vmax ←r py_max values;
  M ←r Slack.floor_log2 weight_capacity;
  drun (writes (round53 vmax) (Z.to_nat M)
               (Slack.weights_for (Z.to_nat M) weight_capacity))
       empty_dqm.

Definition build_combined_dqm : result DQM := build_with combined_writes.

(** The same cell with the H3 block left out. *)
Definition build_without_h3 : result DQM :=
  build_with knapsack_and_cover_writes.

End Builder.

(** A two-item, two-supplier instance shaped as the data cell builds it;
    the second supplier does not carry the second item. *)
Definition U_ex : list Z := [0; 1].
Definition S_ex : list (gset Z) := [{[0; 1]}; {[0]}].
Definition W_ex : list (list Z) := [[11; 9]; [23; -1]].
Definition V_ex : list Z := [15; 30].
Definition bound_ex : list nat := [2; 1]%nat.

(** A three-item instance; the second supplier does not carry the
    second item. *)
Definition U_ex3 : list Z := [0; 1; 2].
Definition S_ex3 : list (gset Z) := [{[0; 1; 2]}; {[0; 2]}].
Definition W_ex3 : list (list Z) := [[11; 9]; [23; -1]; [5; 7]].
Definition V_ex3 : list Z := [15; 30; 8].
Definition bound_ex3 : list nat := [2; 1; 1]%nat.

(** A sample gives every variable one of its cases. *)
Definition dsample : Type := string → nat.

(** The energy the model gives to a sample: the linear bias of the
    chosen case of every variable plus the bias of the chosen pair of
    cases of every interaction, as the exact sum of the stored biases. *)
Definition denergy (dqm : DQM) (s : dsample) : Qc :=
  (map_fold (λ v biases acc, default 0 (biases !! s v) + acc) 0 (dlinear dqm)
   + map_fold (λ (key : string * string) biases acc,
                 default 0 (biases !! (s key.1, s key.2)) + acc)
              0 (dquadratic dqm))%Qc.

(** The bias the model holds for a pair of cases of a pair of labels
    (zero when it holds none). *)
Definition quadratic_bias (dqm : DQM) (u v : string) (cu cv : nat) : Qc :=
  default 0%Qc (dquadratic dqm !! (u, v) ≫= (.!! (cu, cv))).

(** Entries and keys of a script, per map. *)
Definition cases_entry (w : dwrite) : option (string * nat) :=
  match w with DAddVariable n v => Some (v, n) | _ => None end.
Definition dlinear_entry (w : dwrite) : option (string * list Qc) :=
  match w with DSetLinear v biases => Some (v, biases) | _ => None end.
Definition dquadratic_entry (w : dwrite)
    : option ((string * string) * gmap (nat * nat) Qc) :=
  match w with
  | DSetQuadratic u v biases => Some ((u, v), list_to_map biases)
  | _ => None
  end.
Definition cases_entries (ws : list dwrite) : list (string * nat) :=
  omap cases_entry ws.
Definition dlinear_entries (ws : list dwrite) : list (string * list Qc) :=
  omap dlinear_entry ws.
Definition dquadratic_entries (ws : list dwrite)
    : list ((string * string) * gmap (nat * nat) Qc) :=
  omap dquadratic_entry ws.

Definition cases_keys (ws : list dwrite) : list string :=
  (cases_entries ws).*1.

(** The checks of [dexec], given the declared variables. *)
Definition daccepts (cases : gmap string nat) (w : dwrite) : Prop :=
  match w with
  | DAddVariable n v => cases !! v = None ∧ n ≠ 0%nat
  | DSetLinear v biases => cases !! v = Some (length biases)
  | DSetQuadratic u v biases =>
      u ≠ v
      ∧ ∃ nu nv, cases !! u = Some nu ∧ cases !! v = Some nv
                 ∧ cases_in_range nu nv biases
  end.

(** The state the writes lead to when none of them is rejected. *)
Definition dapply (w : dwrite) (dqm : DQM) : DQM :=
  match w with
  | DAddVariable n v =>
      mkDQM (<[v := n]> (num_cases dqm)) (dlinear dqm) (dquadratic dqm)
  | DSetLinear v biases =>
      mkDQM (num_cases dqm) (<[v := biases]> (dlinear dqm)) (dquadratic dqm)
  | DSetQuadratic u v biases =>
      mkDQM (num_cases dqm) (dlinear dqm)
        (<[(u, v) := list_to_map biases
                       ∪ default ∅ (dquadratic dqm !! (u, v))]>
           (dquadratic dqm))
  end.

Definition dfold (ws : list dwrite) (dqm : DQM) : DQM :=
  foldl (λ d w, dapply w d) dqm ws.

(** Every write of a script passes the checks when its turn comes. *)
Fixpoint daccepted (dqm : DQM) (ws : list dwrite) : Prop :=
  match ws with
  | [] => True
  | w :: ws' => daccepts (num_cases dqm) w ∧ daccepted (dapply w dqm) ws'
  end.

(** A table of biases that are all zero. *)
Definition zero_biases (m : gmap (nat * nat) Qc) : Prop :=
  ∀ c b, m !! c = Some b → b = 0%Qc.

End Combined.

(** ** Reading a solution of the set-cover model

    [SetCoverBQM.ipynb]: [solve_bqm] and the cells that report the
    suppliers a sample selects. *)

Module Solution.
Import SetCover.

(** [np.where(l)[0]]: the positions of the non-zero entries, in
    increasing order. *)
Definition np_where (l : list Z) : list nat :=
  filter (λ i, default 0 (l !! i) ≠ 0) (range 0 (length l)).

Section Cover.
Context {E : Type} `{Countable E}.
Variable U : list E.
Variable V : list (gset E).

(** The sets listed in [sel] (positions of [V]) contain every item of
    [U]: the set-cover condition of the "Problem Definition" cell. *)
Definition covers (sel : list nat) : Prop :=
  ∀ e, e ∈ U → ∃ i Vi, i ∈ sel ∧ V !! i = Some Vi ∧ e ∈ Vi.

(** The items (positions of [U]) that no set of [sel] contains, read off
    the indicator table [I] of the builder. *)
Definition uncovered (sel : list nat) : list nat :=
  filter (λ a, Forall (λ i, I_at U V i a = 0) sel) (range 0 (length U)).

(** The number of sets of [sel] that contain item [a] (counted from 1, as
    the labels are), and the assignment that encodes the selection [sel]
    the way the "QUBO Representation" cell reads the variables: [x_(i+1)]
    is 1 for the selected sets, and [y_(a,m)] is 1 for [m] the number of
    selected sets that contain item [a]. *)
Definition cover_count (sel : list nat) (a : nat) : Z :=
  sumZ (λ i : nat, I_at U V (i - 1) (a - 1)
                   * (if decide ((i - 1)%nat ∈ sel) then 1 else 0))
       (range 1 (length V + 1)).

Definition cover_sample (sel : list nat) : sample :=
  λ v, bool_decide
         (v ∈ ((λ i, x_label (i + 1)) <$> sel)
              ++ ((λ a, y_label a (Z.to_nat (cover_count sel a)))
                    <$> range 1 (length U + 1))).

End Cover.

End Solution.

(** ** Solving and reporting

    [SetCoverBQM.ipynb]: [solve_bqm], the cells that print the suppliers a
    solution selects, and [display_classical_solution]. *)

Module Report.
Import SetCover Solution.

(** What [sampler.sample(bqm, **kwargs)] hands back, as far as
    [solve_bqm] reads it: the energies of the record and the sample
    [response.first.sample], a dictionary from labels to values.  The
    samplers are external services; [solve_bqm] takes one as an
    argument. *)
Record response : Type := mkResponse {
  record_energy : list Z;
  first_sample : gmap string Z
}.

(** [solve_bqm(bqm, x, sampler)]:
<<
    response = sampler.sample(bqm, **kwargs)
    energies = response.record.energy
    best_energy = energies[0]
    best_solution = response.first.sample
    best_solution = [best_solution[i] for i in x]
    return best_solution, best_energy
>>
    [None] stands for the exception of an index or a key that is not
    there; the two [print] calls write the returned values to the console
    and are left out. *)
Definition solve_bqm (bqm : BQM) (x : list string)
    (sampler : BQM → response) : option (list Z * Z) :=
  let response := sampler bqm in
  best_energy ← record_energy response !! 0%nat;
  best_solution ← mapM (λ i, first_sample response !! i) x;
  Some (best_solution, best_energy).

(** [f'supplier{i}'] *)
Definition supplier_name (i : nat) : string := "supplier" +:+ str i.

(** The cells after [solve_bqm]:
<<
    print('There are {:d} suppliers selected.'.format(sum(best_solution)))
    suppliers = [f'supplier{i}' for i in np.where(best_solution)[0]]
>>
    the number the first line prints and the names the second collects. *)
Definition selected_count (best_solution : list Z) : Z :=
  sumZ id best_solution.

Definition selected_names (best_solution : list Z) : list string :=
  supplier_name <$> np_where best_solution.

(** [repr] of a list of strings that hold no quote and no backslash, as
    [print] shows it: [['supplier0', 'supplier7']]. *)
Fixpoint join_comma (l : list string) : string :=
  match l with
  | [] => ""
  | [s] => s
  | s :: l' => s +:+ ", " +:+ join_comma l'
  end.

Definition repr_list (l : list string) : string :=
  "[" +:+ join_comma ((λ s, "'" +:+ s +:+ "'") <$> l) +:+ "]".

Section Display.
Context {T : Type} `{EqDecision T}.

(** [[index for index, data in enumerate(supplier_data)
      if len([s for s in classical_solution if s == data]) > 0]] *)
Definition idx_supplier (classical_solution supplier_data : list T)
    : list nat :=
  (filter (λ p : nat * T,
             (0 < length (filter (λ s, s = p.2) classical_solution))%nat)
          (imap pair supplier_data)).*1.

(** [display_classical_solution(classical_solution, supplier_data)]: the
    three lines it prints (the first [print] starts with a newline). *)
Definition display_classical_solution
    (classical_solution supplier_data : list T) : list string :=
  [ String "010" "Solution (Classical Algorithm):";
    "There are " +:+ str (length classical_solution)
      +:+ " suppliers selected.";
    "Selected Suppliers: "
      +:+ repr_list (supplier_name
                       <$> idx_supplier classical_solution supplier_data) ].

End Display.

End Report.

(** ** The data cell of the combined notebook

    [CombinedQUBO-checkpoint.ipynb], cell "Generate data for the grocery
    problem": once the cost table [W] is drawn, the pairs of an item and
    a supplier that does not carry it are marked with the cost [-1]:
<<
    for item in range(len(U)):
        for supplier in range(len(S)):
            if U[item] not in S[supplier]:
                W[item][supplier] = -1
>>
    [None] stands for the [IndexError] of an assignment outside the
    table. *)

Module GroceryData.
Import SetCover.

Section Data.
Context {E : Type} `{Countable E}.
Variable U : list E.
Variable S : list (gset E).

(** [W[item][supplier] = -1] *)
Definition set_unavailable (item supplier : nat) (W : list (list Z))
    : option (list (list Z)) :=
  row ← W !! item;
  if decide (supplier < length row)%nat
  then Some (<[item := <[supplier := -1]> row]> W)
  else None.

(** The body of the loops at the pair [p = (item, supplier)]. *)
Definition mark_step (W : list (list Z)) (p : nat * nat)
    : option (list (list Z)) :=
  e ← U !! p.1;
  Ss ← S !! p.2;
  if decide (e ∈ (Ss : gset E)) then Some W else set_unavailable p.1 p.2 W.

(** The pairs the two loops visit, in order. *)
Definition positions : list (nat * nat) :=
  item ← range 0 (length U);
  supplier ← range 0 (length S);
  [(item, supplier)].

Definition mark_unavailable (W : list (list Z)) : option (list (list Z)) :=
  foldl (λ acc p, acc ≫= λ W', mark_step W' p) (Some W) positions.

End Data.

End GroceryData.

(** ** Reading the solution of the combined model

    [CombinedQUBO-checkpoint.ipynb], the cells after "Run DQM on the
    D-wave machine":
<<
    selected_suppliers = [best_solution[i] for i in x]
    purchase_plan = [best_solution[i] for i in z]
    purchase_plan = np.array(purchase_plan).reshape((len(U), len(S)))
>>
    [best_solution] is the sample of the model: it gives a case to every
    variable. *)

Module Plan.
Import SetCover Combined.

(** [np.array(l).reshape((rows, cols))] of a flat list: the rows in
    order, or [ValueError] when the sizes do not match. *)
Definition reshape {A : Type} (l : list A) (rows cols : nat)
    : result (list (list A)) :=
  if decide (length l = rows * cols)%nat
  then Ok ((λ r, take cols (drop (r * cols) l)) <$> range 0 rows)
  else Raise (ValueError
                ("cannot reshape array of size " +:+ str (length l)
                 +:+ " into shape (" +:+ str rows +:+ "," +:+ str cols
                 +:+ ")")).

Section Plan.
Context {E : Type} `{Countable E}.
Variable U : list E.
Variable S : list (gset E).
Variable values : list Z.

(** The lists [z] and [x] of the build cell: the labels
    [dqm.add_variable] returned, in the order of the loops. *)
Definition z : list string :=
  k ← range 0 (x_size values);
  s ← range 0 (length S);
  [z_label k s].

Definition x : list string :=
  i ← range 0 (length S);
  [x_label (i + 1)].

Definition selected_suppliers (best_solution : dsample) : list nat :=
  best_solution <$> x.

Definition purchase_plan (best_solution : dsample)
    : result (list (list nat)) :=
  reshape (best_solution <$> z) (length U) (length S).

End Plan.

End Plan.

(** ** The energy of the combined model

    The Hamiltonian the build cell of [CombinedQUBO-checkpoint.ipynb]
    encodes, written in the values a sample gives to the variables. *)

Module Energy.
Import SetCover Combined.

Fixpoint sumQc {A : Type} (f : A → Qc) (l : list A) : Qc :=
  match l with
  | [] => 0%Qc
  | x :: l' => (f x + sumQc f l')%Qc
  end.

(** The term one write contributes to the energy of a sample, when no
    other write shares its key. *)
Definition dwrite_energy (s : dsample) (w : dwrite) : Qc :=
  match w with
  | DAddVariable _ _ => 0%Qc
  | DSetLinear v biases => default 0%Qc (biases !! s v)
  | DSetQuadratic u v biases =>
      default 0%Qc (list_to_map (M := gmap (nat * nat) Qc) biases
                      !! (s u, s v))
  end.

(** The keys a script writes. *)
Definition dlinear_keys (ws : list dwrite) : list string :=
  (dlinear_entries ws).*1.
Definition dquadratic_keys (ws : list dwrite) : list (string * string) :=
  (dquadratic_entries ws).*1.

(** A sample that gives every variable one of its cases. *)
Definition valid_sample (dqm : DQM) (s : dsample) : Prop :=
  ∀ v n, num_cases dqm !! v = Some n → (s v < n)%nat.

Section Hamiltonian.
Context {E : Type} `{Countable E}.
Variable U : list E.
Variable S : list (gset E).
Variable weights : list (list Z).
Variable values : list Z.
Variable M : nat.
Variable w : list Z.
Variable s : dsample.

(** The quantity of item [k] bought from supplier [i], and what it
    costs. *)
Definition quantity (k i : nat) : Z := Z.of_nat (s (z_label k i)).
Definition cost (k i : nat) : Z := weight_at weights k i * quantity k i.

(** The money spent, the value of the slack and the revenue. *)
Definition spent : Z :=
  sumZ (λ k, sumZ (cost k) (range 0 (length S))) (range 0 (x_size values)).
Definition slack : Z :=
  sumZ (λ j, w_at w j * Z.of_nat (s (w_label j))) (range 0 (M + 1)).
Definition revenue : Z :=
  sumZ (λ k, sumZ (λ i, value_at values k * quantity k i)
                  (range 0 (length S)))
       (range 0 (x_size values)).

(** The products of the costs of one item at two different suppliers
    (every unordered pair counted twice): the terms of the square of
    [spent] for which the "zi-zj" loop, running over pairs of different
    items only, writes no coupling. *)
Definition same_item_products (k : nat) : Z :=
  sumZ (cost k) (range 0 (length S)) ^ 2
  - sumZ (λ i, cost k i ^ 2) (range 0 (length S)).

(** The knapsack part: [lagrange] times the squared difference of slack
    and spending, without the products above, minus the revenue. *)
Definition knapsack_hamiltonian (lagrange : Qc) : Qc :=
  (lagrange * ofZ ((slack - spent) ^ 2
                   - sumZ same_item_products (range 0 (x_size values)))
   - ofZ revenue)%Qc.

(** The set-cover part, [H1] of the notebook with [A = 2000] and
    [B = 1000]. *)
Definition cover_hamiltonian : Z :=
  A * sumZ (λ a, (1 - sumZ (λ m, Z.of_nat (s (y_label a m)))
                           (range 1 (length S + 1))) ^ 2)
           (range 1 (length U + 1))
  + A * sumZ (λ a,
          (sumZ (λ m : nat, Z.of_nat m * Z.of_nat (s (y_label a m)))
                (range 1 (length S + 1))
           - sumZ (λ i : nat, I_at U S (i - 1) (a - 1)
                              * Z.of_nat (s (x_label i)))
                  (range 1 (length S + 1))) ^ 2)
          (range 1 (length U + 1))
  + B * sumZ (λ i, Z.of_nat (s (x_label i))) (range 1 (length S + 1)).

End Hamiltonian.

(** A sample of the small instance: one unit of item 0 from each
    supplier, one unit of item 1 from supplier 0, the slack bits of
    weights 1, 2, 8 and 32, both suppliers selected. *)
Definition sample_ex : dsample := λ v,
  if bool_decide (v ∈ [z_label 0 0; z_label 0 1; z_label 1 0;
                       w_label 0; w_label 1; w_label 3; w_label 5;
                       x_label 1; x_label 2; y_label 1 2; y_label 2 1])
  then 1%nat else 0%nat.

End Energy.


(** * Properties *)

(** ** Sums over lists *)

Section SumZ.
Context {A : Type}.
Implicit Types (f g : A → Z) (l k : list A).

Lemma sumZ_app f l k : sumZ f (l ++ k) = sumZ f l + sumZ f k.
Proof. induction l as [|x l IH]; simpl; lia. Qed.

Lemma sumZ_ext f g l : (∀ x, x ∈ l → f x = g x) → sumZ f l = sumZ g l.
Proof.
  induction l as [|x l IH]; intros Hfg; simpl; [done|].
  rewrite Hfg by left. rewrite IH; [done|]. intros y Hy. apply Hfg. by right.
Qed.

Lemma sumZ_add f g l : sumZ (λ x, f x + g x) l = sumZ f l + sumZ g l.
Proof. induction l as [|x l IH]; simpl; lia. Qed.

Lemma sumZ_sub f g l : sumZ (λ x, f x - g x) l = sumZ f l - sumZ g l.
Proof. induction l as [|x l IH]; simpl; lia. Qed.

Lemma sumZ_scale c f l : sumZ (λ x, c * f x) l = c * sumZ f l.
Proof. induction l as [|x l IH]; simpl; lia. Qed.

Lemma sumZ_const c l : sumZ (λ _, c) l = c * Z.of_nat (length l).
Proof. induction l as [|x l IH]; simpl length; simpl sumZ; lia. Qed.

Lemma sumZ_fmap {B} (h : B → A) f (k : list B) :
  sumZ f (h <$> k) = sumZ (λ y, f (h y)) k.
Proof. induction k as [|y k IH]; csimpl; [done|]. by rewrite IH. Qed.

Lemma sumZ_bind {B} (h : B → list A) f (k : list B) :
  sumZ f (k ≫= h) = sumZ (λ y, sumZ f (h y)) k.
Proof.
  induction k as [|y k IH]; csimpl; [done|]. by rewrite sumZ_app, IH.
Qed.

End SumZ.

Lemma sumZ_swap {A B} (F : A → B → Z) (l : list A) (k : list B) :
  sumZ (λ x, sumZ (λ y, F x y) k) l = sumZ (λ y, sumZ (λ x, F x y) l) k.
Proof.
  induction l as [|x l IH]; simpl.
  - induction k as [|y k IHk]; simpl; lia.
  - rewrite IH. symmetry.
    apply (sumZ_add (λ y, F x y) (λ y, sumZ (λ x0, F x0 y) l)).
Qed.

Lemma sumZ_mul_sumZ {A B} (f : A → Z) (h : B → Z) (l : list A) (k : list B) :
  sumZ f l * sumZ h k = sumZ (λ x, sumZ (λ y, f x * h y) k) l.
Proof.
  induction l as [|x l IH]; simpl; [lia|].
  rewrite <- IH, sumZ_scale. lia.
Qed.

Lemma sumZ_square (f : nat → Z) (s len : nat) :
  sumZ f (seq s len) ^ 2
  = sumZ (λ k, f k ^ 2) (seq s len)
    + 2 * sumZ (λ k, sumZ (λ l, f k * f l) (range (k + 1) (s + len))) (seq s len).
Proof.
  revert s. induction len as [|len IH]; intros s; simpl; [lia|].
  rewrite (sumZ_ext (λ k, sumZ (λ l, f k * f l) (range (k + 1) (s + S len)))
                    (λ k, sumZ (λ l, f k * f l) (range (k + 1) (S s + len)))).
  2:{ intros k _. by replace (s + S len)%nat with (S s + len)%nat by lia. }
  specialize (IH (S s)).
  unfold range at 1. replace (s + S len - (s + 1))%nat with len by lia.
  replace (s + 1)%nat with (S s) by lia.
  rewrite sumZ_scale.
  set (R := sumZ f (seq (S s) len)) in *.
  set (T := sumZ _ (seq (S s) len)) in *.
  set (D := sumZ (λ k, f k ^ 2) (seq (S s) len)) in *.
  nia.
Qed.

Lemma sumZ_lin2 {A} (c d : Z) (f g : A → Z) (l : list A) :
  sumZ (λ x, c * f x + d * g x) l = c * sumZ f l + d * sumZ g l.
Proof. induction l as [|x l IH]; simpl; lia. Qed.

Lemma sumZ_affine {A} (c d : Z) (f g : A → Z) (l : list A) :
  sumZ (λ x, c - f x + d * g x) l
  = c * Z.of_nat (length l) - sumZ f l + d * sumZ g l.
Proof. induction l as [|x l IH]; simpl sumZ; simpl length; lia. Qed.

Lemma sumZ_lin5 {A} (c d e : Z) (f1 f2 f3 f4 f5 : A → Z) (l : list A) :
  sumZ (λ x, f1 x + c * f2 x - d * f3 x + f4 x + e * f5 x) l
  = sumZ f1 l + c * sumZ f2 l - d * sumZ f3 l + sumZ f4 l + e * sumZ f5 l.
Proof. induction l as [|x l IH]; simpl; lia. Qed.

Lemma sumZ_square_range (f : nat → Z) (s e : nat) :
  sumZ f (range s e) ^ 2
  = sumZ (λ k, f k ^ 2) (range s e)
    + 2 * sumZ (λ k, sumZ (λ l, f k * f l) (range (k + 1) e)) (range s e).
Proof.
  unfold range at 1 2 4. destruct (decide (s ≤ e)%nat) as [Hle|Hgt].
  - rewrite sumZ_square. by replace (s + (e - s))%nat with e by lia.
  - replace (e - s)%nat with 0%nat by lia. simpl. lia.
Qed.

Lemma sumZ_range_shift (f : nat → Z) (n : nat) :
  sumZ (λ i, f (i + 1)%nat) (range 0 n) = sumZ f (range 1 (n + 1)).
Proof.
  unfold range. replace (n + 1 - 1)%nat with n by lia. rewrite Nat.sub_0_r.
  rewrite <- (fmap_S_seq 0 n), sumZ_fmap.
  apply sumZ_ext. intros i _. by replace (i + 1)%nat with (S i) by lia.
Qed.

(** ** Expanding the squared penalties *)

Section Expansion.
Variables (n u : nat) (A B : Z).
Variables (X : nat → Z) (Y : nat → nat → Z) (Ia : nat → nat → Z).
Hypothesis X_binary : ∀ i, X i ^ 2 = X i.
Hypothesis Y_binary : ∀ a m, Y a m ^ 2 = Y a m.
Hypothesis I_binary : ∀ i a, Ia i a ^ 2 = Ia i a.

(** [(1 - sum_m y_(a,m))^2] for binary [y]. *)
Lemma one_hot_expansion (a : nat) :
  (1 - sumZ (Y a) (range 1 (n + 1))) ^ 2
  = 1 - sumZ (Y a) (range 1 (n + 1))
    + 2 * sumZ (λ m, sumZ (λ l, Y a m * Y a l) (range (m + 1) (n + 1)))
               (range 1 (n + 1)).
Proof.
  pose proof (sumZ_square_range (Y a) 1 (n + 1)) as Hsq.
  rewrite (sumZ_ext (λ k, Y a k ^ 2) (Y a)) in Hsq by (intros; apply Y_binary).
  lia.
Qed.

(** [(sum_m m y_(a,m) - sum_i I_(i,a) x_i)^2] for binary [x], [y], [I]. *)
Lemma cover_expansion (a : nat) :
  (sumZ (λ m, Z.of_nat m * Y a m) (range 1 (n + 1))
   - sumZ (λ i, Ia i a * X i) (range 1 (n + 1))) ^ 2
  = sumZ (λ m, Z.of_nat m ^ 2 * Y a m) (range 1 (n + 1))
    + 2 * sumZ (λ m, sumZ (λ l, (Z.of_nat m * Y a m) * (Z.of_nat l * Y a l))
                          (range (m + 1) (n + 1))) (range 1 (n + 1))
    - 2 * sumZ (λ m, sumZ (λ i, (Z.of_nat m * Y a m) * (Ia i a * X i))
                          (range 1 (n + 1))) (range 1 (n + 1))
    + sumZ (λ i, Ia i a * X i) (range 1 (n + 1))
    + 2 * sumZ (λ i, sumZ (λ j, (Ia i a * X i) * (Ia j a * X j))
                          (range (i + 1) (n + 1))) (range 1 (n + 1)).
Proof.
  pose proof (sumZ_square_range (λ m, Z.of_nat m * Y a m) 1 (n + 1)) as HP.
  pose proof (sumZ_square_range (λ i, Ia i a * X i) 1 (n + 1)) as HQ.
  pose proof (sumZ_mul_sumZ (λ m, Z.of_nat m * Y a m) (λ i, Ia i a * X i)
                (range 1 (n + 1)) (range 1 (n + 1))) as HPQ.
  cbv beta in HP, HQ.
  rewrite (sumZ_ext (λ k, (Z.of_nat k * Y a k) ^ 2)
                    (λ m, Z.of_nat m ^ 2 * Y a m)) in HP.
  2:{ intros m _. rewrite Z.pow_mul_l, Y_binary. done. }
  rewrite (sumZ_ext (λ k, (Ia k a * X k) ^ 2) (λ i, Ia i a * X i)) in HQ.
  2:{ intros i _. rewrite Z.pow_mul_l, I_binary, X_binary. done. }
  set (P := sumZ (λ m, Z.of_nat m * Y a m) (range 1 (n + 1))) in *.
  set (Q := sumZ (λ i, Ia i a * X i) (range 1 (n + 1))) in *.
  replace ((P - Q) ^ 2) with (P ^ 2 - 2 * (P * Q) + Q ^ 2) by ring.
  rewrite HP, HQ, HPQ. ring.
Qed.

(** The energy of the coefficients the builder writes, summed in program
    order, against the Hamiltonian. *)
Lemma setcover_expansion :
  sumZ (λ i, (A * sumZ (λ a, Ia (i + 1) a) (range 1 (u + 1)) + B) * X (i + 1))
       (range 0 n)
  + sumZ (λ a, sumZ (λ m, A * (Z.of_nat m ^ 2 - 1) * Y a m) (range 1 (n + 1)))
         (range 1 (u + 1))
  + sumZ (λ i, sumZ (λ j,
            2 * A * sumZ (λ a, Ia i a * Ia j a) (range 1 (u + 1)) * X i * X j)
            (range (i + 1) (n + 1))) (range 1 (n + 1))
  + sumZ (λ m, sumZ (λ l, sumZ (λ a,
            2 * A * (1 + Z.of_nat m * Z.of_nat l) * Y a m * Y a l)
            (range 1 (u + 1))) (range (m + 1) (n + 1))) (range 1 (n + 1))
  + sumZ (λ i, sumZ (λ m, sumZ (λ a,
            -2 * A * Z.of_nat m * Ia i a * X i * Y a m)
            (range 1 (u + 1))) (range 1 (n + 1))) (range 1 (n + 1))
  = A * sumZ (λ a, (1 - sumZ (Y a) (range 1 (n + 1))) ^ 2) (range 1 (u + 1))
    + A * sumZ (λ a,
            (sumZ (λ m, Z.of_nat m * Y a m) (range 1 (n + 1))
             - sumZ (λ i, Ia i a * X i) (range 1 (n + 1))) ^ 2)
          (range 1 (u + 1))
    + B * sumZ X (range 1 (n + 1))
    - A * Z.of_nat u.
Proof.
  set (ms := range 1 (n + 1)). set (es := range 1 (u + 1)).
  (* every group of writes as a sum over the elements of the universe *)
  assert (T1 :
    sumZ (λ i, (A * sumZ (λ a, Ia (i + 1) a) es + B) * X (i + 1)) (range 0 n)
    = A * sumZ (λ a, sumZ (λ i, Ia i a * X i) ms) es + B * sumZ X ms).
  { rewrite (sumZ_range_shift (λ i, (A * sumZ (λ a, Ia i a) es + B) * X i)).
    fold ms. rewrite (sumZ_swap (λ a i, Ia i a * X i)).
    rewrite <- (sumZ_lin2 A B). apply sumZ_ext. intros i _.
    assert (sumZ (λ a, Ia i a * X i) es = X i * sumZ (λ a, Ia i a) es) as ->.
    { rewrite <- sumZ_scale. apply sumZ_ext. intros a _. ring. }
    ring. }
  assert (T2 :
    sumZ (λ a, sumZ (λ m, A * (Z.of_nat m ^ 2 - 1) * Y a m) ms) es
    = A * sumZ (λ a, sumZ (λ m, Z.of_nat m ^ 2 * Y a m) ms) es
      + (- A) * sumZ (λ a, sumZ (Y a) ms) es).
  { rewrite <- sumZ_lin2. apply sumZ_ext. intros a _.
    rewrite <- sumZ_lin2. apply sumZ_ext. intros m _. ring. }
  assert (T3 :
    sumZ (λ i, sumZ (λ j,
        2 * A * sumZ (λ a, Ia i a * Ia j a) es * X i * X j)
        (range (i + 1) (n + 1))) ms
    = 2 * A * sumZ (λ a, sumZ (λ i, sumZ (λ j, (Ia i a * X i) * (Ia j a * X j))
                       (range (i + 1) (n + 1))) ms) es).
  { rewrite (sumZ_swap (λ a i, sumZ (λ j, (Ia i a * X i) * (Ia j a * X j))
                                  (range (i + 1) (n + 1)))).
    rewrite <- sumZ_scale. apply sumZ_ext. intros i _.
    rewrite (sumZ_swap (λ a j, (Ia i a * X i) * (Ia j a * X j))).
    rewrite <- sumZ_scale. apply sumZ_ext. intros j _.
    assert (sumZ (λ a, (Ia i a * X i) * (Ia j a * X j)) es
            = X i * X j * sumZ (λ a, Ia i a * Ia j a) es) as ->.
    { rewrite <- sumZ_scale. apply sumZ_ext. intros a _. ring. }
    ring. }
  assert (T4 :
    sumZ (λ m, sumZ (λ l, sumZ (λ a,
        2 * A * (1 + Z.of_nat m * Z.of_nat l) * Y a m * Y a l) es)
        (range (m + 1) (n + 1))) ms
    = 2 * A * sumZ (λ a, sumZ (λ m, sumZ (λ l, Y a m * Y a l)
                       (range (m + 1) (n + 1))) ms) es
      + 2 * A * sumZ (λ a, sumZ (λ m, sumZ (λ l,
                       (Z.of_nat m * Y a m) * (Z.of_nat l * Y a l))
                       (range (m + 1) (n + 1))) ms) es).
  { rewrite <- sumZ_lin2.
    etrans; [apply sumZ_ext; intros m _; apply sumZ_swap|].
    etrans; [apply sumZ_swap|].
    apply sumZ_ext. intros a _. rewrite <- sumZ_lin2.
    apply sumZ_ext. intros m _. rewrite <- sumZ_lin2.
    apply sumZ_ext. intros l _. ring. }
  assert (T5 :
    sumZ (λ i, sumZ (λ m, sumZ (λ a,
        -2 * A * Z.of_nat m * Ia i a * X i * Y a m) es) ms) ms
    = (-2 * A) * sumZ (λ a, sumZ (λ m, sumZ (λ i,
                       (Z.of_nat m * Y a m) * (Ia i a * X i)) ms) ms) es).
  { rewrite <- sumZ_scale.
    etrans; [apply sumZ_ext; intros i _; apply sumZ_swap|].
    etrans; [apply sumZ_swap|].
    apply sumZ_ext. intros a _.
    etrans; [apply sumZ_swap|].
    rewrite <- sumZ_scale.
    apply sumZ_ext. intros m _. rewrite <- sumZ_scale.
    apply sumZ_ext. intros i _. ring. }
  rewrite T1, T2, T3, T4, T5. clear T1 T2 T3 T4 T5. subst ms es.
  rewrite (sumZ_ext _ _ _ (λ a _, one_hot_expansion a)).
  rewrite (sumZ_ext _ _ _ (λ a _, cover_expansion a)).
  rewrite sumZ_affine, sumZ_lin5.
  assert (length (range 1 (u + 1)) = u) as ->
    by (unfold range; rewrite length_seq; lia).
  ring.
Qed.

End Expansion.

(** ** The slack weights span exactly [0 .. bound] *)

Section SlackSpan.
Import Slack.

Lemma weighted_sum_app (w1 w2 : list Z) (b1 b2 : list bool) :
  length w1 = length b1 →
  weighted_sum (w1 ++ w2) (b1 ++ b2) = weighted_sum w1 b1 + weighted_sum w2 b2.
Proof.
  revert b1. induction w1 as [|x w1 IH]; intros [|y b1] Hlen; simplify_eq/=.
  - done.
  - rewrite IH by done. lia.
Qed.

Lemma weighted_sum_bounds (w : list Z) (b : list bool) :
  Forall (λ x, 0 ≤ x) w →
  0 ≤ weighted_sum w b ≤ sumZ id w.
Proof.
  intros Hw. revert b. induction Hw as [|x w Hx Hw IH]; intros b.
  - destruct b; simpl; lia.
  - assert (0 ≤ sumZ id w).
    { specialize (IH []). destruct w; simpl in *; lia. }
    destruct b as [|y b]; simpl; [lia|].
    specialize (IH b). destruct y; simpl; lia.
Qed.

Lemma pow2_weights_nonneg (s M : nat) :
  Forall (λ x, 0 ≤ x) ((λ n : nat, 2 ^ Z.of_nat n) <$> seq s M).
Proof.
  apply Forall_fmap, Forall_forall. intros n _. simpl. lia.
Qed.

Lemma pow2_weights_total (s M : nat) :
  sumZ id ((λ n : nat, 2 ^ Z.of_nat n) <$> seq s M)
  = 2 ^ Z.of_nat s * (2 ^ Z.of_nat M - 1).
Proof.
  revert s. induction M as [|M IH]; intros s.
  - simpl. lia.
  - cbn [seq fmap list_fmap sumZ].
    change (list_fmap nat Z ?f ?l) with (f <$> l).
    rewrite IH. unfold id at 1.
    rewrite !Nat2Z.inj_succ, !Z.pow_succ_r by lia. lia.
Qed.

(** Reading the bits [s .. s+M-1] of [v] against the weights
    [2^s .. 2^(s+M-1)] gives back that slice of [v]. *)
Lemma weighted_sum_bits_from (s M : nat) (v : Z) :
  weighted_sum ((λ n : nat, 2 ^ Z.of_nat n) <$> seq s M)
               ((λ n : nat, Z.testbit v (Z.of_nat n)) <$> seq s M)
  = 2 ^ Z.of_nat s * ((v / 2 ^ Z.of_nat s) mod 2 ^ Z.of_nat M).
Proof.
  revert s. induction M as [|M IH]; intros s.
  - simpl. rewrite Z.mod_1_r. lia.
  - cbn [seq fmap list_fmap weighted_sum].
    change (list_fmap nat ?B ?f ?l) with (f <$> l).
    rewrite IH. rewrite Z.testbit_spec' by lia.
    rewrite !Nat2Z.inj_succ, !Z.pow_succ_r by lia.
    assert (Hpos : 0 < 2 ^ Z.of_nat s) by lia.
    assert (HposM : 0 < 2 ^ Z.of_nat M) by lia.
    rewrite (Z.mul_comm 2 (2 ^ Z.of_nat s)).
    rewrite <- Z.div_div by lia.
    set (q := v / 2 ^ Z.of_nat s).
    rewrite (Z.rem_mul_r q 2 (2 ^ Z.of_nat M)) by lia. ring.
Qed.

Lemma weighted_sum_bits (M : nat) (v : Z) :
  0 ≤ v < 2 ^ Z.of_nat M →
  weighted_sum ((λ n : nat, 2 ^ Z.of_nat n) <$> range 0 M) (bits M v) = v.
Proof.
  intros Hv. unfold bits, range. rewrite Nat.sub_0_r, weighted_sum_bits_from.
  simpl. rewrite Z.div_1_r, Z.mod_small by lia. lia.
Qed.

Lemma length_bits (M : nat) (v : Z) : length (bits M v) = M.
Proof. unfold bits, range. rewrite length_fmap, length_seq. lia. Qed.

Lemma length_weights_for (M : nat) (B : Z) : length (weights_for M B) = S M.
Proof.
  unfold weights_for, range.
  rewrite length_app, length_fmap, length_seq. simpl. lia.
Qed.

Lemma elem_of_assignments (n : nat) (b : list bool) :
  b ∈ assignments n ↔ length b = n.
Proof.
  revert b. induction n as [|n IH]; intros b; simpl.
  - rewrite list_elem_of_singleton. by destruct b.
  - rewrite elem_of_app, !list_elem_of_fmap. split.
    + intros [(b' & -> & Hb')|(b' & -> & Hb')]; apply IH in Hb'; simpl; lia.
    + destruct b as [|[] b]; intros Hlen; simplify_eq/=.
      * right. exists b. by rewrite IH.
      * left. exists b. by rewrite IH.
Qed.

Lemma elem_of_achievable_sums (w : list Z) (v : Z) :
  v ∈ achievable_sums w ↔ ∃ b, length b = length w ∧ weighted_sum w b = v.
Proof.
  unfold achievable_sums. rewrite list_elem_of_fmap. split.
  - intros (b & -> & Hb%elem_of_assignments). eauto.
  - intros (b & Hb & <-). exists b. by rewrite elem_of_assignments.
Qed.

(** The core of the Lucas construction, for any [M] with
    [2^M ≤ B < 2^(M+1)]. *)
Lemma weights_for_span (M : nat) (B v : Z) :
  2 ^ Z.of_nat M ≤ B < 2 ^ Z.of_nat (S M) →
  (∃ b, length b = S M ∧ weighted_sum (weights_for M B) b = v) ↔ 0 ≤ v ≤ B.
Proof.
  intros HM. rewrite Nat2Z.inj_succ, Z.pow_succ_r in HM by lia.
  set (r := B + 1 - 2 ^ Z.of_nat M).
  assert (Hpos : 0 < 2 ^ Z.of_nat M) by lia.
  split.
  - intros (b & _ & <-).
    pose proof (weighted_sum_bounds (weights_for M B) b) as Hb.
    unfold weights_for in *. fold r in Hb |- *.
    assert (Hnn : Forall (λ x, 0 ≤ x)
              (((λ n : nat, 2 ^ Z.of_nat n) <$> range 0 M) ++ [r])).
    { apply Forall_app; split; [apply pow2_weights_nonneg|].
      apply Forall_singleton. unfold r. lia. }
    specialize (Hb Hnn).
    assert (Htot : sumZ id (((λ n : nat, 2 ^ Z.of_nat n) <$> range 0 M) ++ [r]) = B).
    { rewrite sumZ_app. unfold range.
      rewrite Nat.sub_0_r, pow2_weights_total. simpl. unfold id. lia. }
    lia.
  - intros Hv. unfold weights_for. fold r.
    destruct (decide (v < 2 ^ Z.of_nat M)) as [Hlt|Hge].
    + exists (bits M v ++ [false]). split.
      * rewrite length_app, length_bits. simpl. lia.
      * rewrite weighted_sum_app.
        -- rewrite weighted_sum_bits by lia. simpl. lia.
        -- unfold range. rewrite length_fmap, length_seq, length_bits. lia.
    + exists (bits M (v - r) ++ [true]). split.
      * rewrite length_app, length_bits. simpl. lia.
      * rewrite weighted_sum_app.
        -- rewrite weighted_sum_bits by (unfold r; lia). simpl. lia.
        -- unfold range. rewrite length_fmap, length_seq, length_bits. lia.
Qed.

(** *** The double-precision logarithm *)

Lemma round53_small (x : Z) : Z.abs x < 2 ^ 53 → Float64.round53 x = x.
Proof.
  intros Hx. unfold Float64.round53. cbv zeta.
  rewrite decide_True; [done|].
  destruct (decide (Z.abs x = 0)) as [->|Hnz]; [done|].
  assert (Z.log2 (Z.abs x) < 53); [|lia].
  apply Z.log2_lt_pow2; lia.
Qed.

(** Integers in range and results below [2^53]: no wrap-around and no
    rounding. *)
Lemma wrap64_small (z : Z) :
  - 2 ^ 63 ≤ z < 2 ^ 63 → Float64.wrap64 z = z.
Proof.
  intros Hz. unfold Float64.wrap64. rewrite Z.mod_small; lia.
Qed.

Lemma mul_int_small (a n : Z) :
  Z.abs n < 2 ^ 53 → Z.abs (a * n) < 2 ^ 53 → Float64.mul_int a n = a * n.
Proof.
  intros Hn Han. unfold Float64.mul_int.
  rewrite (round53_small n) by done. by apply round53_small.
Qed.

Lemma add_int_small (a n : Z) :
  Z.abs n < 2 ^ 53 → Z.abs (a + 2 * n) < 2 ^ 53 →
  Float64.add_int a n = a + 2 * n.
Proof.
  intros Hn Han. unfold Float64.add_int.
  rewrite (round53_small n) by done. by apply round53_small.
Qed.

(** Bernoulli's inequality, from below and from above:
    [(1 - t)^n ≥ 1 - n t] and [(1 - t)^n (1 + n t) < 1] for [t = d/P]. *)
Lemma bernoulli_lower (P d : Z) (n : nat) :
  0 ≤ d ≤ P →
  P ^ Z.of_nat n * (P - Z.of_nat n * d) ≤ P * (P - d) ^ Z.of_nat n.
Proof.
  intros Hd. induction n as [|n IH].
  - simpl. lia.
  - rewrite !Nat2Z.inj_succ, !Z.pow_succ_r by lia.
    assert (0 ≤ P ^ Z.of_nat n) by (apply Z.pow_nonneg; lia).
    assert (0 ≤ (P - d) ^ Z.of_nat n) by (apply Z.pow_nonneg; lia).
    transitivity ((P - d) * (P ^ Z.of_nat n * (P - Z.of_nat n * d))).
    + assert (0 ≤ P ^ Z.of_nat n * (Z.of_nat n * d * d)) by nia. nia.
    + assert (0 ≤ P - d) by lia. nia.
Qed.

Lemma bernoulli_upper (P d : Z) (n : nat) :
  0 < d < P → (0 < n)%nat →
  (P - d) ^ Z.of_nat n * (P + Z.of_nat n * d) < P ^ Z.of_nat n * P.
Proof.
  intros Hd Hn. induction n as [|n IH]; [lia|].
  destruct n as [|n].
  - simpl. change (Z.pow_pos ?a 1) with (a ^ 1). rewrite !Z.pow_1_r. nia.
  - specialize (IH ltac:(lia)).
    rewrite (Nat2Z.inj_succ (S n)), !(Z.pow_succ_r _ (Z.of_nat (S n))) by lia.
    set (m := Z.of_nat (S n)) in *.
    assert (0 < m) by (unfold m; lia).
    assert (0 < (P - d) ^ m) by (apply Z.pow_pos_nonneg; lia).
    assert (0 < P ^ m) by (apply Z.pow_pos_nonneg; lia).
    apply Z.le_lt_trans with (P * ((P - d) ^ m * (P + m * d))).
    + assert (0 ≤ (P - d) ^ m * (Z.succ m * d * d)) by nia. nia.
    + nia.
Qed.

Section Log2.
Variable x : Z.
Hypothesis x_pos : 1 ≤ x.

Local Abbreviation k := (Z.log2 x).
Local Abbreviation P := (2 ^ (Z.log2 x + 1)).
Local Abbreviation N := (2 ^ (53 - Z.log2 (Z.log2 x))).

Lemma log2_frame : 0 ≤ k ∧ 0 < P - x ≤ P - 1 ∧ 0 ≤ N.
Proof.
  pose proof (Z.log2_nonneg x). pose proof (Z.log2_spec x ltac:(lia)) as Hs.
  rewrite <- Z.add_1_r in Hs.
  split_and!; first [lia|apply Z.pow_nonneg; lia].
Qed.

(** The two short cuts of [log2_rounds_up] agree with the comparison of
    the powers. *)
Lemma log2_rounds_up_spec :
  log2_rounds_up x = bool_decide (P ^ N ≤ 2 * x ^ N).
Proof.
  destruct log2_frame as (Hk & Hd & HN).
  assert (HP : 0 < P) by (apply Z.pow_pos_nonneg; lia).
  unfold log2_rounds_up. cbv zeta.
  assert (HxN : 0 ≤ x ^ N) by (apply Z.pow_nonneg; lia).
  assert (HPN : 0 < P ^ N) by (apply Z.pow_pos_nonneg; lia).
  destruct (decide (2 * (N * (P - x)) ≤ P)) as [Hup|Hnup].
  - symmetry. apply bool_decide_eq_true.
    pose proof (bernoulli_lower P (P - x) (Z.to_nat N) ltac:(lia)) as Hb.
    rewrite Z2Nat.id in Hb by done.
    replace (P - (P - x)) with x in Hb by lia.
    assert (P ^ N * P ≤ 2 * (P * x ^ N)); [|nia].
    transitivity (2 * (P ^ N * (P - N * (P - x)))); [|lia].
    assert (P ≤ 2 * (P - N * (P - x))) by lia. nia.
  - destruct (decide (P ≤ N * (P - x))) as [Hdown|Hmid]; [|done].
    symmetry. apply bool_decide_eq_false. intros Hle.
    assert (0 < N) by nia.
    pose proof (bernoulli_upper P (P - x) (Z.to_nat N) ltac:(lia) ltac:(lia))
      as Hb.
    rewrite Z2Nat.id in Hb by done.
    replace (P - (P - x)) with x in Hb by lia.
    assert (x ^ N * (2 * P) ≤ x ^ N * (P + N * (P - x))) by nia.
    nia.
Qed.

End Log2.

(** Below [2^49 - 1] the double-precision logarithm floors to the exact
    one. *)
Lemma floor_log2_exact (x : Z) :
  1 ≤ x ≤ 2 ^ 49 - 2 → floor_log2 x = Ok (Z.log2 x).
Proof.
  intros Hx. unfold floor_log2. rewrite decide_False by lia. cbv zeta.
  rewrite round53_small by lia. f_equal.
  destruct (log2_frame x ltac:(lia)) as (Hk & Hd & HN).
  assert (Hk49 : Z.log2 x < 49) by (apply Z.log2_lt_pow2; lia).
  assert (Hkk : Z.log2 (Z.log2 x) ≤ 5).
  { destruct (decide (Z.log2 x = 0)) as [->|?]; [done|].
    assert (Z.log2 (Z.log2 x) < 6); [|lia]. apply Z.log2_lt_pow2; lia. }
  pose proof (Z.log2_nonneg (Z.log2 x)).
  assert (HN48 : 2 ^ 48 ≤ 2 ^ (53 - Z.log2 (Z.log2 x)))
    by (apply Z.pow_le_mono_r; lia).
  assert (Hdown : 2 ^ (Z.log2 x + 1)
                  ≤ 2 ^ (53 - Z.log2 (Z.log2 x)) * (2 ^ (Z.log2 x + 1) - x)).
  { destruct (decide (Z.log2 x = 48)) as [H48|H48].
    - rewrite H48 in *. change (Z.log2 48) with 5 in *. lia.
    - assert (2 ^ (Z.log2 x + 1) ≤ 2 ^ 48) by (apply Z.pow_le_mono_r; lia).
      nia. }
  unfold log2_rounds_up. cbv zeta.
  assert (0 < 2 ^ (Z.log2 x + 1)) by (apply Z.pow_pos_nonneg; lia).
  rewrite decide_False by lia. by rewrite decide_True.
Qed.

(** On a positive argument the logarithm is defined and its floor is
    a natural number. *)
Lemma floor_log2_ok (x : Z) :
  1 ≤ x → ∃ M : nat, floor_log2 x = Ok (Z.of_nat M).
Proof.
  intros Hx. unfold floor_log2. rewrite decide_False by lia. cbv zeta.
  pose proof (Z.log2_nonneg (Float64.round53 x)).
  destruct (log2_rounds_up _).
  - exists (Z.to_nat (Z.log2 (Float64.round53 x) + 1)). f_equal. lia.
  - exists (Z.to_nat (Z.log2 (Float64.round53 x))). f_equal. lia.
Qed.




Example slack_weights_100 :
  slack_weights 100 = Ok [1; 2; 4; 8; 16; 32; 37].
Proof. by vm_compute. Qed.

(** Just below a large power of two the logarithm is rounded up: from
    [2^49 - 1] on the setup can take one bit too many. *)
Example floor_log2_rounded_up :
  floor_log2 (2 ^ 49 - 2) = Ok 48
  ∧ floor_log2 (2 ^ 49 - 1) = Ok 49
  ∧ floor_log2 (2 ^ 49) = Ok 49
  ∧ floor_log2 (2 ^ 50 - 2) = Ok 50.
Proof. split_and!; by vm_compute. Qed.

End SlackSpan.


Import SetCover.

(** ** Labels *)

Lemma char_free_app (c : ascii) (s t : string) :
  char_free c s → char_free c t → char_free c (s +:+ t).
Proof. induction s as [|c' s IH]; simpl; [done|]. intros [??] ?. auto. Qed.

Lemma pretty_N_go_char_free (c : ascii) (x : N) (s : string) :
  not_digit c → char_free c s → char_free c (pretty_N_go x s).
Proof.
  intros Hc. revert s.
  induction (N.lt_wf_0 x) as [x _ IH]; intros s Hs.
  destruct (decide (x = 0)%N) as [->|Hx].
  - by rewrite pretty_N_go_0.
  - rewrite pretty_N_go_step by lia. apply IH.
    + apply N.div_lt; lia.
    + simpl. split; [apply Hc|done].
Qed.

Lemma str_char_free (c : ascii) (n : nat) : not_digit c → char_free c (str n).
Proof.
  intros Hc. unfold str, pretty, pretty_nat, pretty, pretty_N.
  case_decide.
  - simpl. split; [apply (Hc 0%N)|done].
  - by apply pretty_N_go_char_free.
Qed.

Lemma str_inj (n1 n2 : nat) : str n1 = str n2 → n1 = n2.
Proof. apply (inj pretty). Qed.

Lemma not_digit_comma : not_digit ",".
Proof. intros d. unfold pretty_N_char. by repeat case_match. Qed.
Lemma not_digit_rparen : not_digit ")".
Proof. intros d. unfold pretty_N_char. by repeat case_match. Qed.

(** A string is split at the first occurrence of a character in one way
    only. *)
Lemma app_char_inj (c : ascii) (s1 s2 t1 t2 : string) :
  char_free c s1 → char_free c s2 →
  s1 +:+ String c t1 = s2 +:+ String c t2 → s1 = s2 ∧ t1 = t2.
Proof.
  revert s2. induction s1 as [|c1 s1 IH]; intros [|c2 s2]; simpl.
  - intros _ _ [= ->]. done.
  - intros _ [Hc2 _] [= -> _]. done.
  - intros [Hc1 _] _ [= -> _]. done.
  - intros [_ H1] [_ H2] [= -> Heq].
    destruct (IH _ H1 H2 Heq) as [-> ->]. done.
Qed.

Lemma x_label_inj (i j : nat) : x_label i = x_label j → i = j.
Proof. unfold x_label. simpl. intros [= Heq]. by apply str_inj. Qed.

Lemma y_label_inj (a1 m1 a2 m2 : nat) :
  y_label a1 m1 = y_label a2 m2 → a1 = a2 ∧ m1 = m2.
Proof.
  unfold y_label. simpl. intros [= Heq].
  apply app_char_inj in Heq as [Ha Hm];
    [|apply str_char_free, not_digit_comma..].
  injection Hm as Hm.
  apply app_char_inj in Hm as [Hm _];
    [|apply str_char_free, not_digit_rparen..].
  split; by apply str_inj.
Qed.

Lemma x_label_ne_y_label (i a m : nat) : x_label i ≠ y_label a m.
Proof. unfold x_label, y_label. simpl. intros [=]. Qed.

(** ** Running a script of writes *)

Lemma linear_entries_app (ws1 ws2 : list write) :
  linear_entries (ws1 ++ ws2) = linear_entries ws1 ++ linear_entries ws2.
Proof. apply omap_app. Qed.
Lemma quadratic_entries_app (ws1 ws2 : list write) :
  quadratic_entries (ws1 ++ ws2)
  = quadratic_entries ws1 ++ quadratic_entries ws2.
Proof. apply omap_app. Qed.

(** With fresh, pairwise distinct keys, no self-pair and no pair written
    in both orders the script runs to completion, and the maps of the
    result hold exactly the entries written. *)
Lemma run_fresh (ws : list write) (bqm0 : BQM) :
  Forall no_self_pair ws →
  NoDup (linear_keys ws) → NoDup (quadratic_keys ws) →
  (∀ v, v ∈ linear_keys ws → linear bqm0 !! v = None) →
  (∀ u v, (u, v) ∈ quadratic_keys ws →
     ((v, u) ∉ quadratic_keys ws) ∧ quadratic bqm0 !! (v, u) = None) →
  run ws bqm0
  = Ok (mkBQM (list_to_map (linear_entries ws) ∪ linear bqm0)
              (list_to_map (quadratic_entries ws) ∪ quadratic bqm0)).
Proof.
  revert bqm0.
  induction ws as [|w ws IH]; intros [lin0 quad0] Hself Hlin Hquad Hfresh Hrev.
  - simpl. by rewrite !(left_id_L ∅ (∪)).
  - apply Forall_cons in Hself as [Hw Hself].
    destruct w as [v bias|[u1 u2] bias]; simpl in *.
    + unfold linear_keys in *. simpl in *.
      apply NoDup_cons in Hlin as [Hv Hlin].
      rewrite IH; simpl; try done.
      * f_equal. f_equal.
        rewrite (Hfresh v) by left. simpl.
        rewrite <- insert_union_l, <- insert_union_r; [done|].
        by apply not_elem_of_list_to_map.
      * intros v' Hv'. rewrite lookup_insert_ne; [|intros ->; done].
        apply Hfresh. by right.
    + unfold quadratic_keys in *. simpl in *.
      apply NoDup_cons in Hquad as [Hk Hquad].
      unfold set_quadratic, reject_self_pair. rewrite decide_False by done.
      simpl. unfold quadratic_setitem, stored_key. simpl.
      destruct (Hrev u1 u2) as [Hnot Hnone]; [left|].
      rewrite Hnone, decide_False by (by intros []).
      rewrite IH; simpl; try done.
      * f_equal. f_equal.
        rewrite <- insert_union_l, <- insert_union_r; [done|].
        by apply not_elem_of_list_to_map.
      * intros u v Huv. destruct (Hrev u v) as [Hn1 Hn2]; [by right|].
        split; [by intros ?; apply Hn1; right|].
        rewrite lookup_insert_ne; [done|].
        intros [= -> ->]. apply Hn1. left.
Qed.

Lemma run_from_empty (ws : list write) :
  Forall no_self_pair ws →
  NoDup (linear_keys ws) → NoDup (quadratic_keys ws) →
  (∀ u v, (u, v) ∈ quadratic_keys ws → (v, u) ∉ quadratic_keys ws) →
  run ws empty_bqm
  = Ok (mkBQM (list_to_map (linear_entries ws))
              (list_to_map (quadratic_entries ws))).
Proof.
  intros Hself Hlin Hquad Hrev. rewrite run_fresh; try done.
  - simpl. by rewrite !(right_id_L ∅ (∪)).
  - intros u v Huv. split; [by apply Hrev|done].
Qed.

(** Summing a map in any order gives the sum over the list it was built
    from. *)
Lemma map_fold_sum `{Countable K} (f : K → Z → Z) (l : list (K * Z)) :
  NoDup (l.*1) →
  map_fold (λ k b acc, f k b + acc) 0 (list_to_map l : gmap K Z)
  = sumZ (λ kb, f kb.1 kb.2) l.
Proof.
  intros Hnd. rewrite map_fold_foldr.
  rewrite (foldr_permutation (=) _ 0 _ l).
  - induction l as [|[k b] l IH]; simpl; [done|].
    rewrite IH; [done|]. by apply NoDup_cons in Hnd as [_ ?].
  - intros j1 [k1 b1] j2 [k2 b2] acc _ _ _. simpl. lia.
  - by apply map_to_list_to_map.
Qed.

Lemma energy_of_entries (ws : list write) (s : sample) :
  NoDup (linear_keys ws) → NoDup (quadratic_keys ws) →
  energy (mkBQM (list_to_map (linear_entries ws))
                (list_to_map (quadratic_entries ws))) s
  = sumZ (write_energy s) ws.
Proof.
  intros Hlin Hquad. unfold energy. simpl.
  rewrite (map_fold_sum (λ v bias, bias * val s v)) by done.
  rewrite (map_fold_sum (λ (key : string * string) bias,
             bias * val s key.1 * val s key.2)) by done.
  clear. induction ws as [|[v bias|key bias] ws IH]; simpl in *; lia.
Qed.

(** ** The keys of the set-cover script *)

Lemma elem_of_range (k lo hi : nat) : k ∈ range lo hi ↔ (lo ≤ k < hi)%nat.
Proof. unfold range. rewrite elem_of_seq. lia. Qed.

Lemma lookup_range (lo hi i : nat) :
  (i < hi - lo)%nat → range lo hi !! i = Some (lo + i)%nat.
Proof. intros Hi. unfold range. by apply lookup_seq_lt. Qed.

Lemma NoDup_range (lo hi : nat) : NoDup (range lo hi).
Proof. apply NoDup_seq. Qed.

Lemma quadratic_entries_bind {X} (l : list X) (f : X → list write) :
  quadratic_entries (l ≫= f) = l ≫= (λ x, quadratic_entries (f x)).
Proof.
  induction l as [|x l IH]; csimpl; [done|].
  by rewrite quadratic_entries_app, IH.
Qed.

Lemma linear_entries_bind {X} (l : list X) (f : X → list write) :
  linear_entries (l ≫= f) = l ≫= (λ x, linear_entries (f x)).
Proof.
  induction l as [|x l IH]; csimpl; [done|].
  by rewrite linear_entries_app, IH.
Qed.

Lemma quadratic_keys_bind {X} (l : list X) (f : X → list write) :
  quadratic_keys (l ≫= f) = l ≫= (λ x, quadratic_keys (f x)).
Proof.
  unfold quadratic_keys. rewrite quadratic_entries_bind.
  induction l as [|x l IH]; csimpl; [done|]. by rewrite fmap_app, IH.
Qed.

Lemma linear_keys_bind {X} (l : list X) (f : X → list write) :
  linear_keys (l ≫= f) = l ≫= (λ x, linear_keys (f x)).
Proof.
  unfold linear_keys. rewrite linear_entries_bind.
  induction l as [|x l IH]; csimpl; [done|]. by rewrite fmap_app, IH.
Qed.

Lemma linear_entries_add {X} (k : X → string) (b : X → Z) (l : list X) :
  linear_entries ((λ x, AddVariable (k x) (b x)) <$> l)
  = (λ x, (k x, b x)) <$> l.
Proof. induction l as [|x l IH]; csimpl; [done|]. by rewrite <- IH. Qed.

Lemma linear_keys_add {X} (k : X → string) (b : X → Z) (l : list X) :
  linear_keys ((λ x, AddVariable (k x) (b x)) <$> l) = k <$> l.
Proof.
  unfold linear_keys. rewrite linear_entries_add, <- list_fmap_compose. done.
Qed.

Lemma quadratic_entries_add {X} (k : X → string) (b : X → Z) (l : list X) :
  quadratic_entries ((λ x, AddVariable (k x) (b x)) <$> l) = [].
Proof. induction l as [|x l IH]; csimpl; done. Qed.

Section SetCoverKeys.
Context {E : Type} `{Countable E}.
Variable U : list E.
Variable V : list (gset E).

Lemma elem_of_x_linear_entries (e : string * Z) :
  e ∈ linear_entries (x_linear_terms U V) ↔
  ∃ i, (1 ≤ i ≤ length V)%nat
       ∧ e = (x_label i, A * sumZ id (I U V !!! (i - 1)%nat) + B).
Proof.
  unfold x_linear_terms. rewrite linear_entries_add, list_elem_of_fmap.
  setoid_rewrite elem_of_range. split.
  - intros (i & -> & Hi). exists (i + 1)%nat. split; [lia|].
    by replace (i + 1 - 1)%nat with i by lia.
  - intros (i & Hi & ->). exists (i - 1)%nat. split; [|lia].
    by replace (i - 1 + 1)%nat with i by lia.
Qed.

Lemma elem_of_y_linear_entries (e : string * Z) :
  e ∈ linear_entries (y_linear_terms U V) ↔
  ∃ a m, (1 ≤ a ≤ length U)%nat ∧ (1 ≤ m ≤ length V)%nat
         ∧ e = (y_label a m, A * (Z.of_nat m ^ 2 - 1)).
Proof.
  unfold y_linear_terms. rewrite linear_entries_bind, list_elem_of_bind.
  split.
  - intros (a & He & Ha). rewrite linear_entries_add in He.
    apply list_elem_of_fmap in He as (m & -> & Hm).
    apply elem_of_range in Ha, Hm. exists a, m. split_and!; [lia..|done].
  - intros (a & m & Ha & Hm & ->). exists a. split.
    + rewrite linear_entries_add. apply list_elem_of_fmap.
      exists m. split; [done|]. apply elem_of_range. lia.
    + apply elem_of_range. lia.
Qed.

Lemma elem_of_xx_entries (e : (string * string) * Z) :
  e ∈ quadratic_entries (xx_terms U V) ↔
  ∃ i j, (1 ≤ i)%nat ∧ (i < j)%nat ∧ (j ≤ length V)%nat
         ∧ e = ((x_label i, x_label j),
                2 * A * dot (I U V !!! (i - 1)%nat) (I U V !!! (j - 1)%nat)).
Proof.
  unfold xx_terms. rewrite quadratic_entries_bind, list_elem_of_bind. split.
  - intros (i & He & Hi). rewrite quadratic_entries_bind in He.
    apply list_elem_of_bind in He as (j & He & Hj).
    apply list_elem_of_singleton in He as ->.
    apply elem_of_range in Hi, Hj. exists i, j. split_and!; [lia..|done].
  - intros (i & j & Hi & Hij & Hj & ->). exists i. split.
    + rewrite quadratic_entries_bind. apply list_elem_of_bind.
      exists j. split; [by apply list_elem_of_singleton|].
      apply elem_of_range. lia.
    + apply elem_of_range. lia.
Qed.

Lemma elem_of_yy_entries (e : (string * string) * Z) :
  e ∈ quadratic_entries (yy_terms U V) ↔
  ∃ m n a, (1 ≤ m)%nat ∧ (m < n)%nat ∧ (n ≤ length V)%nat
           ∧ (1 ≤ a ≤ length U)%nat
           ∧ e = ((y_label a m, y_label a n),
                  2 * A * (1 + Z.of_nat m * Z.of_nat n)).
Proof.
  unfold yy_terms. rewrite quadratic_entries_bind, list_elem_of_bind. split.
  - intros (m & He & Hm). rewrite quadratic_entries_bind in He.
    apply list_elem_of_bind in He as (n & He & Hn).
    rewrite quadratic_entries_bind in He.
    apply list_elem_of_bind in He as (a & He & Ha).
    apply list_elem_of_singleton in He as ->.
    apply elem_of_range in Hm, Hn, Ha.
    exists m, n, a. split_and!; [lia..|done].
  - intros (m & n & a & Hm & Hmn & Hn & Ha & ->). exists m. split.
    + rewrite quadratic_entries_bind. apply list_elem_of_bind.
      exists n. split; [|apply elem_of_range; lia].
      rewrite quadratic_entries_bind. apply list_elem_of_bind.
      exists a. split; [by apply list_elem_of_singleton|].
      apply elem_of_range. lia.
    + apply elem_of_range. lia.
Qed.

Lemma elem_of_xy_entries (e : (string * string) * Z) :
  e ∈ quadratic_entries (xy_terms U V) ↔
  ∃ i m a, (1 ≤ i ≤ length V)%nat ∧ (1 ≤ m ≤ length V)%nat
           ∧ (1 ≤ a ≤ length U)%nat
           ∧ e = ((x_label i, y_label a m),
                  -2 * A * Z.of_nat m * I_at U V (i - 1) (a - 1)).
Proof.
  unfold xy_terms. rewrite quadratic_entries_bind, list_elem_of_bind. split.
  - intros (i & He & Hi). rewrite quadratic_entries_bind in He.
    apply list_elem_of_bind in He as (m & He & Hm).
    rewrite quadratic_entries_bind in He.
    apply list_elem_of_bind in He as (a & He & Ha).
    apply list_elem_of_singleton in He as ->.
    apply elem_of_range in Hi, Hm, Ha.
    exists i, m, a. split_and!; [lia..|done].
  - intros (i & m & a & Hi & Hm & Ha & ->). exists i. split.
    + rewrite quadratic_entries_bind. apply list_elem_of_bind.
      exists m. split; [|apply elem_of_range; lia].
      rewrite quadratic_entries_bind. apply list_elem_of_bind.
      exists a. split; [by apply list_elem_of_singleton|].
      apply elem_of_range. lia.
    + apply elem_of_range. lia.
Qed.

End SetCoverKeys.

Lemma elem_of_quadratic_keys (ws : list write) (k : string * string) :
  k ∈ quadratic_keys ws ↔ ∃ c, (k, c) ∈ quadratic_entries ws.
Proof.
  unfold quadratic_keys. rewrite list_elem_of_fmap. split.
  - intros ([k' c] & -> & He). by exists c.
  - intros (c & He). by exists (k, c).
Qed.

Lemma elem_of_linear_keys (ws : list write) (v : string) :
  v ∈ linear_keys ws ↔ ∃ c, (v, c) ∈ linear_entries ws.
Proof.
  unfold linear_keys. rewrite list_elem_of_fmap. split.
  - intros ([v' c] & -> & He). by exists c.
  - intros (c & He). by exists (v, c).
Qed.

Lemma NoDup_quadratic_keys1 {X} (l : list X)
    (key : X → string * string) (b : X → Z) :
  NoDup l → (∀ x x', key x = key x' → x = x') →
  NoDup (quadratic_keys (x ← l; [SetQuadratic (key x) (b x)])).
Proof.
  intros Hl Hinj. rewrite quadratic_keys_bind. apply NoDup_bind; [|by intros; apply NoDup_singleton|done].
  intros x1 x2 k _ _ ->%list_elem_of_singleton Hk%list_elem_of_singleton.
  by apply Hinj.
Qed.

Lemma elem_of_quadratic_keys1 {X} (l : list X)
    (key : X → string * string) (b : X → Z) (k : string * string) :
  k ∈ quadratic_keys (x ← l; [SetQuadratic (key x) (b x)]) →
  ∃ x, x ∈ l ∧ k = key x.
Proof.
  rewrite quadratic_keys_bind.
  intros (x & ->%list_elem_of_singleton & Hx)%list_elem_of_bind. eauto.
Qed.

Lemma NoDup_quadratic_keys2 {X Y} (l1 : list X) (l2 : X → list Y)
    (key : X → Y → string * string) (b : X → Y → Z) :
  NoDup l1 → (∀ x, NoDup (l2 x)) →
  (∀ x y x' y', key x y = key x' y' → x = x' ∧ y = y') →
  NoDup (quadratic_keys (x ← l1; y ← l2 x; [SetQuadratic (key x y) (b x y)])).
Proof.
  intros Hl1 Hl2 Hinj. rewrite quadratic_keys_bind. apply NoDup_bind; [| |done].
  - intros x1 x2 k _ _ (y1 & _ & ->)%elem_of_quadratic_keys1
      (y2 & _ & Hk)%elem_of_quadratic_keys1.
    by apply Hinj in Hk as [? _].
  - intros x _. apply NoDup_quadratic_keys1; [done|].
    intros y y' Hk. by apply Hinj in Hk as [_ ?].
Qed.

Lemma elem_of_quadratic_keys2 {X Y} (l1 : list X) (l2 : X → list Y)
    (key : X → Y → string * string) (b : X → Y → Z) (k : string * string) :
  k ∈ quadratic_keys (x ← l1; y ← l2 x; [SetQuadratic (key x y) (b x y)]) →
  ∃ x y, x ∈ l1 ∧ y ∈ l2 x ∧ k = key x y.
Proof.
  rewrite quadratic_keys_bind.
  intros (x & (y & Hy & ->)%elem_of_quadratic_keys1 & Hx)%list_elem_of_bind.
  eauto.
Qed.

Lemma NoDup_quadratic_keys3 {X Y W} (l1 : list X) (l2 : X → list Y)
    (l3 : X → Y → list W)
    (key : X → Y → W → string * string) (b : X → Y → W → Z) :
  NoDup l1 → (∀ x, NoDup (l2 x)) → (∀ x y, NoDup (l3 x y)) →
  (∀ x y z x' y' z', key x y z = key x' y' z' → x = x' ∧ y = y' ∧ z = z') →
  NoDup (quadratic_keys
    (x ← l1; y ← l2 x; z ← l3 x y; [SetQuadratic (key x y z) (b x y z)])).
Proof.
  intros Hl1 Hl2 Hl3 Hinj. rewrite quadratic_keys_bind.
  apply NoDup_bind; [| |done].
  - intros x1 x2 k _ _ (y1 & z1 & _ & _ & ->)%elem_of_quadratic_keys2
      (y2 & z2 & _ & _ & Hk)%elem_of_quadratic_keys2.
    by apply Hinj in Hk as [? _].
  - intros x _. apply NoDup_quadratic_keys2; [done..|].
    intros y z y' z' Hk. by apply Hinj in Hk as (_ & ? & ?).
Qed.

Lemma linear_entries_nil (ws : list write) :
  Forall (λ w, linear_entry w = None) ws → linear_entries ws = [].
Proof.
  induction 1 as [|w ws Hw _ IH]; [done|].
  unfold linear_entries in *. csimpl. by rewrite Hw.
Qed.

Lemma quadratic_entries_nil (ws : list write) :
  Forall (λ w, quadratic_entry w = None) ws → quadratic_entries ws = [].
Proof.
  induction 1 as [|w ws Hw _ IH]; [done|].
  unfold quadratic_entries in *. csimpl. by rewrite Hw.
Qed.

Ltac forall_writes :=
  repeat (apply Forall_bind, Forall_forall; intros ? ?; simpl);
  first [ by apply Forall_singleton
        | by apply Forall_fmap, Forall_forall ].

Section SetCoverNoDup.
Context {E : Type} `{Countable E}.
Variable U : list E.
Variable V : list (gset E).

Lemma NoDup_linear_keys_setcover : NoDup (linear_keys (setcover_writes U V)).
Proof.
  unfold setcover_writes, quadratic_terms, linear_keys.
  rewrite !linear_entries_app.
  rewrite (linear_entries_nil (xx_terms U V)) by (unfold xx_terms; forall_writes).
  rewrite (linear_entries_nil (yy_terms U V)) by (unfold yy_terms; forall_writes).
  rewrite (linear_entries_nil (xy_terms U V)) by (unfold xy_terms; forall_writes).
  rewrite !app_nil_r, fmap_app. apply NoDup_app. split_and!.
  - unfold x_linear_terms. rewrite linear_entries_add, <- list_fmap_compose.
    apply NoDup_fmap_2_strong; [|apply NoDup_range].
    intros i j _ _ Hij. apply x_label_inj in Hij. lia.
  - intros v (c & (i & _ & [= -> _])%elem_of_x_linear_entries)%elem_of_linear_keys
      (c' & (a & m & _ & _ & Hv)%elem_of_y_linear_entries)%elem_of_linear_keys.
    discriminate Hv.
  - change (NoDup (linear_keys (y_linear_terms U V))).
    unfold y_linear_terms. rewrite linear_keys_bind.
    apply NoDup_bind; [| |apply NoDup_range].
    + intros a1 a2 v _ _. rewrite !linear_keys_add.
      intros (m1 & -> & _)%list_elem_of_fmap (m2 & Hv & _)%list_elem_of_fmap.
      by apply y_label_inj in Hv as [? _].
    + intros a _. rewrite linear_keys_add.
      apply NoDup_fmap_2_strong; [|apply NoDup_range].
      intros m1 m2 _ _ Hv. by apply y_label_inj in Hv as [_ ?].
Qed.

Lemma NoDup_quadratic_keys_setcover :
  NoDup (quadratic_keys (setcover_writes U V)).
Proof.
  unfold setcover_writes, quadratic_terms, quadratic_keys.
  rewrite !quadratic_entries_app.
  rewrite (quadratic_entries_nil (x_linear_terms U V))
    by (unfold x_linear_terms; forall_writes).
  rewrite (quadratic_entries_nil (y_linear_terms U V))
    by (unfold y_linear_terms; forall_writes).
  simpl. rewrite !fmap_app.
  fold (quadratic_keys (xx_terms U V)) (quadratic_keys (yy_terms U V))
       (quadratic_keys (xy_terms U V)).
  apply NoDup_app. split_and!; [| |apply NoDup_app; split_and!].
  - apply NoDup_quadratic_keys2; [apply NoDup_range|intros; apply NoDup_range|].
    intros i j i' j' Hk. split; apply x_label_inj; congruence.
  - intros k (c & (i & j & _ & _ & _ & [= -> _])%elem_of_xx_entries)%elem_of_quadratic_keys.
    rewrite elem_of_app. intros [Hk|Hk].
    + apply elem_of_quadratic_keys in Hk
        as (c' & (m & n & a & _ & _ & _ & _ & Hk)%elem_of_yy_entries).
      discriminate Hk.
    + apply elem_of_quadratic_keys in Hk
        as (c' & (i' & m & a & _ & _ & _ & Hk)%elem_of_xy_entries).
      discriminate Hk.
  - apply NoDup_quadratic_keys3;
      [apply NoDup_range|intros; apply NoDup_range..|].
    intros m n a m' n' a' Hk.
    assert (y_label a m = y_label a' m') as [-> ->]%y_label_inj by congruence.
    assert (y_label a' n = y_label a' n') as [_ ->]%y_label_inj by congruence.
    done.
  - intros k (c & (m & n & a & _ & _ & _ & _ & [= -> _])%elem_of_yy_entries)%elem_of_quadratic_keys
      (c' & (i' & m' & a' & _ & _ & _ & Hk)%elem_of_xy_entries)%elem_of_quadratic_keys.
    discriminate Hk.
  - apply NoDup_quadratic_keys3;
      [apply NoDup_range|intros; apply NoDup_range..|].
    intros i m a i' m' a' Hk.
    assert (x_label i = x_label i') as ->%x_label_inj by congruence.
    assert (y_label a m = y_label a' m') as [-> ->]%y_label_inj by congruence.
    done.
Qed.

(** The forms of the keys, and that no pair is written in both orders. *)
Lemma quadratic_key_forms (k : string * string) :
  k ∈ quadratic_keys (setcover_writes U V) →
  (∃ i j, (i < j)%nat ∧ k = (x_label i, x_label j))
  ∨ (∃ a m n, (m < n)%nat ∧ k = (y_label a m, y_label a n))
  ∨ (∃ i a m, k = (x_label i, y_label a m)).
Proof.
  intros (c & Hc)%elem_of_quadratic_keys.
  unfold setcover_writes, quadratic_terms in Hc.
  rewrite !quadratic_entries_app in Hc.
  rewrite (quadratic_entries_nil (x_linear_terms U V)) in Hc
    by (unfold x_linear_terms; forall_writes).
  rewrite (quadratic_entries_nil (y_linear_terms U V)) in Hc
    by (unfold y_linear_terms; forall_writes).
  simpl in Hc. rewrite !elem_of_app in Hc.
  destruct Hc as [Hc|[Hc|Hc]].
  - apply elem_of_xx_entries in Hc as (i & j & _ & ? & _ & [= -> _]).
    left. eauto.
  - apply elem_of_yy_entries in Hc as (m & n & a & _ & ? & _ & _ & [= -> _]).
    right; left. eauto.
  - apply elem_of_xy_entries in Hc as (i & m & a & _ & _ & _ & [= -> _]).
    right; right. eauto.
Qed.

Lemma one_order_setcover (u v : string) :
  (u, v) ∈ quadratic_keys (setcover_writes U V) →
  (v, u) ∉ quadratic_keys (setcover_writes U V).
Proof.
  intros Huv Hvu. apply quadratic_key_forms in Huv, Hvu.
  destruct Huv as [(i & j & ? & Hk)|[(a & m & n & ? & Hk)|(i & a & m & Hk)]];
    apply pair_equal_spec in Hk as [-> ->];
  destruct Hvu as [(i' & j' & ? & Hk')|[(a' & m' & n' & ? & Hk')
                                       |(i' & a' & m' & Hk')]];
    apply pair_equal_spec in Hk' as [Hu Hv].
  all: repeat match goal with
    | H : x_label _ = x_label _ |- _ => apply x_label_inj in H
    | H : y_label _ _ = y_label _ _ |- _ => apply y_label_inj in H as [? ?]
    | H : x_label _ = y_label _ _ |- _ => by apply x_label_ne_y_label in H
    | H : y_label _ _ = x_label _ |- _ =>
        symmetry in H; by apply x_label_ne_y_label in H
    end; lia.
Qed.

End SetCoverNoDup.

(** ** The indicator rows *)

Lemma sumZ_lookup_from (l : list Z) (s : nat) :
  sumZ (λ a, default 0 (l !! (a - s)%nat)) (seq s (length l)) = sumZ id l.
Proof.
  revert s. induction l as [|x l IH]; intros s; simpl; [done|].
  rewrite Nat.sub_diag. simpl. f_equal. rewrite <- (IH (S s)).
  apply sumZ_ext. intros a Ha%elem_of_seq.
  replace (a - s)%nat with (S (a - S s)) by lia. done.
Qed.

Lemma sumZ_row (l : list Z) :
  sumZ id l = sumZ (λ a, default 0 (l !! (a - 1)%nat)) (range 1 (length l + 1)).
Proof.
  unfold range. replace (length l + 1 - 1)%nat with (length l) by lia.
  by rewrite sumZ_lookup_from.
Qed.

Lemma dot_lookup_from (l1 l2 : list Z) (s : nat) :
  length l1 = length l2 →
  sumZ (λ a, default 0 (l1 !! (a - s)%nat) * default 0 (l2 !! (a - s)%nat))
       (seq s (length l1))
  = dot l1 l2.
Proof.
  revert l2 s. induction l1 as [|x l1 IH]; intros [|y l2] s Hlen;
    simplify_eq/=; [done|].
  rewrite Nat.sub_diag. simpl. f_equal. rewrite <- (IH l2 (S s)) by done.
  apply sumZ_ext. intros a Ha%elem_of_seq.
  replace (a - s)%nat with (S (a - S s)) by lia. done.
Qed.

Lemma dot_rows (l1 l2 : list Z) :
  length l1 = length l2 →
  dot l1 l2
  = sumZ (λ a, default 0 (l1 !! (a - 1)%nat) * default 0 (l2 !! (a - 1)%nat))
         (range 1 (length l1 + 1)).
Proof.
  intros Hlen. unfold range.
  replace (length l1 + 1 - 1)%nat with (length l1) by lia.
  by rewrite dot_lookup_from.
Qed.

Section Indicator.
Context {E : Type} `{Countable E}.
Variable U : list E.
Variable V : list (gset E).

Lemma length_I_row (i : nat) :
  (i < length V)%nat → length (I U V !!! i) = length U.
Proof.
  intros Hi. unfold I. rewrite list_lookup_total_alt, list_lookup_fmap.
  destruct (lookup_lt_is_Some_2 V i Hi) as [Vi ->]. simpl.
  by rewrite length_fmap.
Qed.

Lemma I_at_binary (i a : nat) : I_at U V i a = 0 ∨ I_at U V i a = 1.
Proof.
  unfold I_at, I. rewrite list_lookup_total_alt, list_lookup_fmap.
  destruct (V !! i) as [Vi|]; simpl; [|by left].
  rewrite list_lookup_fmap. destruct (U !! a) as [e|]; simpl; [|by left].
  case_decide; auto.
Qed.

Lemma I_at_square (i a : nat) : I_at U V i a ^ 2 = I_at U V i a.
Proof. destruct (I_at_binary i a) as [-> | ->]; done. Qed.

End Indicator.

Lemma val_square (s : sample) (v : string) : val s v ^ 2 = val s v.
Proof. unfold val. by destruct (s v). Qed.

(** ** Energy of the set-cover model *)

Section SetCoverEnergy.
Context {E : Type} `{Countable E}.
Variable U : list E.
Variable V : list (gset E).

Lemma no_self_pair_setcover : Forall no_self_pair (setcover_writes U V).
Proof.
  unfold setcover_writes, quadratic_terms. rewrite !Forall_app. split_and!.
  - unfold x_linear_terms. forall_writes.
  - unfold y_linear_terms. forall_writes.
  - unfold xx_terms.
    apply Forall_bind, Forall_forall. intros i Hi%elem_of_range. simpl.
    apply Forall_bind, Forall_forall. intros j Hj%elem_of_range. simpl.
    apply Forall_singleton. simpl. intros Hij%x_label_inj. lia.
  - unfold yy_terms.
    apply Forall_bind, Forall_forall. intros m Hm%elem_of_range. simpl.
    apply Forall_bind, Forall_forall. intros n Hn%elem_of_range. simpl.
    apply Forall_bind, Forall_forall. intros a Ha. simpl.
    apply Forall_singleton. simpl. intros [_ Hmn]%y_label_inj. lia.
  - unfold xy_terms.
    apply Forall_bind, Forall_forall. intros i _. simpl.
    apply Forall_bind, Forall_forall. intros m _. simpl.
    apply Forall_bind, Forall_forall. intros a _. simpl.
    apply Forall_singleton. simpl. apply x_label_ne_y_label.
Qed.

(** The model the builder returns. *)
Lemma build_setcover_bqm_ok :
  build_setcover_bqm U V
  = Ok (mkBQM (list_to_map (linear_entries (setcover_writes U V)))
              (list_to_map (quadratic_entries (setcover_writes U V))),
        x V).
Proof.
  unfold build_setcover_bqm.
  rewrite run_from_empty; [done|..].
  - apply no_self_pair_setcover.
  - apply NoDup_linear_keys_setcover.
  - apply NoDup_quadratic_keys_setcover.
  - apply one_order_setcover.
Qed.

Lemma setcover_writes_energy (s : sample) :
  sumZ (write_energy s) (setcover_writes U V)
  = hamiltonian U V s - A * Z.of_nat (length U).
Proof.
  pose proof (setcover_expansion (length V) (length U) A B
    (λ i, val s (x_label i)) (λ a m, val s (y_label a m))
    (λ i a, I_at U V (i - 1) (a - 1))
    (λ i, val_square s _) (λ a m, val_square s _)
    (λ i a, I_at_square U V _ _)) as Hexp.
  cbv beta in Hexp.
  unfold hamiltonian, one_hot_penalty, cover_penalty.
  etrans; [|exact Hexp]. clear Hexp.
  unfold setcover_writes, quadratic_terms. rewrite !sumZ_app.
  rewrite !Z.add_assoc. f_equal; [f_equal; [f_equal; [f_equal|]|]|].
  - unfold x_linear_terms. rewrite sumZ_fmap.
    apply sumZ_ext. intros i Hi%elem_of_range. simpl.
    rewrite sumZ_row, length_I_row by lia. f_equal. f_equal. f_equal.
    apply sumZ_ext. intros a _. unfold I_at.
    by replace (i + 1 - 1)%nat with i by lia.
  - unfold y_linear_terms. rewrite sumZ_bind.
    apply sumZ_ext. intros a _. rewrite sumZ_fmap. done.
  - unfold xx_terms. rewrite sumZ_bind.
    apply sumZ_ext. intros i Hi%elem_of_range. rewrite sumZ_bind.
    apply sumZ_ext. intros j Hj%elem_of_range. simpl.
    rewrite dot_rows, !length_I_row by (rewrite ?length_I_row; lia).
    unfold I_at. lia.
  - unfold yy_terms. rewrite sumZ_bind.
    apply sumZ_ext. intros m _. rewrite sumZ_bind.
    apply sumZ_ext. intros n _. rewrite sumZ_bind.
    apply sumZ_ext. intros a _. simpl. lia.
  - unfold xy_terms. rewrite sumZ_bind.
    apply sumZ_ext. intros i _. rewrite sumZ_bind.
    apply sumZ_ext. intros m _. rewrite sumZ_bind.
    apply sumZ_ext. intros a _. simpl. lia.
Qed.

End SetCoverEnergy.

(** ** The finished set-cover model *)

Section SetCoverModel.
Context {E : Type} `{Countable E}.
Variable U : list E.
Variable V : list (gset E).

Lemma energy_setcover_model (s : sample) :
  energy (mkBQM (list_to_map (linear_entries (setcover_writes U V)))
                (list_to_map (quadratic_entries (setcover_writes U V)))) s
  = hamiltonian U V s - A * Z.of_nat (length U).
Proof.
  rewrite energy_of_entries.
  - apply setcover_writes_energy.
  - apply NoDup_linear_keys_setcover.
  - apply NoDup_quadratic_keys_setcover.
Qed.

(** C2. For every universe [U], every family [V] and every binary
    assignment of the [x_i] and [y_(a,m)], the linear and quadratic
    coefficients of [build_setcover_bqm(U, V)] (with [A = 2], [B = 1])
    evaluate to the Hamiltonian
    [A sum_a (1 - sum_m y_(a,m))^2
     + A sum_a (sum_m m y_(a,m) - sum_i I_(i,a) x_i)^2 + B sum_i x_i]
    minus the dropped constant [A * |U|], exactly, over the integers. *)
Theorem build_setcover_bqm_energy (s : sample) :
  ∃ bqm xs,
    build_setcover_bqm U V = Ok (bqm, xs)
    ∧ A = 2 ∧ B = 1
    ∧ energy bqm s
      = A * sumZ (one_hot_penalty V s) (range 1 (length U + 1))
        + A * sumZ (cover_penalty U V s) (range 1 (length U + 1))
        + B * sumZ (λ i, val s (x_label i)) (range 1 (length V + 1))
        - A * Z.of_nat (length U).
Proof.
  eexists _, _. split; [apply build_setcover_bqm_ok|].
  split_and!; [done..|]. apply energy_setcover_model.
Qed.

Lemma lookup_linear_setcover (v : string) (c : Z) :
  list_to_map (M := gmap string Z) (linear_entries (setcover_writes U V)) !! v
    = Some c
  ↔ (v, c) ∈ linear_entries (setcover_writes U V).
Proof.
  symmetry. apply elem_of_list_to_map, NoDup_linear_keys_setcover.
Qed.

Lemma lookup_quadratic_setcover (k : string * string) (c : Z) :
  list_to_map (M := gmap (string * string) Z)
    (quadratic_entries (setcover_writes U V)) !! k = Some c
  ↔ (k, c) ∈ quadratic_entries (setcover_writes U V).
Proof.
  symmetry. apply elem_of_list_to_map, NoDup_quadratic_keys_setcover.
Qed.

Lemma linear_entries_setcover :
  linear_entries (setcover_writes U V)
  = linear_entries (x_linear_terms U V) ++ linear_entries (y_linear_terms U V).
Proof.
  unfold setcover_writes, quadratic_terms. rewrite !linear_entries_app.
  rewrite (linear_entries_nil (xx_terms U V)) by (unfold xx_terms; forall_writes).
  rewrite (linear_entries_nil (yy_terms U V)) by (unfold yy_terms; forall_writes).
  rewrite (linear_entries_nil (xy_terms U V)) by (unfold xy_terms; forall_writes).
  by rewrite !app_nil_r.
Qed.

Lemma quadratic_entries_setcover :
  quadratic_entries (setcover_writes U V)
  = quadratic_entries (xx_terms U V) ++ quadratic_entries (yy_terms U V)
    ++ quadratic_entries (xy_terms U V).
Proof.
  unfold setcover_writes, quadratic_terms. rewrite !quadratic_entries_app.
  rewrite (quadratic_entries_nil (x_linear_terms U V))
    by (unfold x_linear_terms; forall_writes).
  rewrite (quadratic_entries_nil (y_linear_terms U V))
    by (unfold y_linear_terms; forall_writes).
  done.
Qed.

(** What the finished model stores. *)
Lemma setcover_linear_x (i : nat) :
  (1 ≤ i ≤ length V)%nat →
  list_to_map (M := gmap string Z) (linear_entries (setcover_writes U V))
    !! x_label i
  = Some (A * sumZ id (I U V !!! (i - 1)%nat) + B).
Proof.
  intros Hi. apply lookup_linear_setcover.
  rewrite linear_entries_setcover, elem_of_app. left.
  apply elem_of_x_linear_entries. eauto.
Qed.

Lemma setcover_linear_y (a m : nat) :
  (1 ≤ a ≤ length U)%nat → (1 ≤ m ≤ length V)%nat →
  list_to_map (M := gmap string Z) (linear_entries (setcover_writes U V))
    !! y_label a m
  = Some (A * (Z.of_nat m ^ 2 - 1)).
Proof.
  intros Ha Hm. apply lookup_linear_setcover.
  rewrite linear_entries_setcover, elem_of_app. right.
  apply elem_of_y_linear_entries. exists a, m. done.
Qed.

Lemma setcover_quadratic_key (k : string * string) (c : Z) :
  list_to_map (M := gmap (string * string) Z)
    (quadratic_entries (setcover_writes U V)) !! k = Some c
  ↔ (∃ i j, (1 ≤ i)%nat ∧ (i < j)%nat ∧ (j ≤ length V)%nat
            ∧ k = (x_label i, x_label j)
            ∧ c = 2 * A * dot (I U V !!! (i - 1)%nat) (I U V !!! (j - 1)%nat))
    ∨ (∃ m n a, (1 ≤ m)%nat ∧ (m < n)%nat ∧ (n ≤ length V)%nat
                ∧ (1 ≤ a ≤ length U)%nat
                ∧ k = (y_label a m, y_label a n)
                ∧ c = 2 * A * (1 + Z.of_nat m * Z.of_nat n))
    ∨ (∃ i m a, (1 ≤ i ≤ length V)%nat ∧ (1 ≤ m ≤ length V)%nat
                ∧ (1 ≤ a ≤ length U)%nat
                ∧ k = (x_label i, y_label a m)
                ∧ c = -2 * A * Z.of_nat m * I_at U V (i - 1) (a - 1)).
Proof.
  rewrite lookup_quadratic_setcover, quadratic_entries_setcover, !elem_of_app.
  rewrite elem_of_xx_entries, elem_of_yy_entries, elem_of_xy_entries.
  split.
  - intros [(i & j & ? & ? & ? & [= -> ->])
           |[(m & n & a & ? & ? & ? & ? & [= -> ->])
            |(i & m & a & ? & ? & ? & [= -> ->])]].
    + left. exists i, j. done.
    + right; left. exists m, n, a. done.
    + right; right. exists i, m, a. done.
  - intros [(i & j & ? & ? & ? & -> & ->)
           |[(m & n & a & ? & ? & ? & ? & -> & ->)
            |(i & m & a & ? & ? & ? & -> & ->)]].
    + left. exists i, j. done.
    + right; left. exists m, n, a. done.
    + right; right. exists i, m, a. done.
Qed.

End SetCoverModel.

(** ** The coverage scenario *)

(** The model the cell builds for [U = {a, b}], [V = [{a}, {a, b}]],
    evaluated. *)
Example build_setcover_bqm_ab :
  match build_setcover_bqm U_ab V_ab with
  | Ok (bqm, xs) =>
      xs = ["x_1"; "x_2"]
      ∧ map_to_list (linear bqm)
        ≡ₚ [("x_1", 3); ("x_2", 5); ("y_(1, 1)", 0); ("y_(1, 2)", 6);
            ("y_(2, 1)", 0); ("y_(2, 2)", 6)]
      ∧ quadratic bqm !! ("x_1", "x_2") = Some 4
      ∧ quadratic bqm !! ("x_2", "y_(2, 2)") = Some (-8)
      ∧ quadratic bqm !! ("y_(1, 1)", "y_(1, 2)") = Some 12
      ∧ energy bqm (λ v, bool_decide (v ∈ ["x_2"; "y_(1, 1)"; "y_(2, 1)"]))
        = -3
  | Raise _ => False
  end.
Proof.
  vm_compute. split_and!; try reflexivity.
  apply (bool_decide_unpack _). vm_compute. exact Logic.I.
Qed.

Lemma hamiltonian_ab (s : sample) :
  hamiltonian U_ab V_ab s
  = A * ((1 - (val s "y_(1, 1)" + val s "y_(1, 2)")) ^ 2
         + (1 - (val s "y_(2, 1)" + val s "y_(2, 2)")) ^ 2)
    + A * ((val s "y_(1, 1)" + 2 * val s "y_(1, 2)"
            - (val s "x_1" + val s "x_2")) ^ 2
           + (val s "y_(2, 1)" + 2 * val s "y_(2, 2)" - val s "x_2") ^ 2)
    + B * (val s "x_1" + val s "x_2").
Proof.
  unfold hamiltonian, one_hot_penalty, cover_penalty.
  change (length V_ab) with 2%nat. change (length U_ab) with 2%nat.
  change (range 1 (2 + 1)) with [1%nat; 2%nat].
  cbn [sumZ].
  change (y_label 1 1) with "y_(1, 1)".
  change (y_label 1 2) with "y_(1, 2)".
  change (y_label 2 1) with "y_(2, 1)".
  change (y_label 2 2) with "y_(2, 2)".
  change (x_label 1) with "x_1".
  change (x_label 2) with "x_2".
  change (I_at U_ab V_ab (1 - 1) (1 - 1)) with 1.
  change (I_at U_ab V_ab (2 - 1) (1 - 1)) with 1.
  change (I_at U_ab V_ab (1 - 1) (2 - 1)) with 0.
  change (I_at U_ab V_ab (2 - 1) (2 - 1)) with 1.
  change (Z.of_nat 1) with 1. change (Z.of_nat 2) with 2.
  ring.
Qed.

Lemma energy_ab (s : sample) :
  energy (mkBQM (list_to_map (linear_entries (setcover_writes U_ab V_ab)))
                (list_to_map (quadratic_entries (setcover_writes U_ab V_ab)))) s
  = 2 * ((1 - (val s "y_(1, 1)" + val s "y_(1, 2)")) ^ 2
         + (1 - (val s "y_(2, 1)" + val s "y_(2, 2)")) ^ 2)
    + 2 * ((val s "y_(1, 1)" + 2 * val s "y_(1, 2)"
            - (val s "x_1" + val s "x_2")) ^ 2
           + (val s "y_(2, 1)" + 2 * val s "y_(2, 2)" - val s "x_2") ^ 2)
    + (val s "x_1" + val s "x_2") - 4.
Proof.
  rewrite energy_setcover_model, hamiltonian_ab.
  change A with 2. change B with 1. change (Z.of_nat (length U_ab)) with 2.
  ring.
Qed.

Ltac all_samples s :=
  unfold val;
  destruct (s "x_1"), (s "x_2"), (s "y_(1, 1)"), (s "y_(1, 2)"),
           (s "y_(2, 1)"), (s "y_(2, 2)");
  vm_compute; try done; intuition congruence.

(** C3. For the universe [{a, b}] and the candidate sets [{a}], [{a, b}],
    the assignment of least energy of the model of [build_setcover_bqm]
    selects exactly the set [{a, b}] ([x = [0, 1]], energy [-3]); every
    assignment that selects only [{a}], both sets, or neither has
    strictly higher energy (at least [-1], [-2] and [0]). *)
Theorem setcover_ab_selects_ab :
  ∃ bqm,
    build_setcover_bqm U_ab V_ab = Ok (bqm, ["x_1"; "x_2"])
    ∧ (∃ s0 : sample,
         s0 "x_1" = false ∧ s0 "x_2" = true ∧ energy bqm s0 = -3)
    ∧ (∀ s : sample, -3 ≤ energy bqm s)
    ∧ (∀ s : sample, energy bqm s = -3 → s "x_1" = false ∧ s "x_2" = true)
    ∧ (∀ s : sample, s "x_1" = true → s "x_2" = false → -1 ≤ energy bqm s)
    ∧ (∀ s : sample, s "x_1" = true → s "x_2" = true → -2 ≤ energy bqm s)
    ∧ (∀ s : sample, s "x_1" = false → s "x_2" = false → 0 ≤ energy bqm s).
Proof.
  eexists. split; [apply (build_setcover_bqm_ok U_ab V_ab)|].
  split_and!.
  - exists (λ v, bool_decide (v ∈ ["x_2"; "y_(1, 1)"; "y_(2, 1)"])).
    split_and!; [done..|]. rewrite energy_ab. done.
  - intros s. rewrite energy_ab. all_samples s.
  - intros s. rewrite energy_ab. all_samples s.
  - intros s Hx1 Hx2. rewrite energy_ab. unfold val. rewrite Hx1, Hx2.
    destruct (s "y_(1, 1)"), (s "y_(1, 2)"), (s "y_(2, 1)"), (s "y_(2, 2)");
      vm_compute; done.
  - intros s Hx1 Hx2. rewrite energy_ab. unfold val. rewrite Hx1, Hx2.
    destruct (s "y_(1, 1)"), (s "y_(1, 2)"), (s "y_(2, 1)"), (s "y_(2, 2)");
      vm_compute; done.
  - intros s Hx1 Hx2. rewrite energy_ab. unfold val. rewrite Hx1, Hx2.
    destruct (s "y_(1, 1)"), (s "y_(1, 2)"), (s "y_(2, 1)"), (s "y_(2, 2)");
      vm_compute; done.
Qed.

(** ** Writes replace, they do not accumulate *)

Lemma set_quadratic_replaces (key : string * string) (c : Z) (bqm bqm' : BQM) :
  set_quadratic key c bqm = Ok bqm' → quadratic_getitem key bqm' = Some c.
Proof.
  unfold set_quadratic, reject_self_pair. case_decide as Hself; [done|].
  intros [= <-]. destruct key as [u v]. simpl in Hself.
  unfold quadratic_getitem, quadratic_setitem, stored_key. simpl.
  destruct (decide (is_Some (quadratic bqm !! (v, u)))) as [Hrev|Hrev].
  - rewrite lookup_insert_eq, decide_True by eauto. apply lookup_insert_eq.
  - rewrite (lookup_insert_ne (quadratic bqm) (u, v) (v, u))
      by (intros [= ?]; congruence).
    rewrite decide_False by done. apply lookup_insert_eq.
Qed.

Lemma add_variable_accumulates (v : string) (c0 c : Z) (bqm : BQM) :
  linear bqm !! v = Some c0 →
  linear (add_variable v c bqm) !! v = Some (c0 + c).
Proof. intros Hv. simpl. rewrite Hv. simpl. apply lookup_insert_eq. Qed.

Lemma interaction_swap (u v : string) :
  interaction (u, v) = interaction (v, u).
Proof. unfold interaction. simpl. apply (comm_L (∪)). Qed.

(** Exchanging two adjacent writes that do not assign the same
    interaction. *)
Lemma exec_swap (w1 w2 : write) (bqm : BQM) :
  (∀ k1 c1 k2 c2, w1 = SetQuadratic k1 c1 → w2 = SetQuadratic k2 c2 →
     interaction k1 ≠ interaction k2) →
  (b ←r exec w1 bqm; exec w2 b) = (b ←r exec w2 bqm; exec w1 b).
Proof.
  intros Hne. destruct bqm as [lin quad].
  destruct w1 as [v1 b1|[u1 v1] c1], w2 as [v2 b2|[u2 v2] c2]; simpl.
  - unfold add_variable. simpl. f_equal. f_equal.
    destruct (decide (v1 = v2)) as [->|Hv].
    + rewrite !lookup_insert_eq, !insert_insert_eq. simpl. f_equal. lia.
    + rewrite !lookup_insert_ne by done. by apply insert_insert_ne.
  - unfold set_quadratic, reject_self_pair. by case_decide.
  - unfold set_quadratic, reject_self_pair. by case_decide.
  - specialize (Hne _ _ _ _ eq_refl eq_refl).
    assert (Hk : (u1, v1) ≠ (u2, v2)) by (intros [= -> ->]; done).
    assert (Hr : (u1, v1) ≠ (v2, u2)).
    { intros [= -> ->]. apply Hne. apply interaction_swap. }
    unfold set_quadratic, reject_self_pair. simpl.
    repeat case_decide; simpl; try done.
    unfold quadratic_setitem, stored_key. simpl.
    destruct (decide (is_Some (quad !! (v1, u1)))) as [H1|H1],
             (decide (is_Some (quad !! (v2, u2)))) as [H2|H2].
    all: rewrite !lookup_insert_ne by congruence.
    all: rewrite ?(decide_True (P := is_Some (quad !! (v1, u1)))) by done.
    all: rewrite ?(decide_True (P := is_Some (quad !! (v2, u2)))) by done.
    all: rewrite ?(decide_False (P := is_Some (quad !! (v1, u1)))) by done.
    all: rewrite ?(decide_False (P := is_Some (quad !! (v2, u2)))) by done.
    all: f_equal; f_equal; apply insert_insert_ne; congruence.
Qed.

Lemma quadratic_keys_cons (w : write) (ws : list write) :
  quadratic_keys (w :: ws)
  = match w with
    | AddVariable _ _ => quadratic_keys ws
    | SetQuadratic k _ => k :: quadratic_keys ws
    end.
Proof. by destruct w. Qed.

Lemma quadratic_keys_Permutation (ws ws' : list write) :
  ws ≡ₚ ws' → quadratic_keys ws ≡ₚ quadratic_keys ws'.
Proof.
  induction 1 as [|w ws ws' _ IH|w1 w2 ws|ws1 ws2 ws3 _ IH1 _ IH2].
  - done.
  - rewrite !quadratic_keys_cons. destruct w; by rewrite IH.
  - rewrite !quadratic_keys_cons. destruct w1, w2; try done. apply perm_swap.
  - by etrans.
Qed.

Lemma interactions_cons (w : write) (ws : list write) :
  interactions (w :: ws)
  = match w with
    | AddVariable _ _ => interactions ws
    | SetQuadratic k _ => interaction k :: interactions ws
    end.
Proof. by destruct w. Qed.

Lemma interactions_Permutation (ws ws' : list write) :
  ws ≡ₚ ws' → interactions ws ≡ₚ interactions ws'.
Proof.
  intros Hp. unfold interactions. by rewrite (quadratic_keys_Permutation _ _ Hp).
Qed.

(** The order of the writes does not matter as long as no interaction is
    assigned twice. *)
Lemma run_Permutation (ws ws' : list write) :
  ws ≡ₚ ws' → NoDup (interactions ws) →
  ∀ bqm, run ws bqm = run ws' bqm.
Proof.
  induction 1 as [|w ws ws' _ IH|w1 w2 ws|ws1 ws2 ws3 H12 IH1 _ IH2];
    intros Hnd bqm.
  - done.
  - simpl. destruct (exec w bqm) as [bqm'|e]; simpl; [|done].
    apply IH. rewrite interactions_cons in Hnd.
    destruct w; [done|]. by apply NoDup_cons in Hnd as [_ ?].
  - simpl.
    change (rbind (exec w2 bqm) (λ b, rbind (exec w1 b) (run ws))
            = rbind (exec w1 bqm) (λ b, rbind (exec w2 b) (run ws))).
    assert (Hassoc : ∀ (r : result BQM) (f g : BQM → result BQM),
               rbind r (λ b, rbind (f b) g) = rbind (rbind r f) g).
    { by intros [|]. }
    rewrite !Hassoc. f_equal. apply exec_swap.
    intros k1 c1 k2 c2 -> -> Heq. rewrite !interactions_cons in Hnd.
    apply NoDup_cons in Hnd as [Hk _]. apply Hk. rewrite Heq. by left.
  - rewrite IH1 by done. apply IH2.
    by rewrite <- (interactions_Permutation _ _ H12).
Qed.

Lemma interaction_eq (u v u' v' : string) :
  interaction (u, v) = interaction (u', v') →
  (u = u' ∧ v = v') ∨ (u = v' ∧ v = u').
Proof.
  unfold interaction. simpl. intros Heq.
  assert (Hin : ∀ a b x : string,
            x ∈ ({[a; b]} : gset string) ↔ x = a ∨ x = b).
  { intros a b x. by rewrite elem_of_union, !elem_of_singleton. }
  assert (Hu : u = u' ∨ u = v') by (apply Hin; rewrite <- Heq; apply Hin; auto).
  assert (Hv : v = u' ∨ v = v') by (apply Hin; rewrite <- Heq; apply Hin; auto).
  assert (Hu' : u' = u ∨ u' = v) by (apply Hin; rewrite Heq; apply Hin; auto).
  assert (Hv' : v' = u ∨ v' = v) by (apply Hin; rewrite Heq; apply Hin; auto).
  destruct Hu, Hv, Hu', Hv'; subst; auto.
Qed.

(** The set-cover builder assigns no interaction twice. *)
Lemma NoDup_interactions_setcover {E : Type} `{Countable E}
    (U : list E) (V : list (gset E)) :
  NoDup (interactions (setcover_writes U V)).
Proof.
  unfold interactions.
  apply NoDup_fmap_2_strong; [|apply NoDup_quadratic_keys_setcover].
  intros [u v] [u' v'] Hin Hin' [[-> ->]|[-> ->]]%interaction_eq; [done|].
  by apply one_order_setcover in Hin.
Qed.

(** ** Labels of the combined model *)

Section CombinedLabels.
Import Combined.

Lemma w_label_inj (i j : nat) : w_label i = w_label j → i = j.
Proof. unfold w_label. simpl. intros [= Heq]. by apply str_inj. Qed.

Lemma z_label_inj (k1 s1 k2 s2 : nat) :
  z_label k1 s1 = z_label k2 s2 → k1 = k2 ∧ s1 = s2.
Proof.
  unfold z_label. simpl. intros [= Heq].
  apply app_char_inj in Heq as [Hk Hs];
    [|apply str_char_free, not_digit_comma..].
  split; by apply str_inj.
Qed.

Lemma z_label_ne_w_label (k s j : nat) : z_label k s ≠ w_label j.
Proof. unfold z_label, w_label. simpl. intros [=]. Qed.
Lemma z_label_ne_x_label (k s i : nat) : z_label k s ≠ x_label i.
Proof. unfold z_label, x_label. simpl. intros [=]. Qed.
Lemma z_label_ne_y_label (k s a m : nat) : z_label k s ≠ y_label a m.
Proof. unfold z_label, y_label. simpl. intros [=]. Qed.
Lemma w_label_ne_x_label (j i : nat) : w_label j ≠ x_label i.
Proof. unfold w_label, x_label. simpl. intros [=]. Qed.
Lemma w_label_ne_y_label (j a m : nat) : w_label j ≠ y_label a m.
Proof. unfold w_label, y_label. simpl. intros [=]. Qed.

End CombinedLabels.

(** Deciding equations between labels. *)
Ltac label_eq :=
  repeat match goal with
  | H : x_label _ = x_label _ |- _ => apply x_label_inj in H
  | H : y_label _ _ = y_label _ _ |- _ => apply y_label_inj in H as [? ?]
  | H : Combined.z_label _ _ = Combined.z_label _ _ |- _ =>
      apply z_label_inj in H as [? ?]
  | H : Combined.w_label _ = Combined.w_label _ |- _ => apply w_label_inj in H
  | H : x_label _ = y_label _ _ |- _ => by apply x_label_ne_y_label in H
  | H : y_label _ _ = x_label _ |- _ =>
      symmetry in H; by apply x_label_ne_y_label in H
  | H : Combined.z_label _ _ = Combined.w_label _ |- _ =>
      by apply z_label_ne_w_label in H
  | H : Combined.w_label _ = Combined.z_label _ _ |- _ =>
      symmetry in H; by apply z_label_ne_w_label in H
  | H : Combined.z_label _ _ = x_label _ |- _ =>
      by apply z_label_ne_x_label in H
  | H : x_label _ = Combined.z_label _ _ |- _ =>
      symmetry in H; by apply z_label_ne_x_label in H
  | H : Combined.z_label _ _ = y_label _ _ |- _ =>
      by apply z_label_ne_y_label in H
  | H : y_label _ _ = Combined.z_label _ _ |- _ =>
      symmetry in H; by apply z_label_ne_y_label in H
  | H : Combined.w_label _ = x_label _ |- _ =>
      by apply w_label_ne_x_label in H
  | H : x_label _ = Combined.w_label _ |- _ =>
      symmetry in H; by apply w_label_ne_x_label in H
  | H : Combined.w_label _ = y_label _ _ |- _ =>
      by apply w_label_ne_y_label in H
  | H : y_label _ _ = Combined.w_label _ |- _ =>
      symmetry in H; by apply w_label_ne_y_label in H
  end.

(** ** Running the writes of the discrete model *)

Section CombinedRun.
Import Combined.

Lemma dfold_app (ws1 ws2 : list dwrite) (d : DQM) :
  dfold (ws1 ++ ws2) d = dfold ws2 (dfold ws1 d).
Proof. apply foldl_app. Qed.

(** A write that passes the checks is carried out. *)
Lemma dexec_accepted (wr : dwrite) (d : DQM) :
  daccepts (num_cases d) wr → dexec wr d = Ok (dapply wr d).
Proof.
  destruct wr as [n v|v b|u v b]; simpl.
  - intros [Hv Hn]. unfold dqm_add_variable.
    rewrite decide_False by (rewrite Hv; by intros []).
    by rewrite decide_False.
  - intros Hv. unfold dqm_set_linear. rewrite Hv. by rewrite decide_True.
  - intros (Huv & nu & nv & Hu & Hv & Hc). unfold dqm_set_quadratic.
    rewrite Hu, Hv. unfold reject_self_pair.
    rewrite decide_False by done. simpl. by rewrite decide_True.
Qed.

Lemma drun_dfold (ws : list dwrite) (d : DQM) :
  daccepted d ws → drun ws d = Ok (dfold ws d).
Proof.
  revert d. induction ws as [|wr ws IH]; intros d; [done|].
  intros [Hw Hws]. simpl. rewrite dexec_accepted by done. simpl. by apply IH.
Qed.

(** The checks look at the declared variables only. *)
Lemma daccepted_cases (ws : list dwrite) (d d' : DQM) :
  num_cases d = num_cases d' → daccepted d ws → daccepted d' ws.
Proof.
  revert d d'. induction ws as [|wr ws IH]; intros d d' Heq; [done|].
  intros [Hw Hws]. split; [by rewrite <- Heq|].
  eapply IH; [|done]. destruct wr; simpl; by rewrite ?Heq.
Qed.

Lemma daccepted_app (ws1 ws2 : list dwrite) (d : DQM) :
  daccepted d ws1 → daccepted (dfold ws1 d) ws2 → daccepted d (ws1 ++ ws2).
Proof.
  revert d. induction ws1 as [|wr ws1 IH]; intros d; [done|].
  intros [Hw Hws] H2. split; [done|]. by apply IH.
Qed.

Lemma daccepted_app_l (ws1 ws2 : list dwrite) (d : DQM) :
  daccepted d (ws1 ++ ws2) → daccepted d ws1.
Proof.
  revert d. induction ws1 as [|wr ws1 IH]; intros d; [done|].
  intros [Hw Hws]. split; [done|]. by apply IH.
Qed.

(** Writes that declare nothing leave the declared variables as they
    are. *)
Lemma num_cases_dfold_static (ws : list dwrite) (d : DQM) :
  Forall (λ wr, cases_entry wr = None) ws →
  num_cases (dfold ws d) = num_cases d.
Proof.
  intros Hws. revert d. induction Hws as [|wr ws Hw _ IH]; intros d; [done|].
  simpl. rewrite IH. by destruct wr.
Qed.

Lemma daccepted_static (ws rest : list dwrite) (d : DQM) :
  Forall (λ wr, cases_entry wr = None ∧ daccepts (num_cases d) wr) ws →
  daccepted d rest → daccepted d (ws ++ rest).
Proof.
  revert d. induction ws as [|wr ws IH]; intros d Hws Hrest; [done|].
  apply Forall_cons in Hws as [[Hw1 Hw2] Hws].
  assert (Heq : num_cases (dapply wr d) = num_cases d) by (by destruct wr).
  split; [done|]. apply IH.
  - by rewrite Heq.
  - by apply (daccepted_cases rest d).
Qed.

(** Declarations of fresh, pairwise distinct labels. *)
Lemma daccepted_fresh (ws : list dwrite) (d : DQM) :
  Forall (λ wr, ∃ n v, wr = DAddVariable n v ∧ n ≠ 0%nat
                       ∧ num_cases d !! v = None) ws →
  NoDup (cases_keys ws) → daccepted d ws.
Proof.
  revert d. induction ws as [|wr ws IH]; intros d Hws Hnd; [done|].
  apply Forall_cons in Hws as [(n & v & -> & Hn & Hv) Hws].
  unfold cases_keys in Hnd. simpl in Hnd. apply NoDup_cons in Hnd as [Hnv Hnd].
  split; [done|]. apply IH; [|done].
  apply Forall_forall. intros wr Hwr.
  destruct (proj1 (Forall_forall _ _) Hws wr Hwr) as (n' & v' & -> & Hn' & Hv').
  exists n', v'. split_and!; [done..|]. simpl.
  rewrite lookup_insert_ne; [done|]. intros ->. apply Hnv.
  apply list_elem_of_fmap. exists (v', n'). split; [done|].
  apply list_elem_of_omap. by exists (DAddVariable n' v').
Qed.

(** A loop that declares a binary variable and sets its two biases. *)
Lemma daccepted_pairs {X} (l : list X) (lab : X → string) (b0 b1 : X → Qc)
    (d : DQM) :
  NoDup (lab <$> l) → (∀ x, x ∈ l → num_cases d !! lab x = None) →
  daccepted d
    (x ← l; [DAddVariable 2 (lab x); DSetLinear (lab x) [b0 x; b1 x]]).
Proof.
  revert d. induction l as [|x l IH]; intros d Hnd Hfresh; [done|].
  csimpl in *. apply NoDup_cons in Hnd as [Hx Hnd].
  split_and!.
  - apply Hfresh. left.
  - done.
  - simpl. apply lookup_insert_eq.
  - apply IH; [done|]. intros x' Hx'. simpl.
    rewrite lookup_insert_ne; [apply Hfresh; by right|].
    intros Heq. apply Hx. rewrite Heq. apply list_elem_of_fmap. eauto.
Qed.

Lemma bind_pairs {X Y Z} (l1 : list X) (l2 : list Y) (f : X → Y → list Z) :
  (x ← l1; y ← l2; f x y) = p ← (x ← l1; y ← l2; [(x, y)]); f p.1 p.2.
Proof.
  induction l1 as [|x l1 IH]; csimpl; [done|].
  rewrite bind_app, <- IH. f_equal. clear IH.
  induction l2 as [|y l2 IH2]; csimpl; [done|]. by f_equal.
Qed.

(** The number of cases of [v] after the writes, when all of them that
    declare [v] agree. *)
Lemma num_cases_dfold_keep (ws : list dwrite) (d : DQM) (v : string) (n : nat) :
  (∀ n', DAddVariable n' v ∈ ws → n' = n) →
  num_cases d !! v = Some n → num_cases (dfold ws d) !! v = Some n.
Proof.
  revert d. induction ws as [|w ws IH]; intros d Hall Hd; [done|].
  simpl. apply IH.
  - intros n' Hn'. apply Hall. by right.
  - destruct w as [n' v'|v' b|u' v' b]; simpl; try done.
    destruct (decide (v' = v)) as [->|Hne].
    + rewrite lookup_insert_eq. f_equal. apply Hall. by left.
    + by rewrite lookup_insert_ne.
Qed.

Lemma num_cases_dfold (ws : list dwrite) (d : DQM) (v : string) (n : nat) :
  DAddVariable n v ∈ ws →
  (∀ n', DAddVariable n' v ∈ ws → n' = n) →
  num_cases (dfold ws d) !! v = Some n.
Proof.
  revert d. induction ws as [|w ws IH]; intros d Hin Hall; [by inv Hin|].
  apply elem_of_cons in Hin as [<-|Hin].
  - simpl. apply num_cases_dfold_keep.
    + intros n' Hn'. apply Hall. by right.
    + simpl. apply lookup_insert_eq.
  - simpl. apply IH; [done|]. intros n' Hn'. apply Hall. by right.
Qed.

Lemma dlinear_dfold_keep (ws : list dwrite) (d : DQM) (v : string)
    (b : list Qc) :
  (∀ b', DSetLinear v b' ∈ ws → b' = b) →
  dlinear d !! v = Some b → dlinear (dfold ws d) !! v = Some b.
Proof.
  revert d. induction ws as [|w ws IH]; intros d Hall Hd; [done|].
  simpl. apply IH.
  - intros b' Hb'. apply Hall. by right.
  - destruct w as [n' v'|v' b'|u' v' b']; simpl; try done.
    destruct (decide (v' = v)) as [->|Hne].
    + rewrite lookup_insert_eq. f_equal. apply Hall. by left.
    + by rewrite lookup_insert_ne.
Qed.

Lemma dlinear_dfold (ws : list dwrite) (d : DQM) (v : string) (b : list Qc) :
  DSetLinear v b ∈ ws →
  (∀ b', DSetLinear v b' ∈ ws → b' = b) →
  dlinear (dfold ws d) !! v = Some b.
Proof.
  revert d. induction ws as [|w ws IH]; intros d Hin Hall; [by inv Hin|].
  apply elem_of_cons in Hin as [<-|Hin].
  - simpl. apply dlinear_dfold_keep.
    + intros b' Hb'. apply Hall. by right.
    + simpl. apply lookup_insert_eq.
  - simpl. apply IH; [done|]. intros b' Hb'. apply Hall. by right.
Qed.

Lemma dquadratic_dfold_keep (ws : list dwrite) (d : DQM) (u v : string)
    (b : list ((nat * nat) * Qc)) :
  (∀ b', DSetQuadratic u v b' ∈ ws → b' = b) →
  dquadratic d !! (u, v) = Some (list_to_map b) →
  dquadratic (dfold ws d) !! (u, v) = Some (list_to_map b).
Proof.
  revert d. induction ws as [|w ws IH]; intros d Hall Hd; [done|].
  simpl. apply IH.
  - intros b' Hb'. apply Hall. by right.
  - destruct w as [n' v'|v' b'|u' v' b']; simpl; try done.
    destruct (decide ((u', v') = (u, v))) as [Heq|Hne].
    + assert (u' = u ∧ v' = v) as [-> ->] by (split; congruence).
      rewrite lookup_insert_eq, Hd. simpl.
      rewrite (Hall b') by left. by rewrite (idemp_L (∪)).
    + by rewrite lookup_insert_ne.
Qed.

Lemma dquadratic_dfold (ws : list dwrite) (d : DQM) (u v : string)
    (b : list ((nat * nat) * Qc)) :
  DSetQuadratic u v b ∈ ws →
  (∀ b', DSetQuadratic u v b' ∈ ws → b' = b) →
  dquadratic d !! (u, v) = None →
  dquadratic (dfold ws d) !! (u, v) = Some (list_to_map b).
Proof.
  revert d. induction ws as [|w ws IH]; intros d Hin Hall Hd; [by inv Hin|].
  assert (Htail : ∀ b', DSetQuadratic u v b' ∈ ws → b' = b).
  { intros b' Hb'. apply Hall. by right. }
  destruct w as [n' v'|v' b'|u' v' b'].
  - apply elem_of_cons in Hin as [?|Hin]; [done|]. simpl. by apply IH.
  - apply elem_of_cons in Hin as [?|Hin]; [done|]. simpl. by apply IH.
  - destruct (decide ((u', v') = (u, v))) as [Heq|Hne].
    + assert (u' = u ∧ v' = v) as [-> ->] by (split; congruence).
      rewrite (Hall b') by left. simpl.
      apply dquadratic_dfold_keep; [done|]. simpl.
      rewrite lookup_insert_eq, Hd. simpl. by rewrite (right_id ∅ (∪)).
    + apply elem_of_cons in Hin as [?|Hin]; [congruence|].
      simpl. apply IH; [done..|]. simpl. by rewrite lookup_insert_ne.
Qed.

Lemma dquadratic_dfold_notin (ws : list dwrite) (d : DQM) (u v : string) :
  (∀ b, DSetQuadratic u v b ∉ ws) →
  dquadratic (dfold ws d) !! (u, v) = dquadratic d !! (u, v).
Proof.
  revert d. induction ws as [|w ws IH]; intros d Hall; [done|].
  simpl. rewrite IH.
  - destruct w as [n' v'|v' b'|u' v' b']; simpl; try done.
    rewrite lookup_insert_ne; [done|].
    intros Heq. apply (Hall b').
    assert (u' = u ∧ v' = v) as [-> ->] by (split; congruence). by left.
  - intros b Hb. apply (Hall b). by right.
Qed.

End CombinedRun.

Section CombinedInversion.
Import Combined.

Lemma num_cases_dfold_inv (ws : list dwrite) (d : DQM) (v : string) (n : nat) :
  num_cases (dfold ws d) !! v = Some n →
  DAddVariable n v ∈ ws ∨ num_cases d !! v = Some n.
Proof.
  revert d. induction ws as [|wr ws IH]; intros d Hv; [by right|].
  apply IH in Hv as [Hv|Hv]; [left; by right|].
  destruct wr as [n' v'|v' b|u' v' b]; simpl in Hv; [|by right..].
  destruct (decide (v' = v)) as [->|Hne].
  - rewrite lookup_insert_eq in Hv. injection Hv as ->. left. by left.
  - rewrite lookup_insert_ne in Hv by done. by right.
Qed.

Lemma dlinear_dfold_inv (ws : list dwrite) (d : DQM) (v : string)
    (b : list Qc) :
  dlinear (dfold ws d) !! v = Some b →
  DSetLinear v b ∈ ws ∨ dlinear d !! v = Some b.
Proof.
  revert d. induction ws as [|wr ws IH]; intros d Hv; [by right|].
  apply IH in Hv as [Hv|Hv]; [left; by right|].
  destruct wr as [n' v'|v' b'|u' v' b']; simpl in Hv; [by right| |by right].
  destruct (decide (v' = v)) as [->|Hne].
  - rewrite lookup_insert_eq in Hv. injection Hv as ->. left. by left.
  - rewrite lookup_insert_ne in Hv by done. by right.
Qed.

Lemma dquadratic_dfold_inv (ws : list dwrite) (d : DQM) (u v : string)
    (t : gmap (nat * nat) Qc) (c : nat * nat) :
  dquadratic (dfold ws d) !! (u, v) = Some t → is_Some (t !! c) →
  (∃ b, DSetQuadratic u v b ∈ ws ∧ c ∈ b.*1)
  ∨ (∃ t0, dquadratic d !! (u, v) = Some t0 ∧ is_Some (t0 !! c)).
Proof.
  revert d. induction ws as [|wr ws IH]; intros d Ht Hc; [right; eauto|].
  destruct (IH _ Ht Hc) as [(b & Hb & Hcb)|(t0 & Ht0 & Hc0)].
  { left. exists b. split; [by right|done]. }
  destruct wr as [n' v'|v' b'|u' v' b']; simpl in Ht0; [right; eauto..|].
  destruct (decide ((u', v') = (u, v))) as [Heq|Hne].
  - assert (u' = u ∧ v' = v) as [-> ->] by (split; congruence).
    rewrite lookup_insert_eq in Ht0. injection Ht0 as <-.
    destruct Hc0 as [q Hq]. apply lookup_union_Some_raw in Hq as [Hq|[_ Hq]].
    + left. exists b'. split; [by left|].
      apply elem_of_list_to_map_2 in Hq. apply list_elem_of_fmap.
      by exists (c, q).
    + right. destruct (dquadratic d !! (u, v)) as [t0|]; simpl in Hq.
      * exists t0. split; [done|]. by exists q.
      * by rewrite lookup_empty in Hq.
  - rewrite lookup_insert_ne in Ht0 by done. right. eauto.
Qed.

End CombinedInversion.

(** ** The keys a loop writes *)

Section KeysOfLoops.
Import Combined Energy.

Lemma dlinear_keys_app (ws1 ws2 : list dwrite) :
  dlinear_keys (ws1 ++ ws2) = dlinear_keys ws1 ++ dlinear_keys ws2.
Proof. unfold dlinear_keys, dlinear_entries. by rewrite omap_app, fmap_app. Qed.

Lemma dquadratic_keys_app (ws1 ws2 : list dwrite) :
  dquadratic_keys (ws1 ++ ws2) = dquadratic_keys ws1 ++ dquadratic_keys ws2.
Proof.
  unfold dquadratic_keys, dquadratic_entries. by rewrite omap_app, fmap_app.
Qed.

Lemma dlinear_keys_bind {X} (l : list X) (f : X → list dwrite) :
  dlinear_keys (l ≫= f) = l ≫= (λ x, dlinear_keys (f x)).
Proof.
  induction l as [|x l IH]; csimpl; [done|]. by rewrite dlinear_keys_app, IH.
Qed.

Lemma dquadratic_keys_bind {X} (l : list X) (f : X → list dwrite) :
  dquadratic_keys (l ≫= f) = l ≫= (λ x, dquadratic_keys (f x)).
Proof.
  induction l as [|x l IH]; csimpl; [done|].
  by rewrite dquadratic_keys_app, IH.
Qed.

Lemma cases_keys_app (ws1 ws2 : list dwrite) :
  cases_keys (ws1 ++ ws2) = cases_keys ws1 ++ cases_keys ws2.
Proof. unfold cases_keys, cases_entries. by rewrite omap_app, fmap_app. Qed.

Lemma cases_keys_bind {X} (l : list X) (f : X → list dwrite) :
  cases_keys (l ≫= f) = l ≫= (λ x, cases_keys (f x)).
Proof.
  induction l as [|x l IH]; csimpl; [done|]. by rewrite cases_keys_app, IH.
Qed.

Lemma dquadratic_key_write (ws : list dwrite) (u v : string) :
  (u, v) ∈ dquadratic_keys ws → ∃ b, DSetQuadratic u v b ∈ ws.
Proof.
  intros ([k m] & Hk & Hin)%list_elem_of_fmap. simpl in Hk. subst k.
  apply list_elem_of_omap in Hin as (wr & Hwr & Hentry).
  destruct wr as [| |u' v' b]; simplify_eq/=. eauto.
Qed.

Lemma bind_nil_keys {X K} (l : list X) (f : X → list K) :
  (∀ x, f x = []) → l ≫= f = [].
Proof. intros Hf. induction l as [|x l IH]; csimpl; [done|]. by rewrite Hf, IH. Qed.

Section Loops.
Context {K : Type}.
Variable keys : list dwrite → list K.
Hypothesis keys_bind :
  ∀ X (l : list X) (f : X → list dwrite), keys (l ≫= f) = l ≫= (λ x, keys (f x)).

Lemma elem_of_loop1 {X} (l : list X) (leaf : X → list dwrite)
    (key : X → K) (k : K) :
  (∀ x, keys (leaf x) = [key x]) →
  k ∈ keys (l ≫= leaf) → ∃ x, x ∈ l ∧ k = key x.
Proof.
  intros Hleaf. rewrite keys_bind.
  intros (x & Hk & Hx)%list_elem_of_bind. rewrite Hleaf in Hk.
  apply list_elem_of_singleton in Hk. eauto.
Qed.

Lemma NoDup_loop1 {X} (l : list X) (leaf : X → list dwrite) (key : X → K) :
  (∀ x, keys (leaf x) = [key x]) →
  NoDup l → (∀ x x', key x = key x' → x = x') →
  NoDup (keys (l ≫= leaf)).
Proof.
  intros Hleaf Hl Hinj. rewrite keys_bind. apply NoDup_bind; [| |done].
  - intros x1 x2 k _ _. rewrite !Hleaf.
    intros ->%list_elem_of_singleton Hk%list_elem_of_singleton.
    by apply Hinj.
  - intros x _. rewrite Hleaf. apply NoDup_singleton.
Qed.

Lemma elem_of_loop2 {X Y} (l1 : list X) (l2 : X → list Y)
    (leaf : X → Y → list dwrite) (key : X → Y → K) (k : K) :
  (∀ x y, keys (leaf x y) = [key x y]) →
  k ∈ keys (x ← l1; y ← l2 x; leaf x y) →
  ∃ x y, x ∈ l1 ∧ y ∈ l2 x ∧ k = key x y.
Proof.
  intros Hleaf. rewrite keys_bind.
  intros (x & Hk & Hx)%list_elem_of_bind.
  apply (elem_of_loop1 _ _ (key x)) in Hk as (y & Hy & ->); [|done].
  eauto.
Qed.

Lemma NoDup_loop2 {X Y} (l1 : list X) (l2 : X → list Y)
    (leaf : X → Y → list dwrite) (key : X → Y → K) :
  (∀ x y, keys (leaf x y) = [key x y]) →
  NoDup l1 → (∀ x, NoDup (l2 x)) →
  (∀ x y x' y', key x y = key x' y' → x = x' ∧ y = y') →
  NoDup (keys (x ← l1; y ← l2 x; leaf x y)).
Proof.
  intros Hleaf Hl1 Hl2 Hinj. rewrite keys_bind. apply NoDup_bind; [| |done].
  - intros x1 x2 k _ _ Hk1 Hk2.
    apply (elem_of_loop1 _ _ (key x1)) in Hk1 as (y1 & _ & ->); [|done].
    apply (elem_of_loop1 _ _ (key x2)) in Hk2 as (y2 & _ & Hk); [|done].
    by apply Hinj in Hk as [? _].
  - intros x _. apply (NoDup_loop1 _ _ (key x)); [done..|].
    intros y y' Hk. by apply Hinj in Hk as [_ ?].
Qed.

Lemma elem_of_loop3 {X Y Z} (l1 : list X) (l2 : X → list Y)
    (l3 : X → Y → list Z)
    (leaf : X → Y → Z → list dwrite) (key : X → Y → Z → K) (k : K) :
  (∀ x y z, keys (leaf x y z) = [key x y z]) →
  k ∈ keys (x ← l1; y ← l2 x; z ← l3 x y; leaf x y z) →
  ∃ x y z, x ∈ l1 ∧ y ∈ l2 x ∧ z ∈ l3 x y ∧ k = key x y z.
Proof.
  intros Hleaf. rewrite keys_bind.
  intros (x & Hk & Hx)%list_elem_of_bind.
  apply (elem_of_loop2 _ _ _ (key x)) in Hk as (y & z & Hy & Hz & ->); [|done].
  eauto 10.
Qed.

Lemma NoDup_loop3 {X Y Z} (l1 : list X) (l2 : X → list Y)
    (l3 : X → Y → list Z)
    (leaf : X → Y → Z → list dwrite) (key : X → Y → Z → K) :
  (∀ x y z, keys (leaf x y z) = [key x y z]) →
  NoDup l1 → (∀ x, NoDup (l2 x)) → (∀ x y, NoDup (l3 x y)) →
  (∀ x y z x' y' z', key x y z = key x' y' z' → x = x' ∧ y = y' ∧ z = z') →
  NoDup (keys (x ← l1; y ← l2 x; z ← l3 x y; leaf x y z)).
Proof.
  intros Hleaf Hl1 Hl2 Hl3 Hinj. rewrite keys_bind.
  apply NoDup_bind; [| |done].
  - intros x1 x2 k _ _ Hk1 Hk2.
    apply (elem_of_loop2 _ _ _ (key x1)) in Hk1 as (y1 & z1 & _ & _ & ->);
      [|done].
    apply (elem_of_loop2 _ _ _ (key x2)) in Hk2 as (y2 & z2 & _ & _ & Hk);
      [|done].
    by apply Hinj in Hk as [? _].
  - intros x _. apply (NoDup_loop2 _ _ _ (key x)); [done..|].
    intros y z y' z' Hk. by apply Hinj in Hk as (_ & ? & ?).
Qed.

Lemma elem_of_loop4 {X Y Z T} (l1 : list X) (l2 : X → list Y)
    (l3 : X → Y → list Z) (l4 : X → Y → Z → list T)
    (leaf : X → Y → Z → T → list dwrite) (key : X → Y → Z → T → K) (k : K) :
  (∀ x y z t, keys (leaf x y z t) = [key x y z t]) →
  k ∈ keys (x ← l1; y ← l2 x; z ← l3 x y; t ← l4 x y z; leaf x y z t) →
  ∃ x y z t, x ∈ l1 ∧ y ∈ l2 x ∧ z ∈ l3 x y ∧ t ∈ l4 x y z
             ∧ k = key x y z t.
Proof.
  intros Hleaf. rewrite keys_bind.
  intros (x & Hk & Hx)%list_elem_of_bind.
  apply (elem_of_loop3 _ _ _ _ (key x)) in Hk
    as (y & z & t & Hy & Hz & Ht & ->); [|done].
  eauto 10.
Qed.

Lemma NoDup_loop4 {X Y Z T} (l1 : list X) (l2 : X → list Y)
    (l3 : X → Y → list Z) (l4 : X → Y → Z → list T)
    (leaf : X → Y → Z → T → list dwrite) (key : X → Y → Z → T → K) :
  (∀ x y z t, keys (leaf x y z t) = [key x y z t]) →
  NoDup l1 → (∀ x, NoDup (l2 x)) → (∀ x y, NoDup (l3 x y)) →
  (∀ x y z, NoDup (l4 x y z)) →
  (∀ x y z t x' y' z' t',
     key x y z t = key x' y' z' t' → x = x' ∧ y = y' ∧ z = z' ∧ t = t') →
  NoDup (keys (x ← l1; y ← l2 x; z ← l3 x y; t ← l4 x y z; leaf x y z t)).
Proof.
  intros Hleaf Hl1 Hl2 Hl3 Hl4 Hinj. rewrite keys_bind.
  apply NoDup_bind; [| |done].
  - intros x1 x2 k _ _ Hk1 Hk2.
    apply (elem_of_loop3 _ _ _ _ (key x1)) in Hk1
      as (y1 & z1 & t1 & _ & _ & _ & ->); [|done].
    apply (elem_of_loop3 _ _ _ _ (key x2)) in Hk2
      as (y2 & z2 & t2 & _ & _ & _ & Hk); [|done].
    by apply Hinj in Hk as [? _].
  - intros x _. apply (NoDup_loop3 _ _ _ _ (key x)); [done..|].
    intros y z t y' z' t' Hk. by apply Hinj in Hk as (_ & ? & ? & ?).
Qed.

(** A loop that writes no key of this kind. *)
Lemma keys_loop_nil {X} (l : list X) (f : X → list dwrite) :
  (∀ x, keys (f x) = []) → keys (l ≫= f) = [].
Proof. intros Hf. rewrite keys_bind. by apply bind_nil_keys. Qed.

End Loops.

End KeysOfLoops.

(** ** The writes of the combined cell *)

Ltac in_binds H :=
  repeat (apply list_elem_of_bind in H as (? & H & ?%elem_of_range));
  repeat (apply elem_of_cons in H as [H|H]);
  try (by apply elem_of_nil in H).

Section CombinedWrites.
Import Combined Float64.
Context {E : Type} `{Countable E}.
Variable U : list E.
Variable S : list (gset E).
Variable weights : list (list Z).
Variable values : list Z.
Variable bound0 : list nat.
Variable lagrange : Z.
Variable M : nat.
Variable w : list Z.

Local Abbreviation writes := (combined_writes U S weights values bound0 lagrange M w).
Local Abbreviation base := (knapsack_and_cover_writes U S weights values bound0 lagrange M w).
Local Abbreviation h3 := (h3_terms S values bound0 M).

(** Every form a write of the cell can take. *)
Lemma elem_of_base (wr : dwrite) :
  wr ∈ base →
  (∃ k s, wr = DAddVariable (bound_at bound0 k) (z_label k s)
          ∧ (k < x_size values)%nat ∧ (s < length S)%nat)
  ∨ (∃ k, wr = DAddVariable 2 (w_label k) ∧ (k < M + 1)%nat)
  ∨ (∃ k s, wr = DSetLinear (z_label k s)
                   (z_linear_biases weights values bound0 lagrange k s)
            ∧ (k < x_size values)%nat ∧ (s < length S)%nat)
  ∨ (∃ i j s1 s2,
        wr = DSetQuadratic (z_label i s1) (z_label j s2)
               (zz_biases weights bound0 lagrange i j s1 s2)
        ∧ (i < j)%nat ∧ (j < x_size values)%nat
        ∧ (s1 < length S)%nat ∧ (s2 < length S)%nat)
  ∨ (∃ k, wr = DSetLinear (w_label k)
                 [dbl (mul_int (mul_int lagrange 0) (w_at w k ^ 2));
                  dbl (mul_int (mul_int lagrange 1) (w_at w k ^ 2))]
          ∧ (k < M + 1)%nat)
  ∨ (∃ i j, wr = DSetQuadratic (w_label i) (w_label j)
                   [((1, 1)%nat,
                     dbl (mul_int (mul_int (mul_int lagrange 2) (w_at w i))
                                  (w_at w j)))]
            ∧ (i < j)%nat ∧ (j < M + 1)%nat)
  ∨ (∃ i s j, wr = DSetQuadratic (z_label i s) (w_label j)
                     (zw_biases weights bound0 lagrange w i s j)
              ∧ (i < x_size values)%nat ∧ (s < length S)%nat
              ∧ (j < M + 1)%nat)
  ∨ (∃ i, (wr = DAddVariable 2 (x_label i)
           ∨ wr = DSetLinear (x_label i)
                    [ofZ ((A * sumZ id (I U S !!! (i - 1)%nat) + B) * 0);
                     ofZ ((A * sumZ id (I U S !!! (i - 1)%nat) + B) * 1)])
          ∧ (1 ≤ i ≤ length S)%nat)
  ∨ (∃ a m, (wr = DAddVariable 2 (y_label a m)
             ∨ wr = DSetLinear (y_label a m)
                      [ofZ (A * (Z.of_nat m ^ 2 - 1) * 0);
                       ofZ (A * (Z.of_nat m ^ 2 - 1) * 1)])
            ∧ (1 ≤ a ≤ length U)%nat ∧ (1 ≤ m ≤ length S)%nat)
  ∨ (∃ i j, wr = DSetQuadratic (x_label i) (x_label j)
                   [((1, 1)%nat,
                     ofZ (2 * A * dot (I U S !!! (i - 1)%nat)
                                      (I U S !!! (j - 1)%nat)))]
            ∧ (1 ≤ i)%nat ∧ (i < j)%nat ∧ (j ≤ length S)%nat)
  ∨ (∃ m n a, wr = DSetQuadratic (y_label a m) (y_label a n)
                     [((1, 1)%nat,
                       ofZ (2 * A * (1 + Z.of_nat m * Z.of_nat n)))]
              ∧ (1 ≤ m)%nat ∧ (m < n)%nat ∧ (n ≤ length S)%nat
              ∧ (1 ≤ a ≤ length U)%nat)
  ∨ (∃ i m a, wr = DSetQuadratic (x_label i) (y_label a m)
                     [((1, 1)%nat,
                       ofZ (-2 * A * Z.of_nat m * I_at U S (i - 1) (a - 1)))]
              ∧ (1 ≤ i ≤ length S)%nat ∧ (1 ≤ m ≤ length S)%nat
              ∧ (1 ≤ a ≤ length U)%nat).
Proof.
  unfold knapsack_and_cover_writes. rewrite !elem_of_app.
  intros [Hw|[Hw|[Hw|[Hw|[Hw|[Hw|[Hw|[Hw|[Hw|[Hw|[Hw|Hw]]]]]]]]]]].
  - unfold z_variables in Hw. in_binds Hw. left. eexists _, _. split; [done|lia].
  - unfold w_variables, num_slack_variables in Hw. in_binds Hw.
    do 1 right. left. eexists. split; [done|lia].
  - unfold z_linear_terms in Hw. in_binds Hw.
    do 2 right. left. eexists _, _. split; [done|lia].
  - unfold zz_terms in Hw. in_binds Hw.
    do 3 right. left. eexists _, _, _, _. split; [done|lia].
  - unfold w_linear_terms, num_slack_variables in Hw. in_binds Hw.
    do 4 right. left. eexists. split; [done|lia].
  - unfold ww_terms, num_slack_variables in Hw. in_binds Hw.
    do 5 right. left. eexists _, _. split; [done|lia].
  - unfold zw_terms, num_slack_variables in Hw. in_binds Hw.
    do 6 right. left. eexists _, _, _. split; [done|lia].
  - unfold x_terms in Hw. in_binds Hw.
    + do 7 right. left.
      match goal with Hi : (_ ≤ ?i < _)%nat |- _ => exists (i + 1)%nat end.
      split; [by left|lia].
    + do 7 right. left.
      match goal with Hi : (_ ≤ ?i < _)%nat |- _ => exists (i + 1)%nat end.
      split; [|lia]. right. rewrite Hw. by rewrite Nat.add_sub.
  - unfold y_terms in Hw. in_binds Hw.
    + do 8 right. left. eexists _, _. split; [by left|lia].
    + do 8 right. left. eexists _, _. split; [by right|lia].
  - unfold xx_terms in Hw. in_binds Hw.
    do 9 right. left. eexists _, _. split; [done|lia].
  - unfold yy_terms in Hw. in_binds Hw.
    do 10 right. left. eexists _, _, _. split; [done|lia].
  - unfold xy_terms in Hw. in_binds Hw.
    do 11 right. eexists _, _, _. split; [done|lia].
Qed.

Lemma elem_of_h3 (wr : dwrite) :
  wr ∈ h3 ↔
  ∃ i s, wr = DSetQuadratic (z_label i s) (x_label (s + 1))
                (h3_biases bound0 i)
         ∧ (i < x_size values)%nat ∧ (1 ≤ s < length S)%nat.
Proof.
  split.
  - intros Hw. unfold h3_terms in Hw. in_binds Hw.
    eexists _, _. split; [done|lia].
  - intros (i & s & -> & Hi & Hs). unfold h3_terms.
    apply list_elem_of_bind. exists i. split; [|apply elem_of_range; lia].
    apply list_elem_of_bind. exists s. split; [|apply elem_of_range; lia].
    apply list_elem_of_bind. exists 0%nat.
    split; [by left|apply elem_of_range; unfold num_slack_variables; lia].
Qed.

End CombinedWrites.

Ltac write_inj Heq :=
  lazymatch type of Heq with
  | Combined.DAddVariable ?n ?v = Combined.DAddVariable ?n' ?v' =>
      assert (n = n') by congruence; assert (v = v') by congruence; clear Heq
  | Combined.DSetLinear ?v ?b = Combined.DSetLinear ?v' ?b' =>
      assert (v = v') by congruence; assert (b = b') by congruence; clear Heq
  | Combined.DSetQuadratic ?u ?v ?b = Combined.DSetQuadratic ?u' ?v' ?b' =>
      assert (u = u') by congruence; assert (v = v') by congruence;
      assert (b = b') by congruence; clear Heq
  | _ = _ => exfalso; congruence
  end.

(** Case analysis on a write of the cell: one goal per form whose
    constructor and labels fit. *)
Ltac classify_base Hin :=
  apply elem_of_base in Hin
    as [(? & ? & Hin & ? & ?)|[(? & Hin & ?)|[(? & ? & Hin & ? & ?)
       |[(? & ? & ? & ? & Hin & ? & ? & ? & ?)|[(? & Hin & ?)
       |[(? & ? & Hin & ? & ?)|[(? & ? & ? & Hin & ? & ? & ?)
       |[(? & [Hin|Hin] & ?)|[(? & ? & [Hin|Hin] & ? & ?)
       |[(? & ? & Hin & ? & ? & ?)|[(? & ? & ? & Hin & ? & ? & ? & ?)
       |(? & ? & ? & Hin & ? & ? & ?)]]]]]]]]]]];
  write_inj Hin; label_eq.

Ltac classify_h3 Hin :=
  apply elem_of_h3 in Hin as (? & ? & Hin & ? & ?);
  write_inj Hin; label_eq.

Ltac classify Hin :=
  apply elem_of_app in Hin as [Hin|Hin];
  [classify_base Hin|classify_h3 Hin].

Section CombinedModel.
Import Combined.
Context {E : Type} `{Countable E}.
Variable U : list E.
Variable S : list (gset E).
Variable weights : list (list Z).
Variable values : list Z.
Variable bound0 : list nat.
Variable lagrange : Z.
Variable M : nat.
Variable w : list Z.

Local Abbreviation writes :=
  (combined_writes U S weights values bound0 lagrange M w).
Local Abbreviation base :=
  (knapsack_and_cover_writes U S weights values bound0 lagrange M w).
Local Abbreviation h3 := (h3_terms S values bound0 M).

(** *** No write of the cell is rejected *)

Lemma base_app_writes (wr : dwrite) : wr ∈ base → wr ∈ writes.
Proof. intros Hin. apply elem_of_app. by left. Qed.

Lemma z_variable_in (k s : nat) :
  (k < x_size values)%nat → (s < length S)%nat →
  DAddVariable (bound_at bound0 k) (z_label k s) ∈ z_variables S values bound0.
Proof.
  intros Hk Hs. unfold z_variables.
  apply list_elem_of_bind. exists k. split; [|apply elem_of_range; lia].
  apply list_elem_of_bind. exists s. split; [by left|apply elem_of_range; lia].
Qed.

Lemma w_variable_in_block (j : nat) :
  (j < M + 1)%nat → DAddVariable 2 (w_label j) ∈ w_variables M.
Proof.
  intros Hj. unfold w_variables, num_slack_variables.
  apply list_elem_of_bind. exists j. split; [by left|apply elem_of_range; lia].
Qed.

Lemma x_variable_in_block (i : nat) :
  (1 ≤ i ≤ length S)%nat → DAddVariable 2 (x_label i) ∈ x_terms U S.
Proof.
  intros Hi. unfold x_terms.
  apply list_elem_of_bind. exists (i - 1)%nat.
  split; [|apply elem_of_range; lia].
  replace (i - 1 + 1)%nat with i by lia. by left.
Qed.

Lemma y_variable_in_block (a m : nat) :
  (1 ≤ a ≤ length U)%nat → (1 ≤ m ≤ length S)%nat →
  DAddVariable 2 (y_label a m) ∈ y_terms U S.
Proof.
  intros Ha Hm. unfold y_terms.
  apply list_elem_of_bind. exists a. split; [|apply elem_of_range; lia].
  apply list_elem_of_bind. exists m. split; [|apply elem_of_range; lia].
  by left.
Qed.

(** The declarations of the cell, by block. *)
Local Abbreviation decls :=
  (z_variables S values bound0 ++ w_variables M ++ x_terms U S ++ y_terms U S).

Lemma decls_base (wr : dwrite) : wr ∈ decls → wr ∈ base.
Proof.
  unfold knapsack_and_cover_writes. rewrite !elem_of_app. tauto.
Qed.

Lemma declared_once (n n' : nat) (v : string) :
  DAddVariable n v ∈ base → DAddVariable n' v ∈ base → n' = n.
Proof.
  intros Hin Hin'. classify_base Hin; classify_base Hin'; subst; label_eq;
    by subst.
Qed.

(** The variables declared once a prefix of the declaring blocks has
    run. *)
Lemma declared_in (P : list dwrite) (n : nat) (v : string) :
  (∀ wr, wr ∈ P → wr ∈ base) →
  DAddVariable n v ∈ P → num_cases (dfold P empty_dqm) !! v = Some n.
Proof.
  intros HP Hin. apply num_cases_dfold; [done|].
  intros n' Hin'. eapply declared_once; by apply HP.
Qed.

Lemma undeclared_in (P : list dwrite) (v : string) :
  (∀ n, DAddVariable n v ∉ P) → num_cases (dfold P empty_dqm) !! v = None.
Proof.
  intros HP. apply eq_None_not_Some. intros [n Hn].
  apply num_cases_dfold_inv in Hn as [Hin|Hd]; [by eapply HP|].
  simpl in Hd. by rewrite lookup_empty in Hd.
Qed.

Lemma length_z_linear_biases (k s : nat) :
  length (z_linear_biases weights values bound0 lagrange k s)
  = bound_at bound0 k.
Proof.
  unfold z_linear_biases. rewrite length_fmap. unfold range.
  rewrite length_seq. lia.
Qed.

Lemma zz_biases_range (i j s1 s2 : nat) :
  cases_in_range (bound_at bound0 i) (bound_at bound0 j)
    (zz_biases weights bound0 lagrange i j s1 s2).
Proof.
  apply Forall_forall. intros [c q] Hin. unfold zz_biases in Hin.
  in_binds Hin. simplify_eq/=. lia.
Qed.

Lemma zw_biases_range (i s j : nat) :
  cases_in_range (bound_at bound0 i) 2
    (zw_biases weights bound0 lagrange w i s j).
Proof.
  apply Forall_forall. intros [c q] Hin. unfold zw_biases in Hin.
  in_binds Hin. simplify_eq/=. lia.
Qed.

Lemma h3_biases_range (i : nat) :
  cases_in_range (bound_at bound0 i) 2 (h3_biases bound0 i).
Proof.
  apply Forall_forall. intros [c q] Hin. unfold h3_biases in Hin.
  in_binds Hin. simplify_eq/=. lia.
Qed.

Lemma one_one_range (q : Qc) : cases_in_range 2 2 [((1, 1)%nat, q)].
Proof. apply Forall_singleton. simpl. lia. Qed.

Ltac static_block :=
  apply daccepted_static;
  [apply Forall_forall; intros wr Hwr; in_binds Hwr; subst wr;
   (split; [done|]); simpl|].

Ltac split_ors Hin :=
  lazymatch type of Hin with
  | _ ∨ _ => destruct Hin as [Hin|Hin]; [split_ors Hin|split_ors Hin]
  | _ => idtac
  end.

Ltac not_declared Hin :=
  rewrite ?elem_of_app in Hin; split_ors Hin;
  in_binds Hin; write_inj Hin; label_eq; try lia.

(** For tables with a bound for every priced item the cell runs through:
    every label is declared once, before its biases are set, with one
    bias per case, and every coupling joins two declared variables on
    cases they have. *)
Lemma daccepted_writes :
  (∀ k, (k < x_size values)%nat → bound_at bound0 k ≠ 0%nat) →
  daccepted empty_dqm writes.
Proof.
  intros Hbound.
  unfold combined_writes, knapsack_and_cover_writes. rewrite <- !app_assoc.
  apply daccepted_app.
  { apply daccepted_fresh.
    - apply Forall_forall. intros wr Hwr. unfold z_variables in Hwr.
      in_binds Hwr. subst wr. eexists _, _.
      split_and!; [done|apply Hbound; lia|done].
    - apply (NoDup_loop2 cases_keys (@cases_keys_bind) _ _ _ z_label);
        [done|apply NoDup_range|intros; apply NoDup_range|].
      intros k s k' s' Hk. by apply z_label_inj. }
  apply daccepted_app.
  { apply daccepted_fresh.
    - apply Forall_forall. intros wr Hwr.
      unfold w_variables, num_slack_variables in Hwr.
      in_binds Hwr. subst wr. eexists _, _. split_and!; [done..|].
      apply undeclared_in. intros n Hin. unfold z_variables in Hin.
      not_declared Hin.
    - apply (NoDup_loop1 cases_keys (@cases_keys_bind) _ _ w_label);
        [done|apply NoDup_range|]. intros j j'. apply w_label_inj. }
  rewrite <- dfold_app.
  set (P2 := z_variables S values bound0 ++ w_variables M).
  assert (HP2 : ∀ wr, wr ∈ P2 → wr ∈ base).
  { intros wr Hwr. apply decls_base. unfold P2 in Hwr.
    rewrite !elem_of_app in *. tauto. }
  assert (Hz2 : ∀ k s, (k < x_size values)%nat → (s < length S)%nat →
            num_cases (dfold P2 empty_dqm) !! z_label k s
            = Some (bound_at bound0 k)).
  { intros k s Hk Hs. apply declared_in; [done|].
    apply elem_of_app. left. by apply z_variable_in. }
  assert (Hw2 : ∀ j, (j < M + 1)%nat →
            num_cases (dfold P2 empty_dqm) !! w_label j = Some 2%nat).
  { intros j Hj. apply declared_in; [done|].
    apply elem_of_app. right. by apply w_variable_in_block. }
  unfold z_linear_terms, zz_terms, w_linear_terms, ww_terms, zw_terms,
    num_slack_variables.
  static_block.
  { rewrite length_z_linear_biases. apply Hz2; lia. }
  static_block.
  { split; [intros ?; label_eq; lia|].
    eexists _, _. split_and!; [apply Hz2; lia..|apply zz_biases_range]. }
  static_block.
  { apply Hw2. lia. }
  static_block.
  { split; [intros ?; label_eq; lia|].
    eexists _, _. split_and!; [apply Hw2; lia..|apply one_one_range]. }
  static_block.
  { split; [intros ?; label_eq|].
    eexists _, _.
    split_and!; [apply Hz2; lia|apply Hw2; lia|apply zw_biases_range]. }
  apply daccepted_app.
  { unfold x_terms. apply daccepted_pairs.
    - apply NoDup_fmap_2_strong; [|apply NoDup_range].
      intros i j _ _ Hij. apply x_label_inj in Hij. lia.
    - intros i _. apply undeclared_in. intros n Hin. unfold P2 in Hin.
      unfold z_variables, w_variables in Hin. not_declared Hin. }
  rewrite <- dfold_app.
  set (P3 := P2 ++ x_terms U S).
  apply daccepted_app.
  { unfold y_terms. rewrite bind_pairs.
    apply (daccepted_pairs _ (λ p, y_label p.1 p.2)
             (λ p, ofZ (A * (Z.of_nat p.2 ^ 2 - 1) * 0))
             (λ p, ofZ (A * (Z.of_nat p.2 ^ 2 - 1) * 1))).
    - apply NoDup_fmap_2_strong.
      + intros [a m] [a' m'] _ _ Heq. simpl in Heq.
        apply y_label_inj in Heq as [-> ->]. done.
      + apply NoDup_bind; [|intros; apply NoDup_bind|apply NoDup_range].
        * intros a a' p _ _ Hp Hp'. in_binds Hp. in_binds Hp'. congruence.
        * intros m m' p _ _ Hp Hp'. in_binds Hp. in_binds Hp'. congruence.
        * intros. apply NoDup_singleton.
        * apply NoDup_range.
    - intros [a m] _. simpl. apply undeclared_in. intros n Hin.
      unfold P3, P2 in Hin. unfold z_variables, w_variables, x_terms in Hin.
      not_declared Hin. }
  rewrite <- dfold_app.
  set (P4 := P3 ++ y_terms U S).
  assert (HP4 : ∀ wr, wr ∈ P4 → wr ∈ base).
  { intros wr Hwr. apply decls_base. unfold P4, P3, P2 in Hwr.
    rewrite !elem_of_app in *. tauto. }
  assert (Hz4 : ∀ k s, (k < x_size values)%nat → (s < length S)%nat →
            num_cases (dfold P4 empty_dqm) !! z_label k s
            = Some (bound_at bound0 k)).
  { intros k s Hk Hs. apply declared_in; [done|]. unfold P4, P3, P2.
    rewrite !elem_of_app. do 3 left. by apply z_variable_in. }
  assert (Hx4 : ∀ i, (1 ≤ i ≤ length S)%nat →
            num_cases (dfold P4 empty_dqm) !! x_label i = Some 2%nat).
  { intros i Hi. apply declared_in; [done|]. unfold P4, P3.
    rewrite !elem_of_app. left; right. by apply x_variable_in_block. }
  assert (Hy4 : ∀ a m, (1 ≤ a ≤ length U)%nat → (1 ≤ m ≤ length S)%nat →
            num_cases (dfold P4 empty_dqm) !! y_label a m = Some 2%nat).
  { intros a m Ha Hm. apply declared_in; [done|]. unfold P4.
    rewrite !elem_of_app. right. by apply y_variable_in_block. }
  unfold xx_terms, yy_terms, xy_terms, h3_terms, num_slack_variables.
  static_block.
  { split; [intros ?; label_eq; lia|].
    eexists _, _. split_and!; [apply Hx4; lia..|apply one_one_range]. }
  static_block.
  { split; [intros ?; label_eq; lia|].
    eexists _, _. split_and!; [apply Hy4; lia..|apply one_one_range]. }
  static_block.
  { split; [intros ?; label_eq|].
    eexists _, _.
    split_and!; [apply Hx4; lia|apply Hy4; lia|apply one_one_range]. }
  rewrite <- (app_nil_r (_ ≫= _)).
  static_block; [|done].
  split; [intros ?; label_eq|].
  eexists _, _.
  split_and!; [apply Hz4; lia|apply Hx4; lia|apply h3_biases_range].
Qed.

Lemma daccepted_base :
  (∀ k, (k < x_size values)%nat → bound_at bound0 k ≠ 0%nat) →
  daccepted empty_dqm base.
Proof.
  intros Hbound. apply (daccepted_app_l base h3). by apply daccepted_writes.
Qed.

(** The purchase variable [z_(k,s)] in the finished model: its number of
    cases, its linear biases and its couplings to the slack bits. *)
Lemma num_cases_z (k s : nat) :
  (k < x_size values)%nat → (s < length S)%nat →
  num_cases (dfold writes empty_dqm) !! z_label k s
  = Some (bound_at bound0 k).
Proof.
  intros Hk Hs. apply num_cases_dfold.
  - apply elem_of_app. left. unfold knapsack_and_cover_writes.
    apply elem_of_app. left. unfold z_variables.
    apply list_elem_of_bind. exists k. split; [|apply elem_of_range; lia].
    apply list_elem_of_bind. exists s. split; [|apply elem_of_range; lia].
    by left.
  - intros n' Hin. classify Hin; subst; label_eq; by subst.
Qed.

Lemma dlinear_z (k s : nat) :
  (k < x_size values)%nat → (s < length S)%nat →
  dlinear (dfold writes empty_dqm) !! z_label k s
  = Some (z_linear_biases weights values bound0 lagrange k s).
Proof.
  intros Hk Hs. apply dlinear_dfold.
  - apply elem_of_app. left. unfold knapsack_and_cover_writes.
    do 2 (apply elem_of_app; right). apply elem_of_app. left.
    unfold z_linear_terms.
    apply list_elem_of_bind. exists k. split; [|apply elem_of_range; lia].
    apply list_elem_of_bind. exists s. split; [|apply elem_of_range; lia].
    by left.
  - intros b' Hin. classify Hin; subst; label_eq; by subst.
Qed.

Lemma dquadratic_zw (k s j : nat) :
  (k < x_size values)%nat → (s < length S)%nat → (j < M + 1)%nat →
  dquadratic (dfold writes empty_dqm) !! (z_label k s, w_label j)
  = Some (list_to_map (zw_biases weights bound0 lagrange w k s j)).
Proof.
  intros Hk Hs Hj. apply dquadratic_dfold; [| |done].
  - apply elem_of_app. left. unfold knapsack_and_cover_writes.
    do 6 (apply elem_of_app; right). apply elem_of_app. left.
    unfold zw_terms.
    apply list_elem_of_bind. exists k. split; [|apply elem_of_range; lia].
    apply list_elem_of_bind. exists s. split; [|apply elem_of_range; lia].
    apply list_elem_of_bind. exists j.
    split; [|apply elem_of_range; unfold num_slack_variables; lia].
    by left.
  - intros b' Hin. classify Hin; subst; label_eq; by subst.
Qed.

Lemma dquadratic_zz (i j s1 s2 : nat) :
  (i < j)%nat → (j < x_size values)%nat →
  (s1 < length S)%nat → (s2 < length S)%nat →
  dquadratic (dfold writes empty_dqm) !! (z_label i s1, z_label j s2)
  = Some (list_to_map (zz_biases weights bound0 lagrange i j s1 s2)).
Proof.
  intros Hij Hj Hs1 Hs2. apply dquadratic_dfold; [| |done].
  - apply elem_of_app. left. unfold knapsack_and_cover_writes.
    do 3 (apply elem_of_app; right). apply elem_of_app. left.
    unfold zz_terms.
    apply list_elem_of_bind. exists i. split; [|apply elem_of_range; lia].
    apply list_elem_of_bind. exists j. split; [|apply elem_of_range; lia].
    apply list_elem_of_bind. exists s1. split; [|apply elem_of_range; lia].
    apply list_elem_of_bind. exists s2. split; [|apply elem_of_range; lia].
    by left.
  - intros b' Hin. classify Hin; subst; label_eq; by subst.
Qed.

End CombinedModel.

(** ** Writes of all-zero biases *)

Section ZeroWrites.
Import Combined.

Lemma zero_biases_union (m1 m2 : gmap (nat * nat) Qc) :
  zero_biases m1 → zero_biases m2 → zero_biases (m1 ∪ m2).
Proof.
  intros H1 H2 c b [Hb|[_ Hb]]%lookup_union_Some_raw; [by eapply H1|by eapply H2].
Qed.

Lemma zero_biases_empty : zero_biases ∅.
Proof. intros c b Hb. by rewrite lookup_empty in Hb. Qed.

Lemma zero_biases_lookup (m : gmap (nat * nat) Qc) (c : nat * nat) :
  zero_biases m → default 0%Qc (m !! c) = 0%Qc.
Proof.
  intros Hm. destruct (m !! c) as [b|] eqn:Hb; simpl; [by eapply Hm|done].
Qed.

(** Storing a table of zeros under a key that held nothing, or zeros,
    leaves the quadratic part of every energy unchanged. *)
Lemma quadratic_energy_insert_zero (q : gmap (string * string) (gmap (nat * nat) Qc))
    (k : string * string) (z : gmap (nat * nat) Qc) (s : dsample) :
  zero_biases z →
  (∀ old, q !! k = Some old → zero_biases old) →
  map_fold (λ (key : string * string) biases acc,
              (default 0 (biases !! (s key.1, s key.2)) + acc)%Qc) 0%Qc
           (<[k := z]> q)
  = map_fold (λ (key : string * string) biases acc,
                (default 0 (biases !! (s key.1, s key.2)) + acc)%Qc) 0%Qc q.
Proof.
  intros Hz Hold.
  set (f := λ (key : string * string) (biases : gmap (nat * nat) Qc) acc,
              (default 0 (biases !! (s key.1, s key.2)) + acc)%Qc).
  assert (Hcomm : ∀ (m : gmap (string * string) (gmap (nat * nat) Qc))
              j1 j2 z1 z2 y, j1 ≠ j2 →
              m !! j1 = Some z1 → m !! j2 = Some z2 →
              f j1 z1 (f j2 z2 y) = f j2 z2 (f j1 z1 y)).
  { intros m j1 j2 z1 z2 y _ _ _. unfold f. ring. }
  assert (Hfresh : ∀ (m : gmap (string * string) (gmap (nat * nat) Qc)) z',
              zero_biases z' → m !! k = None →
              map_fold f 0%Qc (<[k := z']> m) = map_fold f 0%Qc m).
  { intros m z' Hz' Hm. rewrite map_fold_insert_L; [|by eauto|done].
    unfold f at 1. rewrite zero_biases_lookup by done. ring. }
  destruct (q !! k) as [old|] eqn:Hk.
  - rewrite <- (insert_delete_eq q k z).
    rewrite <- (insert_id q k old) at 2 by done.
    rewrite <- (insert_delete_eq q k old).
    rewrite !Hfresh;
      [done|by apply Hold|apply lookup_delete_eq|done|apply lookup_delete_eq].
  - by apply Hfresh.
Qed.

Lemma dfold_zero_writes (ws : list dwrite) (d : DQM) (s : dsample) :
  (∀ wr, wr ∈ ws → ∃ u v b, wr = DSetQuadratic u v b
                           ∧ zero_biases (list_to_map b)) →
  (∀ u v b, DSetQuadratic u v b ∈ ws →
     ∀ m, dquadratic d !! (u, v) = Some m → zero_biases m) →
  num_cases (dfold ws d) = num_cases d
  ∧ dlinear (dfold ws d) = dlinear d
  ∧ denergy (dfold ws d) s = denergy d s.
Proof.
  revert d. induction ws as [|wr ws IH]; intros d Hws Hd; [done|].
  destruct (Hws wr) as (u & v & b & -> & Hb); [by left|].
  change (dfold (DSetQuadratic u v b :: ws) d)
    with (dfold ws (dapply (DSetQuadratic u v b) d)).
  destruct (IH (dapply (DSetQuadratic u v b) d)) as (-> & -> & ->).
  - intros wr' Hwr'. apply Hws. by right.
  - intros u' v' b' Hin m. simpl.
    destruct (decide ((u, v) = (u', v'))) as [Heq|Hne].
    + rewrite Heq, lookup_insert_eq. intros [= <-].
      apply zero_biases_union; [done|].
      destruct (dquadratic d !! (u', v')) as [old|] eqn:Hold; simpl.
      * eapply (Hd u' v' b'); [by right|done].
      * apply zero_biases_empty.
    + rewrite lookup_insert_ne by done. apply (Hd u' v' b'). by right.
  - split_and!; [done..|]. unfold denergy. simpl. f_equal.
    apply quadratic_energy_insert_zero.
    + apply zero_biases_union; [done|].
      destruct (dquadratic d !! (u, v)) as [old|] eqn:Hold; simpl.
      * eapply (Hd u v b); [by left|done].
      * apply zero_biases_empty.
    + intros old Hold. eapply (Hd u v b); [by left|done].
Qed.

Lemma quadratic_key_cases (ws : list dwrite) (u v : string) :
  (∃ b, DSetQuadratic u v b ∈ ws) ∨ (∀ b, DSetQuadratic u v b ∉ ws).
Proof.
  induction ws as [|wr ws [[b Hb]|IH]].
  - right. intros b Hb. by apply elem_of_nil in Hb.
  - left. exists b. by right.
  - destruct wr as [n' v'|v' b'|u' v' b'].
    + right. intros b [?|?]%elem_of_cons; [done|by eapply IH].
    + right. intros b [?|?]%elem_of_cons; [done|by eapply IH].
    + destruct (decide ((u', v') = (u, v))) as [Heq|Hne].
      * left. exists b'.
        assert (u' = u ∧ v' = v) as [-> ->] by (split; congruence). by left.
      * right. intros b [?|?]%elem_of_cons; [congruence|by eapply IH].
Qed.

End ZeroWrites.

Section CombinedH3.
Import Combined.
Context {E : Type} `{Countable E}.
Variable U : list E.
Variable S : list (gset E).
Variable weights : list (list Z).
Variable values : list Z.
Variable bound0 : list nat.
Variable lagrange : Z.
Variable M : nat.
Variable w : list Z.

Local Abbreviation writes :=
  (combined_writes U S weights values bound0 lagrange M w).
Local Abbreviation base :=
  (knapsack_and_cover_writes U S weights values bound0 lagrange M w).
Local Abbreviation h3 := (h3_terms S values bound0 M).

(** Every H3 bias is [-C * piece] with [C = 0]. *)
Lemma h3_biases_zero (i : nat) (c : nat * nat) (b : Qc) :
  (c, b) ∈ h3_biases bound0 i →
  b = ofZ (- C * Z.of_nat c.1) ∧ b = 0%Qc ∧ c.2 = 1%nat.
Proof. intros Hin. unfold h3_biases in Hin. in_binds Hin. by simplify_eq. Qed.

Lemma zero_biases_h3 (i : nat) :
  zero_biases (list_to_map (h3_biases bound0 i)).
Proof.
  intros c b Hb%elem_of_list_to_map_2. by apply h3_biases_zero in Hb as (_ & ? & _).
Qed.

(** Before the H3 block no purchase variable is coupled to a supplier
    variable, in either order of the labels; the H3 block writes the
    purchase variable first. *)
Lemma base_no_zx (k s i : nat) (b : list ((nat * nat) * Qc)) :
  DSetQuadratic (z_label k s) (x_label i) b ∉ base.
Proof. intros Hin. classify_base Hin. Qed.

Lemma base_no_xz (k s i : nat) (b : list ((nat * nat) * Qc)) :
  DSetQuadratic (x_label i) (z_label k s) b ∉ base.
Proof. intros Hin. classify_base Hin. Qed.

Lemma h3_no_xz (k s i : nat) (b : list ((nat * nat) * Qc)) :
  DSetQuadratic (x_label i) (z_label k s) b ∉ h3.
Proof. intros Hin. classify_h3 Hin. Qed.

Lemma dfold_h3 (s : dsample) :
  num_cases (dfold writes empty_dqm) = num_cases (dfold base empty_dqm)
  ∧ dlinear (dfold writes empty_dqm) = dlinear (dfold base empty_dqm)
  ∧ denergy (dfold writes empty_dqm) s = denergy (dfold base empty_dqm) s.
Proof.
  unfold combined_writes. rewrite dfold_app. apply dfold_zero_writes.
  - intros wr (i & s' & -> & _)%elem_of_h3.
    eexists _, _, _. split; [done|]. apply zero_biases_h3.
  - intros u v b (i & s' & Heq & _)%elem_of_h3 m.
    write_inj Heq. subst.
    rewrite dquadratic_dfold_notin; [done|]. apply base_no_zx.
Qed.

(** The table stored for a pair of labels with and without the H3
    block. *)
Lemma dquadratic_h3_cases (u v : string) :
  dquadratic (dfold writes empty_dqm) !! (u, v)
    = dquadratic (dfold base empty_dqm) !! (u, v)
  ∨ (∃ i s, u = z_label i s ∧ v = x_label (s + 1)
            ∧ (i < x_size values)%nat ∧ (1 ≤ s < length S)%nat
            ∧ dquadratic (dfold writes empty_dqm) !! (u, v)
              = Some (list_to_map (h3_biases bound0 i))
            ∧ dquadratic (dfold base empty_dqm) !! (u, v) = None).
Proof.
  unfold combined_writes. rewrite dfold_app.
  destruct (quadratic_key_cases h3 u v) as [[b Hb]|Hnone].
  - right. pose proof Hb as (i & s & Heq & Hi & Hs)%elem_of_h3.
    write_inj Heq. subst. exists i, s.
    assert (Hbase : dquadratic (dfold base empty_dqm)
                      !! (z_label i s, x_label (s + 1)) = None).
    { rewrite dquadratic_dfold_notin; [done|]. apply base_no_zx. }
    split_and!; try done; try lia.
    apply dquadratic_dfold; [done| |done].
    intros b' (i' & s' & Heq & _)%elem_of_h3. write_inj Heq. label_eq.
    by subst.
  - left. by apply dquadratic_dfold_notin.
Qed.

Lemma quadratic_bias_h3 (u v : string) (cu cv : nat) :
  quadratic_bias (dfold writes empty_dqm) u v cu cv
  = quadratic_bias (dfold base empty_dqm) u v cu cv.
Proof.
  unfold quadratic_bias.
  destruct (dquadratic_h3_cases u v)
    as [->|(i & s & -> & -> & _ & _ & -> & ->)]; [done|].
  simpl. apply zero_biases_lookup, zero_biases_h3.
Qed.

Lemma no_zx_coupling (k s i cu cv : nat) :
  quadratic_bias (dfold writes empty_dqm) (z_label k s) (x_label i) cu cv
    = 0%Qc
  ∧ quadratic_bias (dfold writes empty_dqm) (x_label i) (z_label k s) cv cu
    = 0%Qc.
Proof.
  rewrite !quadratic_bias_h3. unfold quadratic_bias.
  rewrite !dquadratic_dfold_notin; [done|..].
  - intros b. apply base_no_xz.
  - intros b. apply base_no_zx.
Qed.

(** A pair of labels and the reversed pair are never both written. *)
Lemma writes_one_order (u v : string) (b b' : list ((nat * nat) * Qc)) :
  DSetQuadratic u v b ∈ writes → DSetQuadratic v u b' ∉ writes.
Proof.
  intros Hin Hin'.
  classify Hin; subst; classify Hin'; subst; label_eq; lia.
Qed.

Lemma dquadratic_one_order (u v : string) :
  is_Some (dquadratic (dfold writes empty_dqm) !! (u, v)) →
  dquadratic (dfold writes empty_dqm) !! (v, u) = None.
Proof.
  intros Huv.
  destruct (quadratic_key_cases writes u v) as [[b Hb]|Hnone].
  - rewrite dquadratic_dfold_notin; [done|].
    intros b'. by eapply writes_one_order.
  - rewrite dquadratic_dfold_notin in Huv by done.
    by apply is_Some_None in Huv.
Qed.

End CombinedH3.

(** ** The keys the combined cell writes *)

Ltac no_linear_keys :=
  repeat (apply (keys_loop_nil Energy.dlinear_keys (@dlinear_keys_bind));
          intros ?);
  reflexivity.

Ltac no_quadratic_keys :=
  repeat (apply (keys_loop_nil Energy.dquadratic_keys (@dquadratic_keys_bind));
          intros ?);
  reflexivity.

Ltac pair_eq Hk :=
  lazymatch type of Hk with
  | (?a, ?b) = (?a', ?b') =>
      assert (a = a') by congruence; assert (b = b') by congruence; clear Hk
  end.

Section BaseKeys.
Import Combined Energy.
Context {E : Type} `{Countable E}.
Variable U : list E.
Variable S : list (gset E).
Variable weights : list (list Z).
Variable values : list Z.
Variable bound0 : list nat.
Variable lagrange : Z.
Variable M : nat.
Variable w : list Z.

Local Abbreviation base :=
  (knapsack_and_cover_writes U S weights values bound0 lagrange M w).

Lemma dlinear_keys_base :
  dlinear_keys base
  = dlinear_keys (z_linear_terms S weights values bound0 lagrange)
    ++ dlinear_keys (w_linear_terms lagrange M w)
    ++ dlinear_keys (x_terms U S)
    ++ dlinear_keys (y_terms U S).
Proof.
  unfold knapsack_and_cover_writes. rewrite !dlinear_keys_app.
  replace (dlinear_keys (z_variables S values bound0)) with (@nil string)
    by (symmetry; unfold z_variables; no_linear_keys).
  replace (dlinear_keys (w_variables M)) with (@nil string)
    by (symmetry; unfold w_variables; no_linear_keys).
  replace (dlinear_keys (zz_terms S weights values bound0 lagrange))
    with (@nil string) by (symmetry; unfold zz_terms; no_linear_keys).
  replace (dlinear_keys (ww_terms lagrange M w)) with (@nil string)
    by (symmetry; unfold ww_terms; no_linear_keys).
  replace (dlinear_keys (zw_terms S weights values bound0 lagrange M w))
    with (@nil string) by (symmetry; unfold zw_terms; no_linear_keys).
  replace (dlinear_keys (xx_terms U S)) with (@nil string)
    by (symmetry; unfold xx_terms; no_linear_keys).
  replace (dlinear_keys (yy_terms U S)) with (@nil string)
    by (symmetry; unfold yy_terms; no_linear_keys).
  replace (dlinear_keys (xy_terms U S)) with (@nil string)
    by (symmetry; unfold xy_terms; no_linear_keys).
  simpl. by rewrite !app_nil_r.
Qed.

Lemma dquadratic_keys_base :
  dquadratic_keys base
  = dquadratic_keys (zz_terms S weights values bound0 lagrange)
    ++ dquadratic_keys (ww_terms lagrange M w)
    ++ dquadratic_keys (zw_terms S weights values bound0 lagrange M w)
    ++ dquadratic_keys (xx_terms U S)
    ++ dquadratic_keys (yy_terms U S)
    ++ dquadratic_keys (xy_terms U S).
Proof.
  unfold knapsack_and_cover_writes. rewrite !dquadratic_keys_app.
  replace (dquadratic_keys (z_variables S values bound0))
    with (@nil (string * string))
    by (symmetry; unfold z_variables; no_quadratic_keys).
  replace (dquadratic_keys (w_variables M)) with (@nil (string * string))
    by (symmetry; unfold w_variables; no_quadratic_keys).
  replace (dquadratic_keys (z_linear_terms S weights values bound0 lagrange))
    with (@nil (string * string))
    by (symmetry; unfold z_linear_terms; no_quadratic_keys).
  replace (dquadratic_keys (w_linear_terms lagrange M w))
    with (@nil (string * string))
    by (symmetry; unfold w_linear_terms; no_quadratic_keys).
  replace (dquadratic_keys (x_terms U S)) with (@nil (string * string))
    by (symmetry; unfold x_terms; no_quadratic_keys).
  replace (dquadratic_keys (y_terms U S)) with (@nil (string * string))
    by (symmetry; unfold y_terms; no_quadratic_keys).
  simpl. done.
Qed.

Local Abbreviation lk := (elem_of_loop1 dlinear_keys (@dlinear_keys_bind)).
Local Abbreviation lk2 := (elem_of_loop2 dlinear_keys (@dlinear_keys_bind)).
Local Abbreviation qk2 :=
  (elem_of_loop2 dquadratic_keys (@dquadratic_keys_bind)).
Local Abbreviation qk3 :=
  (elem_of_loop3 dquadratic_keys (@dquadratic_keys_bind)).
Local Abbreviation qk4 :=
  (elem_of_loop4 dquadratic_keys (@dquadratic_keys_bind)).

Lemma z_linear_key (v : string) :
  v ∈ dlinear_keys (z_linear_terms S weights values bound0 lagrange) →
  ∃ k s, v = z_label k s.
Proof.
  intros Hv. apply (lk2 _ _ _ z_label) in Hv as (k & s & _ & _ & ->); [|done].
  eauto.
Qed.

Lemma w_linear_key (v : string) :
  v ∈ dlinear_keys (w_linear_terms lagrange M w) → ∃ j, v = w_label j.
Proof.
  intros Hv. apply (lk _ _ w_label) in Hv as (j & _ & ->); [|done]. eauto.
Qed.

Lemma x_linear_key (v : string) :
  v ∈ dlinear_keys (x_terms U S) → ∃ i, v = x_label i.
Proof.
  intros Hv.
  apply (lk _ _ (λ i, x_label (i + 1))) in Hv as (i & _ & ->); [|done]. eauto.
Qed.

Lemma y_linear_key (v : string) :
  v ∈ dlinear_keys (y_terms U S) → ∃ a m, v = y_label a m.
Proof.
  intros Hv. apply (lk2 _ _ _ y_label) in Hv as (a & m & _ & _ & ->); [|done].
  eauto.
Qed.

Lemma NoDup_dlinear_keys_base : NoDup (dlinear_keys base).
Proof.
  rewrite dlinear_keys_base.
  apply NoDup_app. split_and!; [| |apply NoDup_app; split_and!;
    [| |apply NoDup_app; split_and!]].
  - apply (NoDup_loop2 dlinear_keys (@dlinear_keys_bind) _ _ _ z_label);
      [done|apply NoDup_range|intros; apply NoDup_range|].
    intros k s k' s' Hk. by apply z_label_inj.
  - intros v (k & s & ->)%z_linear_key. rewrite !elem_of_app.
    intros [(j & Hv)%w_linear_key|[(i & Hv)%x_linear_key
                                  |(a & m & Hv)%y_linear_key]]; label_eq.
  - apply (NoDup_loop1 dlinear_keys (@dlinear_keys_bind) _ _ w_label);
      [done|apply NoDup_range|].
    intros j j'. apply w_label_inj.
  - intros v (j & ->)%w_linear_key. rewrite !elem_of_app.
    intros [(i & Hv)%x_linear_key|(a & m & Hv)%y_linear_key]; label_eq.
  - apply (NoDup_loop1 dlinear_keys (@dlinear_keys_bind) _ _
             (λ i, x_label (i + 1))); [done|apply NoDup_range|].
    intros i i' Hi%x_label_inj. lia.
  - intros v (i & ->)%x_linear_key (a & m & Hv)%y_linear_key. label_eq.
  - apply (NoDup_loop2 dlinear_keys (@dlinear_keys_bind) _ _ _ y_label);
      [done|apply NoDup_range|intros; apply NoDup_range|].
    intros a m a' m' Hk. by apply y_label_inj.
Qed.

Lemma zz_key (k : string * string) :
  k ∈ dquadratic_keys (zz_terms S weights values bound0 lagrange) →
  ∃ i j s1 s2, k = (z_label i s1, z_label j s2).
Proof.
  intros Hk.
  apply (qk4 _ _ _ _ _ (λ i j s1 s2, (z_label i s1, z_label j s2))) in Hk
    as (i & j & s1 & s2 & _ & _ & _ & _ & ->); [|done].
  eauto.
Qed.

Lemma ww_key (k : string * string) :
  k ∈ dquadratic_keys (ww_terms lagrange M w) →
  ∃ i j, k = (w_label i, w_label j).
Proof.
  intros Hk.
  apply (qk2 _ _ _ (λ i j, (w_label i, w_label j))) in Hk
    as (i & j & _ & _ & ->); [|done].
  eauto.
Qed.

Lemma zw_key (k : string * string) :
  k ∈ dquadratic_keys (zw_terms S weights values bound0 lagrange M w) →
  ∃ i s j, k = (z_label i s, w_label j).
Proof.
  intros Hk.
  apply (qk3 _ _ _ _ (λ i s j, (z_label i s, w_label j))) in Hk
    as (i & s & j & _ & _ & _ & ->); [|done].
  eauto.
Qed.

Lemma xx_key (k : string * string) :
  k ∈ dquadratic_keys (xx_terms U S) → ∃ i j, k = (x_label i, x_label j).
Proof.
  intros Hk.
  apply (qk2 _ _ _ (λ i j, (x_label i, x_label j))) in Hk
    as (i & j & _ & _ & ->); [|done].
  eauto.
Qed.

Lemma yy_key (k : string * string) :
  k ∈ dquadratic_keys (yy_terms U S) →
  ∃ m n a, k = (y_label a m, y_label a n).
Proof.
  intros Hk.
  apply (qk3 _ _ _ _ (λ m n a, (y_label a m, y_label a n))) in Hk
    as (m & n & a & _ & _ & _ & ->); [|done].
  eauto.
Qed.

Lemma xy_key (k : string * string) :
  k ∈ dquadratic_keys (xy_terms U S) →
  ∃ i m a, k = (x_label i, y_label a m).
Proof.
  intros Hk.
  apply (qk3 _ _ _ _ (λ i m a, (x_label i, y_label a m))) in Hk
    as (i & m & a & _ & _ & _ & ->); [|done].
  eauto.
Qed.

Lemma NoDup_dquadratic_keys_base : NoDup (dquadratic_keys base).
Proof.
  rewrite dquadratic_keys_base.
  apply NoDup_app. split_and!; [| |apply NoDup_app; split_and!;
    [| |apply NoDup_app; split_and!; [| |apply NoDup_app; split_and!;
    [| |apply NoDup_app; split_and!]]]].
  - apply (NoDup_loop4 dquadratic_keys (@dquadratic_keys_bind) _ _ _ _ _
             (λ i j s1 s2, (z_label i s1, z_label j s2)));
      [done|apply NoDup_range|intros; apply NoDup_range..|].
    intros i j s1 s2 i' j' s1' s2' Hk. pair_eq Hk. label_eq. by subst.
  - intros k (i & j & s1 & s2 & ->)%zz_key. rewrite !elem_of_app.
    intros [(? & ? & Hk)%ww_key|[(? & ? & ? & Hk)%zw_key
      |[(? & ? & Hk)%xx_key|[(? & ? & ? & Hk)%yy_key
      |(? & ? & ? & Hk)%xy_key]]]]; pair_eq Hk; label_eq.
  - apply (NoDup_loop2 dquadratic_keys (@dquadratic_keys_bind) _ _ _
             (λ i j, (w_label i, w_label j)));
      [done|apply NoDup_range|intros; apply NoDup_range|].
    intros i j i' j' Hk. pair_eq Hk. label_eq. by subst.
  - intros k (i & j & ->)%ww_key. rewrite !elem_of_app.
    intros [(? & ? & ? & Hk)%zw_key
      |[(? & ? & Hk)%xx_key|[(? & ? & ? & Hk)%yy_key
      |(? & ? & ? & Hk)%xy_key]]]; pair_eq Hk; label_eq.
  - apply (NoDup_loop3 dquadratic_keys (@dquadratic_keys_bind) _ _ _ _
             (λ i s j, (z_label i s, w_label j)));
      [done|apply NoDup_range|intros; apply NoDup_range..|].
    intros i s j i' s' j' Hk. pair_eq Hk. label_eq. by subst.
  - intros k (i & s & j & ->)%zw_key. rewrite !elem_of_app.
    intros [(? & ? & Hk)%xx_key|[(? & ? & ? & Hk)%yy_key
      |(? & ? & ? & Hk)%xy_key]]; pair_eq Hk; label_eq.
  - apply (NoDup_loop2 dquadratic_keys (@dquadratic_keys_bind) _ _ _
             (λ i j, (x_label i, x_label j)));
      [done|apply NoDup_range|intros; apply NoDup_range|].
    intros i j i' j' Hk. pair_eq Hk. label_eq. by subst.
  - intros k (i & j & ->)%xx_key. rewrite !elem_of_app.
    intros [(? & ? & ? & Hk)%yy_key|(? & ? & ? & Hk)%xy_key];
      pair_eq Hk; label_eq.
  - apply (NoDup_loop3 dquadratic_keys (@dquadratic_keys_bind) _ _ _ _
             (λ m n a, (y_label a m, y_label a n)));
      [done|apply NoDup_range|intros; apply NoDup_range..|].
    intros m n a m' n' a' Hk. pair_eq Hk. label_eq. by subst.
  - intros k (m & n & a & ->)%yy_key (? & ? & ? & Hk)%xy_key.
    pair_eq Hk; label_eq.
  - apply (NoDup_loop3 dquadratic_keys (@dquadratic_keys_bind) _ _ _ _
             (λ i m a, (x_label i, y_label a m)));
      [done|apply NoDup_range|intros; apply NoDup_range..|].
    intros i m a i' m' a' Hk. pair_eq Hk. label_eq. by subst.
Qed.

End BaseKeys.

(** ** Biases that are computed without rounding *)

Section Rationals.
Import Combined.

Lemma ofZ_add (a b : Z) : ofZ (a + b) = (ofZ a + ofZ b)%Qc.
Proof.
  unfold ofZ. apply Qc_is_canon. simpl.
  rewrite !Qred_correct, inject_Z_plus. reflexivity.
Qed.

Lemma ofZ_mul (a b : Z) : ofZ (a * b) = (ofZ a * ofZ b)%Qc.
Proof.
  unfold ofZ. apply Qc_is_canon. simpl.
  rewrite !Qred_correct, inject_Z_mult. reflexivity.
Qed.

Lemma ofZ_opp (a : Z) : ofZ (- a) = (- ofZ a)%Qc.
Proof.
  unfold ofZ. apply Qc_is_canon. simpl.
  rewrite !Qred_correct, inject_Z_opp. reflexivity.
Qed.

Lemma ofZ_sub (a b : Z) : ofZ (a - b) = (ofZ a - ofZ b)%Qc.
Proof.
  replace (a - b) with (a + - b) by lia. rewrite ofZ_add, ofZ_opp. ring.
Qed.

Lemma ofZ_0 : ofZ 0 = 0%Qc.
Proof. reflexivity. Qed.
Lemma ofZ_1 : ofZ 1 = 1%Qc.
Proof. reflexivity. Qed.
Lemma ofZ_2 : ofZ 2 = 2%Qc.
Proof. reflexivity. Qed.

Lemma dbl_add_int (a n : Z) : dbl (a + 2 * n) = (dbl a + ofZ n)%Qc.
Proof.
  unfold dbl. rewrite ofZ_add, ofZ_mul.
  assert (ofZ 2 * half = 1)%Qc as Hhalf by (by apply Qc_is_canon).
  transitivity (ofZ a * half + ofZ n * (ofZ 2 * half))%Qc; [ring|].
  rewrite Hhalf. ring.
Qed.

Lemma dbl_mul (a n : Z) : dbl (a * n) = (dbl a * ofZ n)%Qc.
Proof. unfold dbl. rewrite ofZ_mul. ring. Qed.

End Rationals.

(** Bounds [Vb] on the prices, [Wb] on the costs and on the slack
    weights and [Pb] on the quantities with [Vb * Wb^2 * Pb^2 <= 2^50]:
    every integer of the knapsack biases is in the 64-bit range and every
    double is below [2^53], so the cell computes them exactly. *)
Section Exact.
Import Combined Float64.
Variables Vb Wb Pb : Z.
Hypothesis HVb : 1 ≤ Vb.
Hypothesis HWb : 1 ≤ Wb.
Hypothesis HPb : 1 ≤ Pb.
Hypothesis Hsmall : Vb * Wb ^ 2 * Pb ^ 2 ≤ 2 ^ 50.

Lemma small_product (x a b c d e : Z) :
  x = a * b * c * d * e →
  Z.abs a ≤ Vb → Z.abs b ≤ Wb → Z.abs c ≤ Wb →
  Z.abs d ≤ Pb → Z.abs e ≤ Pb →
  Z.abs x ≤ 2 ^ 50.
Proof.
  intros -> Ha Hb Hc Hd He. rewrite !Z.abs_mul.
  pose proof (Z.abs_nonneg a). pose proof (Z.abs_nonneg b).
  pose proof (Z.abs_nonneg c). pose proof (Z.abs_nonneg d).
  pose proof (Z.abs_nonneg e).
  transitivity (Vb * Wb * Wb * Pb * Pb); [|lia].
  repeat apply Z.mul_le_mono_nonneg; try done;
    repeat apply Z.mul_nonneg_nonneg; done.
Qed.

Ltac small a b c d e :=
  let Hs := fresh "Hs" in
  assert (Hs := small_product _ a b c d e eq_refl);
  repeat (lazymatch type of Hs with
          | _ → _ => specialize (Hs ltac:(lia))
          end).

(** [lagrange * (weights[k][s]**2) * (pieces**2) + (C-values[k])*pieces] *)
Lemma z_linear_bias_exact (lagrange wt val p : Z) :
  Z.abs lagrange ≤ Vb → Z.abs wt ≤ Wb → Z.abs val ≤ Vb → 0 ≤ p ≤ Pb →
  dbl (add_int (mul_int (mul_int lagrange (wrap64 (wt ^ 2)))
                        (wrap64 (p ^ 2)))
               (wrap64 (wrap64 (C - val) * p)))
  = (dbl lagrange * ofZ (wt ^ 2 * p ^ 2) + ofZ ((C - val) * p))%Qc.
Proof.
  intros Hl Hwt Hval Hp. unfold C.
  small 1 wt wt 1 1. small lagrange wt wt 1 1. small 1 1 1 p p.
  small lagrange wt wt p p. small val 1 1 1 1. small val 1 1 p 1.
  rewrite (wrap64_small (wt ^ 2)) by lia.
  rewrite (wrap64_small (p ^ 2)) by lia.
  rewrite (wrap64_small (0 - val)) by lia.
  rewrite (wrap64_small ((0 - val) * p)) by lia.
  rewrite (mul_int_small lagrange) by lia.
  rewrite mul_int_small by lia.
  rewrite add_int_small by lia.
  rewrite dbl_add_int, !dbl_mul, !ofZ_mul. ring.
Qed.

(** [(2 * lagrange * weights[i][s1] * weights[j][s2])*piece1*piece2] *)
Lemma zz_bias_exact (lagrange wt1 wt2 p1 p2 : Z) :
  Z.abs lagrange ≤ Vb → Z.abs wt1 ≤ Wb → Z.abs wt2 ≤ Wb →
  0 ≤ p1 ≤ Pb → 0 ≤ p2 ≤ Pb →
  dbl (mul_int (mul_int (mul_int (mul_int (mul_int lagrange 2) wt1) wt2)
                        p1) p2)
  = (dbl lagrange * ofZ (2 * (wt1 * p1 * (wt2 * p2))))%Qc.
Proof.
  intros Hl Hwt1 Hwt2 Hp1 Hp2.
  small lagrange 1 1 1 1. small lagrange wt1 1 1 1.
  small lagrange wt1 wt2 1 1. small lagrange wt1 wt2 p1 1.
  small lagrange wt1 wt2 p1 p2.
  small 1 wt1 1 1 1. small 1 wt2 1 1 1. small 1 1 1 p1 1. small 1 1 1 p2 1.
  rewrite (mul_int_small lagrange) by lia.
  rewrite (mul_int_small _ wt1) by lia.
  rewrite (mul_int_small _ wt2) by lia.
  rewrite (mul_int_small _ p1) by lia.
  rewrite (mul_int_small _ p2) by lia.
  rewrite !dbl_mul, !ofZ_mul. ring.
Qed.

(** [lagrange*np.array([0,1])*(w[k]**2)] *)
Lemma w_linear_bias_exact (lagrange wk c : Z) :
  Z.abs lagrange ≤ Vb → Z.abs wk ≤ Wb → 0 ≤ c ≤ 1 →
  dbl (mul_int (mul_int lagrange c) (wk ^ 2))
  = (dbl lagrange * ofZ (wk ^ 2 * c))%Qc.
Proof.
  intros Hl Hwk Hc. assert (c = 0 ∨ c = 1) as [-> | ->] by lia.
  all: small lagrange 1 1 1 1; small lagrange wk wk 1 1.
  all: small 1 wk wk 1 1.
  all: rewrite (mul_int_small lagrange) by lia.
  all: rewrite mul_int_small by lia.
  all: rewrite !dbl_mul, !ofZ_mul; ring.
Qed.

(** [2 * lagrange * w[i] * w[j]] *)
Lemma ww_bias_exact (lagrange wi wj : Z) :
  Z.abs lagrange ≤ Vb → Z.abs wi ≤ Wb → Z.abs wj ≤ Wb →
  dbl (mul_int (mul_int (mul_int lagrange 2) wi) wj)
  = (dbl lagrange * ofZ (2 * (wi * wj)))%Qc.
Proof.
  intros Hl Hwi Hwj.
  small lagrange 1 1 1 1. small lagrange wi 1 1 1.
  small lagrange wi wj 1 1. small 1 wi 1 1 1. small 1 wj 1 1 1.
  rewrite (mul_int_small lagrange) by lia.
  rewrite (mul_int_small _ wi) by lia.
  rewrite (mul_int_small _ wj) by lia.
  rewrite !dbl_mul, !ofZ_mul. ring.
Qed.

(** [-2 * lagrange * weights[i][s] * w[j]*piece1] *)
Lemma zw_bias_exact (lagrange wt wj p : Z) :
  Z.abs lagrange ≤ Vb → Z.abs wt ≤ Wb → Z.abs wj ≤ Wb → 0 ≤ p ≤ Pb →
  dbl (mul_int (mul_int (mul_int (mul_int lagrange (-2)) wt) wj) p)
  = (dbl lagrange * ofZ (-2 * (wt * p * wj)))%Qc.
Proof.
  intros Hl Hwt Hwj Hp.
  small lagrange 1 1 1 1. small lagrange wt 1 1 1.
  small lagrange wt wj 1 1. small lagrange wt wj p 1.
  small 1 wt 1 1 1. small 1 wj 1 1 1. small 1 1 1 p 1.
  rewrite (mul_int_small lagrange) by lia.
  rewrite (mul_int_small _ wt) by lia.
  rewrite (mul_int_small _ wj) by lia.
  rewrite (mul_int_small _ p) by lia.
  rewrite !dbl_mul, !ofZ_mul. ring.
Qed.

End Exact.


(** ** The model combiner *)

Section Combiner.
Context {E : Type} `{Countable E}.
Variable U : list E.
Variable V : list (gset E).

Lemma sum_I_row (i : nat) :
  (1 ≤ i ≤ length V)%nat →
  sumZ id (I U V !!! (i - 1)%nat)
  = sumZ (λ a, I_at U V (i - 1) (a - 1)) (range 1 (length U + 1)).
Proof.
  intros Hi. rewrite sumZ_row, length_I_row by lia. done.
Qed.

Lemma dot_I_rows (i j : nat) :
  (1 ≤ i ≤ length V)%nat → (1 ≤ j ≤ length V)%nat →
  dot (I U V !!! (i - 1)%nat) (I U V !!! (j - 1)%nat)
  = sumZ (λ a, I_at U V (i - 1) (a - 1) * I_at U V (j - 1) (a - 1))
         (range 1 (length U + 1)).
Proof.
  intros Hi Hj. rewrite dot_rows, !length_I_row by (rewrite ?length_I_row; lia).
  done.
Qed.

(** A loop whose body does not use its index repeats its write. *)
Lemma bind_replicate {X Y} (c : Y) (l : list X) :
  (_ ← l; [c]) = replicate (length l) c.
Proof. induction l as [|x l IH]; csimpl; [done|]. by f_equal. Qed.

Lemma h3_terms_replicate (values : list Z) (bound0 : list nat) (M : nat) :
  Combined.h3_terms V values bound0 M
  = i ← range 0 (Combined.x_size values);
    s ← range 1 (length V);
    replicate (M + 1)
      (Combined.DSetQuadratic (Combined.z_label i s) (x_label (s + 1))
         (Combined.h3_biases bound0 i)).
Proof.
  unfold Combined.h3_terms, Combined.num_slack_variables.
  apply list_bind_ext; [intros i|done].
  apply list_bind_ext; [intros s|done].
  rewrite bind_replicate. f_equal. unfold range. rewrite length_seq. lia.
Qed.

(** C4 (as amended). Assigning a quadratic coefficient, or setting the
    biases of the discrete model, under a key the model already holds
    replaces what was there: afterwards the key maps to the new
    coefficient alone.  Only [add_variable] accumulates.
    [build_setcover_bqm] writes every linear and every quadratic key
    exactly once, and the coefficient it writes is already the sum of the
    contributions of the penalty blocks that share the key.  The combined
    cell sets the linear biases of every variable once and writes every
    quadratic key of its knapsack and set-cover blocks once; its H3 block
    writes each of its keys, which no earlier block uses, [M + 1] times,
    every time with the same biases. *)
Theorem coefficient_writes_replace :
  (∀ (bqm bqm' : BQM) key c,
     set_quadratic key c bqm = Ok bqm' →
     quadratic_getitem key bqm' = Some c)
  ∧ (∀ (dqm dqm' : Combined.DQM) v biases,
       Combined.dqm_set_linear v biases dqm = Ok dqm' →
       Combined.dlinear dqm' !! v = Some biases)
  ∧ (∀ (dqm dqm' : Combined.DQM) u v biases c b,
       Combined.dqm_set_quadratic u v biases dqm = Ok dqm' →
       list_to_map (M := gmap (nat * nat) Qc) biases !! c = Some b →
       Combined.quadratic_bias dqm' u v c.1 c.2 = b)
  ∧ (∀ (bqm : BQM) v c0 c,
       linear bqm !! v = Some c0 →
       linear (add_variable v c bqm) !! v = Some (c0 + c))
  ∧ NoDup (linear_keys (setcover_writes U V))
  ∧ NoDup (quadratic_keys (setcover_writes U V))
  ∧ NoDup (interactions (setcover_writes U V))
  ∧ (∃ bqm xs,
      build_setcover_bqm U V = Ok (bqm, xs)
      ∧ (∀ a m, (1 ≤ a ≤ length U)%nat → (1 ≤ m ≤ length V)%nat →
           linear bqm !! y_label a m = Some (A * Z.of_nat m ^ 2 + - A))
      ∧ (∀ i, (1 ≤ i ≤ length V)%nat →
           linear bqm !! x_label i
           = Some (sumZ (λ a, A * I_at U V (i - 1) (a - 1))
                        (range 1 (length U + 1)) + B))
      ∧ (∀ a m n, (1 ≤ a ≤ length U)%nat →
           (1 ≤ m)%nat → (m < n)%nat → (n ≤ length V)%nat →
           quadratic bqm !! (y_label a m, y_label a n)
           = Some (2 * A + 2 * A * (Z.of_nat m * Z.of_nat n)))
      ∧ (∀ i j, (1 ≤ i)%nat → (i < j)%nat → (j ≤ length V)%nat →
           quadratic bqm !! (x_label i, x_label j)
           = Some (sumZ (λ a, 2 * A * (I_at U V (i - 1) (a - 1)
                                       * I_at U V (j - 1) (a - 1)))
                        (range 1 (length U + 1)))))
  ∧ (∀ (weights : list (list Z)) (values : list Z) (bound0 : list nat)
       (lagrange : Z) (M : nat) (w : list Z),
       NoDup (Energy.dlinear_keys
                (Combined.combined_writes U V weights values bound0
                   lagrange M w))
       ∧ NoDup (Energy.dquadratic_keys
                  (Combined.knapsack_and_cover_writes U V weights values
                     bound0 lagrange M w))
       ∧ Combined.h3_terms V values bound0 M
         = (i ← range 0 (Combined.x_size values);
            s ← range 1 (length V);
            replicate (M + 1)
              (Combined.DSetQuadratic
                 (Combined.z_label i s) (x_label (s + 1))
                 (Combined.h3_biases bound0 i)))
       ∧ (∀ key, key ∈ Energy.dquadratic_keys
                         (Combined.h3_terms V values bound0 M) →
            key ∉ Energy.dquadratic_keys
                    (Combined.knapsack_and_cover_writes U V weights values
                       bound0 lagrange M w))).
Proof.
  split_and!.
  - intros bqm bqm' key c. apply set_quadratic_replaces.
  - intros dqm dqm' v biases. unfold Combined.dqm_set_linear.
    destruct (Combined.num_cases dqm !! v) as [n|]; [|done].
    case_decide; [|done]. intros [= <-]. simpl. apply lookup_insert_eq.
  - intros dqm dqm' u v biases [cu cv] b.
    unfold Combined.dqm_set_quadratic, reject_self_pair.
    destruct (Combined.num_cases dqm !! u) as [nu|]; [|done].
    destruct (Combined.num_cases dqm !! v) as [nv|]; [|done].
    case_decide; [done|]. simpl. case_decide; [|done]. intros [= <-] Hb.
    unfold Combined.quadratic_bias. simpl.
    rewrite lookup_insert_eq. simpl.
    by erewrite lookup_union_Some_l.
  - intros bqm v c0 c. apply add_variable_accumulates.
  - apply NoDup_linear_keys_setcover.
  - apply NoDup_quadratic_keys_setcover.
  - apply NoDup_interactions_setcover.
  - eexists _, _. split; [apply build_setcover_bqm_ok|]. simpl. split_and!.
    + intros a m Ha Hm. rewrite setcover_linear_y by done. f_equal. lia.
    + intros i Hi. rewrite setcover_linear_x by done. f_equal.
      rewrite sum_I_row, sumZ_scale by done. done.
    + intros a m n Ha Hm Hmn Hn. apply setcover_quadratic_key.
      right; left. exists m, n, a. split_and!; try done; lia.
    + intros i j Hi Hij Hj. apply setcover_quadratic_key.
      left. exists i, j. split_and!; try done.
      rewrite dot_I_rows, sumZ_scale by lia. lia.
  - intros weights values bound0 lagrange M w. split_and!.
    + unfold Combined.combined_writes. rewrite dlinear_keys_app.
      replace (Energy.dlinear_keys (Combined.h3_terms V values bound0 M))
        with (@nil string)
        by (symmetry; unfold Combined.h3_terms; no_linear_keys).
      rewrite app_nil_r. apply NoDup_dlinear_keys_base.
    + apply NoDup_dquadratic_keys_base.
    + apply h3_terms_replicate.
    + intros [u v] Hh3 Hbase.
      apply dquadratic_key_write in Hh3 as [b Hb].
      apply dquadratic_key_write in Hbase as [b' Hb'].
      apply elem_of_h3 in Hb as (i & s & Heq & _).
      write_inj Heq. subst. by eapply base_no_zx.
Qed.

(** C7. The insertion of a quadratic coefficient rejects a self-pair: for
    every variable [v] it fails instead of storing a diagonal entry.  The
    builder never asks for one (its pair loops start at [i + 1], and an
    [x] is never a [y]), so it runs to completion and its model has no
    diagonal entry; the squares [y^2 = y] and [x^2 = x] of the expanded
    penalties are part of the linear coefficients instead. *)
Theorem self_pair_rejected :
  (∀ (bqm : BQM) v c, ∃ e, set_quadratic (v, v) c bqm = Raise e)
  ∧ Forall no_self_pair (setcover_writes U V)
  ∧ ∃ bqm xs,
      build_setcover_bqm U V = Ok (bqm, xs)
      ∧ (∀ v, quadratic bqm !! (v, v) = None)
      ∧ (∀ a m, (1 ≤ a ≤ length U)%nat → (1 ≤ m ≤ length V)%nat →
           linear bqm !! y_label a m
           = Some (A * Z.of_nat m ^ 2 + A * 1 ^ 2 - 2 * A))
      ∧ (∀ i, (1 ≤ i ≤ length V)%nat →
           linear bqm !! x_label i
           = Some (sumZ (λ a, A * I_at U V (i - 1) (a - 1) ^ 2)
                        (range 1 (length U + 1)) + B)).
Proof.
  split_and!.
  - intros bqm v c. unfold set_quadratic, reject_self_pair. simpl.
    rewrite decide_True by done. simpl. eauto.
  - apply no_self_pair_setcover.
  - eexists _, _. split; [apply build_setcover_bqm_ok|]. simpl. split_and!.
    + intros v. apply eq_None_not_Some. intros [c Hc].
      apply setcover_quadratic_key in Hc
        as [(i & j & ? & ? & ? & Hk & _)
           |[(m & n & a & ? & ? & ? & ? & Hk & _)
            |(i & m & a & ? & ? & ? & Hk & _)]].
      * assert (x_label i = x_label j) as ?%x_label_inj by congruence. lia.
      * assert (y_label a m = y_label a n) as [_ ?]%y_label_inj by congruence.
        lia.
      * assert (x_label i = y_label a m) as ?%x_label_ne_y_label by congruence.
        done.
    + intros a m Ha Hm. rewrite setcover_linear_y by done. f_equal. lia.
    + intros i Hi. rewrite setcover_linear_x by done. f_equal.
      rewrite sum_I_row by done. f_equal. rewrite <- sumZ_scale.
      apply sumZ_ext. intros a _. by rewrite I_at_square.
Qed.

(** The keys of the finished set-cover model. *)
Lemma setcover_keys_canonical (u v : string) (c : Z) :
  list_to_map (M := gmap (string * string) Z)
    (quadratic_entries (setcover_writes U V)) !! (u, v) = Some c →
  (∃ i j, (1 ≤ i)%nat ∧ (i < j)%nat ∧ (j ≤ length V)%nat
          ∧ u = x_label i ∧ v = x_label j)
  ∨ (∃ a m n, (1 ≤ a ≤ length U)%nat
              ∧ (1 ≤ m)%nat ∧ (m < n)%nat ∧ (n ≤ length V)%nat
              ∧ u = y_label a m ∧ v = y_label a n)
  ∨ (∃ i a m, (1 ≤ i ≤ length V)%nat ∧ (1 ≤ a ≤ length U)%nat
              ∧ (1 ≤ m ≤ length V)%nat
              ∧ u = x_label i ∧ v = y_label a m).
Proof.
  intros [(i & j & ? & ? & ? & Hk & _)
         |[(m & n & a & ? & ? & ? & ? & Hk & _)
          |(i & m & a & ? & ? & ? & Hk & _)]]%setcover_quadratic_key.
  - left. exists i, j. split_and!; first [done|lia|congruence].
  - right; left. exists a, m, n. split_and!; first [done|lia|congruence].
  - right; right. exists i, a, m. split_and!; first [done|lia|congruence].
Qed.

Lemma setcover_one_order (u v : string) :
  is_Some (list_to_map (M := gmap (string * string) Z)
             (quadratic_entries (setcover_writes U V)) !! (u, v)) →
  list_to_map (M := gmap (string * string) Z)
    (quadratic_entries (setcover_writes U V)) !! (v, u) = None.
Proof.
  intros [c Hc]. apply eq_None_not_Some. intros [c' Hc'].
  apply setcover_keys_canonical in Hc, Hc'.
  destruct Hc as [(i & j & ? & ? & ? & -> & ->)
                 |[(a & m & n & ? & ? & ? & ? & -> & ->)
                  |(i & a & m & ? & ? & ? & -> & ->)]];
  destruct Hc' as [(i' & j' & ? & ? & ? & Hu & Hv)
                  |[(a' & m' & n' & ? & ? & ? & ? & Hu & Hv)
                   |(i' & a' & m' & ? & ? & ? & Hu & Hv)]];
  label_eq; lia.
Qed.

End Combiner.

(** C4, counterexample: a second assignment under the same quadratic key
    leaves the second coefficient, not the sum. *)
Lemma quadratic_assignment_overwrites :
  quadratic (quadratic_setitem ("x_1", "x_2") 3 empty_bqm) !! ("x_1", "x_2")
    = Some 3
  ∧ set_quadratic ("x_1", "x_2") 5
      (quadratic_setitem ("x_1", "x_2") 3 empty_bqm)
    = Ok (quadratic_setitem ("x_1", "x_2") 5
            (quadratic_setitem ("x_1", "x_2") 3 empty_bqm))
  ∧ quadratic (quadratic_setitem ("x_1", "x_2") 5
                 (quadratic_setitem ("x_1", "x_2") 3 empty_bqm))
      !! ("x_1", "x_2") = Some 5
  ∧ Some 5 ≠ Some (3 + 5).
Proof. split_and!; [by vm_compute..|]. intros [=]. Qed.




(** C8, counterexample: for the bound 0 the slack setup raises; it does
    not return the empty encoding. *)
Lemma slack_weights_zero_raises :
  Slack.slack_weights 0 = Raise (ValueError "math domain error")
  ∧ Slack.slack_weights 0 ≠ Ok [].
Proof. split; [done|]. intros [=]. Qed.

(** C8 (as amended). For the bound 0, as for every negative bound, the
    slack setup fails with [ValueError] (the domain error of [log2]) and
    returns no encoding. *)
Theorem slack_weights_nonpositive (bound : Z) :
  bound ≤ 0 →
  Slack.slack_weights bound = Raise (ValueError "math domain error")
  ∧ ∀ w, Slack.slack_weights bound ≠ Ok w.
Proof.
  intros Hb. unfold Slack.slack_weights, Slack.floor_log2.
  rewrite decide_True by done. simpl. split; [done|]. intros w [=].
Qed.

Lemma slack_weights_nonpositive_witness :
  (Slack.slack_weights 0 = Raise (ValueError "math domain error")
   ∧ ∀ w, Slack.slack_weights 0 ≠ Ok w)
  ∧ (Slack.slack_weights (-3) = Raise (ValueError "math domain error")
     ∧ ∀ w, Slack.slack_weights (-3) ≠ Ok w).
Proof.
  split; [apply (slack_weights_nonpositive 0)
         |apply (slack_weights_nonpositive (-3))]; lia.
Defined.

(** ** The combined model *)

Section CombinedClaims.
Import Combined.
Context {E : Type} `{Countable E}.
Variable U : list E.
Variable S : list (gset E).
Variable weights : list (list Z).
Variable weight_capacity : Z.
Variable values : list Z.
Variable bound0 : list nat.

Lemma build_with_dfold (writes : Z → nat → list Z → list dwrite) :
  values ≠ [] → 1 ≤ weight_capacity →
  (∀ lagrange M w, daccepted empty_dqm (writes lagrange M w)) →
  ∃ vmax M,
    py_max values = Ok vmax
    ∧ Slack.floor_log2 weight_capacity = Ok (Z.of_nat M)
    ∧ build_with weight_capacity values writes
      = Ok (dfold (writes (Float64.round53 vmax) M
                          (Slack.weights_for M weight_capacity))
                  empty_dqm).
Proof.
  intros Hvalues Hcap Hacc. unfold build_with.
  destruct values as [|v vs]; [done|]. simpl.
  destruct (floor_log2_ok weight_capacity Hcap) as [M HM].
  exists (foldl Z.max v vs), M. split; [done|]. split; [done|].
  rewrite HM. simpl. rewrite Nat2Z.id. by apply drun_dfold.
Qed.

Lemma bound_at_lookup (k b : nat) :
  bound0 !! k = Some b → bound_at bound0 k = (b + 1)%nat.
Proof.
  intros Hb. unfold bound_at, bound. by rewrite list_lookup_fmap, Hb.
Qed.

Lemma weight_at_lookup (k s : nat) (row : list Z) (c : Z) :
  weights !! k = Some row → row !! s = Some c → weight_at weights k s = c.
Proof.
  intros Hrow Hc. unfold weight_at.
  by rewrite (list_lookup_total_correct _ _ _ Hrow), Hc.
Qed.

(** For well-shaped tables every lookup of the loops is in range. *)
Lemma well_shaped_lookups (k s : nat) :
  well_shaped S weights values bound0 →
  (k < x_size values)%nat → (s < length S)%nat →
  ∃ row c b, weights !! k = Some row ∧ row !! s = Some c
             ∧ bound0 !! k = Some b ∧ is_Some (values !! k)
             ∧ weight_at weights k s = c
             ∧ bound_at bound0 k = (b + 1)%nat.
Proof.
  intros (Hw & Hb & Hrows) Hk Hs. unfold x_size in Hk.
  destruct (lookup_lt_is_Some_2 weights k) as [row Hrow]; [lia|].
  destruct (lookup_lt_is_Some_2 bound0 k) as [b Hbk]; [lia|].
  assert (Hlen : length row = length S).
  { by eapply (proj1 (Forall_lookup _ _) Hrows). }
  destruct (lookup_lt_is_Some_2 row s) as [c Hc]; [lia|].
  exists row, c, b. split_and!; try done.
  - by apply lookup_lt_is_Some_2.
  - by eapply weight_at_lookup.
  - by apply bound_at_lookup.
Qed.

Lemma well_shaped_bounds :
  well_shaped S weights values bound0 →
  ∀ k, (k < x_size values)%nat → bound_at bound0 k ≠ 0%nat.
Proof.
  intros (_ & Hb & _) k Hk. unfold x_size in Hk.
  destruct (lookup_lt_is_Some_2 bound0 k) as [b Hbk]; [lia|].
  rewrite (bound_at_lookup k b Hbk). lia.
Qed.

(** On well-shaped tables with a price and a positive budget the cell
    runs through, with or without its H3 block. *)
Lemma build_combined_dqm_dfold :
  well_shaped S weights values bound0 →
  values ≠ [] → 1 ≤ weight_capacity →
  ∃ vmax M,
    py_max values = Ok vmax
    ∧ Slack.floor_log2 weight_capacity = Ok (Z.of_nat M)
    ∧ build_combined_dqm U S weights weight_capacity values bound0
      = Ok (dfold (combined_writes U S weights values bound0
                     (Float64.round53 vmax) M
                     (Slack.weights_for M weight_capacity)) empty_dqm)
    ∧ build_without_h3 U S weights weight_capacity values bound0
      = Ok (dfold (knapsack_and_cover_writes U S weights values bound0
                     (Float64.round53 vmax) M
                     (Slack.weights_for M weight_capacity)) empty_dqm).
Proof.
  intros Hshape Hvalues Hcap.
  destruct (build_with_dfold (combined_writes U S weights values bound0))
    as (vmax & M & Hmax & HM & Hbuild); [done..| |].
  { intros. by apply daccepted_writes, well_shaped_bounds. }
  destruct (build_with_dfold
              (knapsack_and_cover_writes U S weights values bound0))
    as (vmax' & M' & Hmax' & HM' & Hbuild0); [done..| |].
  { intros. by apply daccepted_base, well_shaped_bounds. }
  assert (vmax' = vmax) as -> by congruence.
  assert (M' = M) as -> by (apply Nat2Z.inj; congruence).
  by exists vmax, M.
Qed.

(** C9. For every pair (item [k], supplier [s]) whose cost is the
    sentinel [-1], the combined builder still declares [z_(k,s)] with the
    full domain [0 .. bound[k]], and computes its linear bias and its
    couplings to the slack bits and to the purchase variables of the
    other items with [-1] as the cost: the doubles
    [lagrange * (-1)**2 * piece**2 + (C - values[k]) * piece], which for
    prices and quantities of moderate size are these numbers exactly,
    and cross terms with the factor [-1].  The model has a bias for every
    quantity up to the bound: it does not exclude the purchase. *)
Theorem unavailable_pair_still_purchasable
    (k s b : nat) (row : list Z) :
  well_shaped S weights values bound0 →
  values ≠ [] → 1 ≤ weight_capacity →
  (k < length values)%nat → (s < length S)%nat →
  bound0 !! k = Some b →
  weights !! k = Some row → row !! s = Some (-1) →
  ∃ dqm vmax M,
    build_combined_dqm U S weights weight_capacity values bound0 = Ok dqm
    ∧ py_max values = Ok vmax
    ∧ Slack.floor_log2 weight_capacity = Ok (Z.of_nat M)
    ∧ num_cases dqm !! z_label k s = Some (b + 1)%nat
    ∧ dlinear dqm !! z_label k s
      = Some ((λ p : nat,
                 dbl (Float64.add_int
                        (Float64.mul_int
                           (Float64.mul_int (Float64.round53 vmax)
                              (Float64.wrap64 ((-1) ^ 2)))
                           (Float64.wrap64 (Z.of_nat p ^ 2)))
                        (Float64.wrap64
                           (Float64.wrap64 (C - value_at values k)
                            * Z.of_nat p))))
              <$> range 0 (b + 1))
    ∧ (∀ piece, (piece ≤ b)%nat →
         ∃ bias, dlinear dqm !! z_label k s ≫= (.!! piece) = Some bias)
    ∧ ((Z.abs vmax + Z.abs (value_at values k) + 1) * (Z.of_nat b + 1) ^ 2
         ≤ 2 ^ 50 →
       ∀ piece, (piece ≤ b)%nat →
         dlinear dqm !! z_label k s ≫= (.!! piece)
         = Some ((ofZ vmax * half) * ofZ ((-1) ^ 2)
                   * ofZ (Z.of_nat piece ^ 2)
                 + ofZ ((C - value_at values k) * Z.of_nat piece))%Qc)
    ∧ (∀ j, (j < M + 1)%nat →
         dquadratic dqm !! (z_label k s, w_label j)
         = Some (list_to_map
                   (piece1 ← range 0 (b + 1);
                    [((piece1, 1%nat),
                      dbl (Float64.mul_int
                             (Float64.mul_int
                                (Float64.mul_int
                                   (Float64.mul_int (Float64.round53 vmax)
                                      (-2))
                                   (-1))
                                (w_at (Slack.weights_for M weight_capacity)
                                      j))
                             (Z.of_nat piece1)))])))
    ∧ (∀ j s2, (k < j)%nat → (j < length values)%nat →
         (s2 < length S)%nat →
         dquadratic dqm !! (z_label k s, z_label j s2)
         = Some (list_to_map
                   (piece1 ← range 0 (b + 1);
                    piece2 ← range 0 (bound_at bound0 j);
                    [((piece1, piece2),
                      dbl (Float64.mul_int
                             (Float64.mul_int
                                (Float64.mul_int
                                   (Float64.mul_int
                                      (Float64.mul_int
                                         (Float64.round53 vmax) 2)
                                      (-1))
                                   (weight_at weights j s2))
                                (Z.of_nat piece1))
                             (Z.of_nat piece2)))])))
    ∧ (∀ j s2, (j < k)%nat → (s2 < length S)%nat →
         dquadratic dqm !! (z_label j s2, z_label k s)
         = Some (list_to_map
                   (piece1 ← range 0 (bound_at bound0 j);
                    piece2 ← range 0 (b + 1);
                    [((piece1, piece2),
                      dbl (Float64.mul_int
                             (Float64.mul_int
                                (Float64.mul_int
                                   (Float64.mul_int
                                      (Float64.mul_int
                                         (Float64.round53 vmax) 2)
                                      (weight_at weights j s2))
                                   (-1))
                                (Z.of_nat piece1))
                             (Z.of_nat piece2)))]))).
Proof.
  intros Hshape Hvalues Hcap Hk Hs Hb Hrow Hcost.
  destruct (build_combined_dqm_dfold Hshape Hvalues Hcap)
    as (vmax & M & Hmax & HM & Hbuild & _).
  eexists _, vmax, M. split; [exact Hbuild|]. split; [done|].
  split; [done|].
  pose proof (bound_at_lookup k b Hb) as Hbk.
  pose proof (weight_at_lookup k s row (-1) Hrow Hcost) as Hw.
  set (biases := (λ p : nat,
                 dbl (Float64.add_int
                        (Float64.mul_int
                           (Float64.mul_int (Float64.round53 vmax)
                              (Float64.wrap64 ((-1) ^ 2)))
                           (Float64.wrap64 (Z.of_nat p ^ 2)))
                        (Float64.wrap64
                           (Float64.wrap64 (C - value_at values k)
                            * Z.of_nat p))))
              <$> range 0 (b + 1)).
  assert (Hlin : dlinear
            (dfold (combined_writes U S weights values bound0
                      (Float64.round53 vmax) M
                      (Slack.weights_for M weight_capacity)) empty_dqm)
            !! z_label k s = Some biases).
  { rewrite dlinear_z by done. unfold z_linear_biases. by rewrite Hbk, Hw. }
  split_and!.
  - rewrite num_cases_z by done. by rewrite Hbk.
  - exact Hlin.
  - intros piece Hpiece. rewrite Hlin. simpl.
    apply lookup_lt_is_Some_2. unfold biases.
    rewrite length_fmap. unfold range. rewrite length_seq. lia.
  - intros Hsmall piece Hpiece. rewrite Hlin. simpl. unfold biases.
    rewrite list_lookup_fmap, lookup_range by lia.
    cbn [fmap option_fmap option_map Nat.add]. f_equal.
    assert (Z.abs vmax < 2 ^ 53) by nia.
    rewrite round53_small by done.
    rewrite (z_linear_bias_exact
               (Z.abs vmax + Z.abs (value_at values k) + 1) 1
               (Z.of_nat b + 1)) by lia.
    rewrite !ofZ_mul. unfold dbl. ring.
  - intros j Hj. rewrite dquadratic_zw by done.
    unfold zw_biases. by rewrite Hbk, Hw.
  - intros j s2 Hkj Hj Hs2. rewrite dquadratic_zz by done.
    unfold zz_biases. by rewrite Hbk, Hw.
  - intros j s2 Hjk Hs2. rewrite dquadratic_zz by (done || lia).
    unfold zz_biases. by rewrite Hbk, Hw.
Qed.



(** The keys of the finished combined model. *)
Lemma combined_key_forms (lagrange : Z) (M : nat) (w : list Z)
    (u v : string) :
  is_Some (dquadratic
             (dfold (combined_writes U S weights values bound0 lagrange M w)
                    empty_dqm) !! (u, v)) →
  (∃ i j, (1 ≤ i)%nat ∧ (i < j)%nat ∧ (j ≤ length S)%nat
          ∧ u = x_label i ∧ v = x_label j)
  ∨ (∃ a m n, (1 ≤ m)%nat ∧ (m < n)%nat ∧ (n ≤ length S)%nat
              ∧ u = y_label a m ∧ v = y_label a n)
  ∨ (∃ i a m, u = x_label i ∧ v = y_label a m)
  ∨ (∃ i j s1 s2, (i < j)%nat ∧ u = z_label i s1 ∧ v = z_label j s2)
  ∨ (∃ i j, (i < j)%nat ∧ u = w_label i ∧ v = w_label j)
  ∨ (∃ i s j, u = z_label i s ∧ v = w_label j)
  ∨ (∃ i s, u = z_label i s ∧ v = x_label (s + 1)).
Proof.
  intros Huv.
  destruct (quadratic_key_cases
              (combined_writes U S weights values bound0 lagrange M w) u v)
    as [[b Hb]|Hnone].
  2:{ rewrite dquadratic_dfold_notin in Huv by done.
      by apply is_Some_None in Huv. }
  clear Huv. classify Hb; subst.
  - do 3 right. left. eauto 10.
  - do 4 right. left. eauto 10.
  - do 5 right. left. eauto 10.
  - left. eauto 10.
  - right. left. eauto 10.
  - right. right. left. eauto 10.
  - do 6 right. eauto.
Qed.


End CombinedClaims.

Section CombinedWitnesses.
Import Combined.

(** The model of the combined cell on the small instance, evaluated: item
    1 is not sold by supplier 1 ([W_ex[1][1] = -1]), yet [z1,1] has its two
    cases, its profit reward and its couplings; the constraint-3 entries
    are all zero, and supplier 0 has none. *)
Example build_combined_dqm_ex :
  match build_combined_dqm U_ex S_ex W_ex 100 V_ex bound_ex with
  | Ok dqm =>
      num_cases dqm !! "z1,1" = Some 2%nat
      ∧ fmap (M := list) this <$> dlinear dqm !! "z1,1"
        = Some [0%Q; (-15)%Q]
      ∧ this <$> (dquadratic dqm !! ("z1,1", "w6") ≫= (.!! (1, 1)%nat))
        = Some (1110 # 1)
      ∧ this <$> (dquadratic dqm !! ("z0,1", "x_2") ≫= (.!! (2, 1)%nat))
        = Some 0%Q
      ∧ dquadratic dqm !! ("z0,0", "x_1") = None
  | Raise _ => False
  end.
Proof. vm_compute. split_and!; reflexivity. Qed.

(** The three-item instance: item 1 is not sold by supplier 1, yet
    [z1,1] is coupled to the purchase variables of the items before and
    after it, with the cost [-1]: [2 * 15 * 11 * (-1)] and
    [2 * 15 * (-1) * 5] for one unit of each. *)
Example build_combined_dqm_ex3 :
  match build_combined_dqm U_ex3 S_ex3 W_ex3 100 V_ex3 bound_ex3 with
  | Ok dqm =>
      num_cases dqm !! "z1,1" = Some 2%nat
      ∧ this <$> (dquadratic dqm !! ("z0,0", "z1,1") ≫= (.!! (1, 1)%nat))
        = Some (-330 # 1)
      ∧ this <$> (dquadratic dqm !! ("z1,1", "z2,0") ≫= (.!! (1, 1)%nat))
        = Some (-150 # 1)
  | Raise _ => False
  end.
Proof. vm_compute. split_and!; reflexivity. Qed.

Lemma unavailable_pair_still_purchasable_witness :
  ∃ dqm vmax M,
    build_combined_dqm U_ex3 S_ex3 W_ex3 100 V_ex3 bound_ex3 = Ok dqm
    ∧ py_max V_ex3 = Ok vmax
    ∧ Slack.floor_log2 100 = Ok (Z.of_nat M)
    ∧ num_cases dqm !! z_label 1 1 = Some (1 + 1)%nat
    ∧ dlinear dqm !! z_label 1 1
      = Some ((λ p : nat,
                 dbl (Float64.add_int
                        (Float64.mul_int
                           (Float64.mul_int (Float64.round53 vmax)
                              (Float64.wrap64 ((-1) ^ 2)))
                           (Float64.wrap64 (Z.of_nat p ^ 2)))
                        (Float64.wrap64
                           (Float64.wrap64 (C - value_at V_ex3 1)
                            * Z.of_nat p))))
              <$> range 0 (1 + 1))
    ∧ (∀ piece, (piece ≤ 1)%nat →
         ∃ bias, dlinear dqm !! z_label 1 1 ≫= (.!! piece) = Some bias)
    ∧ ((Z.abs vmax + Z.abs (value_at V_ex3 1) + 1) * (Z.of_nat 1 + 1) ^ 2
         ≤ 2 ^ 50 →
       ∀ piece, (piece ≤ 1)%nat →
         dlinear dqm !! z_label 1 1 ≫= (.!! piece)
         = Some ((ofZ vmax * half) * ofZ ((-1) ^ 2)
                   * ofZ (Z.of_nat piece ^ 2)
                 + ofZ ((C - value_at V_ex3 1) * Z.of_nat piece))%Qc)
    ∧ (∀ j, (j < M + 1)%nat →
         dquadratic dqm !! (z_label 1 1, w_label j)
         = Some (list_to_map
                   (piece1 ← range 0 (1 + 1);
                    [((piece1, 1%nat),
                      dbl (Float64.mul_int
                             (Float64.mul_int
                                (Float64.mul_int
                                   (Float64.mul_int (Float64.round53 vmax)
                                      (-2))
                                   (-1))
                                (w_at (Slack.weights_for M 100)
                                      j))
                             (Z.of_nat piece1)))])))
    ∧ (∀ j s2, (1 < j)%nat → (j < length V_ex3)%nat →
         (s2 < length S_ex3)%nat →
         dquadratic dqm !! (z_label 1 1, z_label j s2)
         = Some (list_to_map
                   (piece1 ← range 0 (1 + 1);
                    piece2 ← range 0 (bound_at bound_ex3 j);
                    [((piece1, piece2),
                      dbl (Float64.mul_int
                             (Float64.mul_int
                                (Float64.mul_int
                                   (Float64.mul_int
                                      (Float64.mul_int
                                         (Float64.round53 vmax) 2)
                                      (-1))
                                   (weight_at W_ex3 j s2))
                                (Z.of_nat piece1))
                             (Z.of_nat piece2)))])))
    ∧ (∀ j s2, (j < 1)%nat → (s2 < length S_ex3)%nat →
         dquadratic dqm !! (z_label j s2, z_label 1 1)
         = Some (list_to_map
                   (piece1 ← range 0 (bound_at bound_ex3 j);
                    piece2 ← range 0 (1 + 1);
                    [((piece1, piece2),
                      dbl (Float64.mul_int
                             (Float64.mul_int
                                (Float64.mul_int
                                   (Float64.mul_int
                                      (Float64.mul_int
                                         (Float64.round53 vmax) 2)
                                      (weight_at W_ex3 j s2))
                                   (-1))
                                (Z.of_nat piece1))
                             (Z.of_nat piece2)))]))).
Proof.
  apply (unavailable_pair_still_purchasable
           U_ex3 S_ex3 W_ex3 100 V_ex3 bound_ex3 1 1 1 [23; -1]);
    [by repeat constructor|done|lia|simpl; lia|simpl; lia|reflexivity..].
Defined.



End CombinedWitnesses.


(** * Solutions of the set-cover model *)

Import Solution.


Lemma sumZ_nonneg {A} (f : A → Z) (l : list A) :
  (∀ x, x ∈ l → 0 ≤ f x) → 0 ≤ sumZ f l.
Proof.
  induction l as [|x l IH]; intros Hf; simpl; [done|].
  pose proof (Hf x (list_elem_of_here _ _)).
  assert (0 ≤ sumZ f l) by (apply IH; intros; apply Hf; by right). lia.
Qed.

Lemma sumZ_le {A} (f g : A → Z) (l : list A) :
  (∀ x, x ∈ l → f x ≤ g x) → sumZ f l ≤ sumZ g l.
Proof.
  induction l as [|x l IH]; intros Hf; simpl; [done|].
  pose proof (Hf x (list_elem_of_here _ _)).
  assert (sumZ f l ≤ sumZ g l) by (apply IH; intros; apply Hf; by right). lia.
Qed.

Lemma sumZ_zero {A} (f : A → Z) (l : list A) :
  (∀ x, x ∈ l → f x = 0) → sumZ f l = 0.
Proof.
  intros Hf. rewrite (sumZ_ext f (λ _, 0)) by done.
  rewrite sumZ_const. lia.
Qed.

Lemma sumZ_count {A} (P : A → Prop) `{∀ x, Decision (P x)} (l : list A) :
  sumZ (λ x, if decide (P x) then 1 else 0) l = Z.of_nat (length (filter P l)).
Proof.
  induction l as [|x l IH]; simpl; [done|].
  rewrite filter_cons. case_decide; simpl; lia.
Qed.

Lemma sumZ_single {A} `{EqDecision A} (f : A → Z) (c : A) (l : list A) :
  NoDup l → c ∈ l → sumZ (λ m, if decide (m = c) then f m else 0) l = f c.
Proof.
  induction 1 as [|x l Hx Hnd IH]; intros Hc; [by apply elem_of_nil in Hc|].
  simpl. apply elem_of_cons in Hc as [->|Hc].
  - rewrite decide_True by done. rewrite sumZ_zero; [lia|].
    intros y Hy. rewrite decide_False; [done|]. by intros ->.
  - rewrite decide_False by (by intros ->). rewrite IH by done. lia.
Qed.

Lemma sumZ_pos_elem {A} (f : A → Z) (l : list A) :
  (∀ x, x ∈ l → 0 ≤ f x) → 0 < sumZ f l → ∃ x, x ∈ l ∧ 0 < f x.
Proof.
  induction l as [|x l IH]; intros Hf Hs; simpl in *; [lia|].
  destruct (decide (0 < f x)) as [Hx|Hx].
  - exists x. split; [by left|done].
  - pose proof (Hf x (list_elem_of_here _ _)).
    destruct IH as (y & Hy & Hfy); [intros; apply Hf; by right|lia|].
    exists y. split; [by right|done].
Qed.

Lemma sumZ_elem_le {A} (f : A → Z) (l : list A) (x : A) :
  (∀ y, y ∈ l → 0 ≤ f y) → x ∈ l → f x ≤ sumZ f l.
Proof.
  induction l as [|y l IH]; intros Hf Hx; [by apply elem_of_nil in Hx|].
  simpl. pose proof (Hf y (list_elem_of_here _ _)).
  assert (0 ≤ sumZ f l) by (apply sumZ_nonneg; intros; apply Hf; by right).
  apply elem_of_cons in Hx as [->|Hx]; [lia|].
  assert (f x ≤ sumZ f l) by (apply IH; [intros; apply Hf; by right|done]). lia.
Qed.

Section CoverFacts.
Context {E : Type} `{Countable E}.
Variable U : list E.
Variable V : list (gset E).

Lemma I_at_one (i a : nat) :
  I_at U V i a = 1 ↔ ∃ e Vi, U !! a = Some e ∧ V !! i = Some Vi ∧ e ∈ Vi.
Proof.
  unfold I_at, I. rewrite list_lookup_total_alt, list_lookup_fmap.
  destruct (V !! i) as [Vi|]; simpl.
  - rewrite list_lookup_fmap. destruct (U !! a) as [e|]; simpl.
    + case_decide; split; try done.
      * intros _. by exists e, Vi.
      * intros (e' & Vi' & [= <-] & [= <-] & ?). done.
    + split; [done|]. intros (? & ? & ? & _). done.
  - split; [done|]. intros (? & ? & _ & ? & _). done.
Qed.

Lemma val_binary (s : sample) (v : string) : 0 ≤ val s v ≤ 1.
Proof. unfold val. destruct (s v); simpl; lia. Qed.

Lemma val_one (s : sample) (v : string) : val s v = 1 ↔ s v = true.
Proof. unfold val. destruct (s v); simpl; split; (done || lia). Qed.

End CoverFacts.

Section SetCoverSemantics.
Context {E : Type} `{Countable E}.
Variable U : list E.
Variable V : list (gset E).

Local Abbreviation chosen s a :=
  (sumZ (λ i : nat, I_at U V (i - 1) (a - 1) * val s (x_label i))
        (range 1 (length V + 1))).

Lemma length_x : length (x V) = length V.
Proof. unfold x, range. by rewrite length_fmap, length_seq, Nat.sub_0_r. Qed.

Lemma lookup_x (i : nat) :
  (i < length V)%nat → x V !! i = Some (x_label (i + 1)).
Proof.
  intros Hi. unfold x, range. rewrite list_lookup_fmap.
  rewrite lookup_seq_lt by lia. done.
Qed.

Lemma elem_of_selected (s : sample) (i : nat) :
  i ∈ np_where (val s <$> x V)
  ↔ (i < length V)%nat ∧ s (x_label (i + 1)) = true.
Proof.
  unfold np_where. rewrite list_elem_of_filter, elem_of_range.
  rewrite length_fmap, length_x.
  split.
  - intros [Hv Hi]. split; [lia|].
    rewrite list_lookup_fmap in Hv. rewrite lookup_x in Hv by lia.
    simpl in Hv.
    unfold val in Hv. by destruct (s _).
  - intros [Hi Hs]. split; [|lia].
    rewrite list_lookup_fmap. rewrite lookup_x by lia. simpl.
    unfold val. by rewrite Hs.
Qed.

Lemma NoDup_selected (l : list Z) : NoDup (np_where l).
Proof. apply NoDup_filter, NoDup_range. Qed.

Lemma sum_x_selected (s : sample) :
  sumZ (λ i, val s (x_label i)) (range 1 (length V + 1))
  = Z.of_nat (length (np_where (val s <$> x V))).
Proof.
  rewrite <- sumZ_range_shift. unfold np_where.
  rewrite length_fmap, length_x, <- sumZ_count.
  apply sumZ_ext. intros i Hi%elem_of_range.
  rewrite list_lookup_fmap. rewrite lookup_x by lia. simpl.
  unfold val. destruct (s _); simpl; try case_decide; done.
Qed.

(** An item some selected set contains is counted at least once. *)
Lemma chosen_nonneg (s : sample) (a : nat) : 0 ≤ chosen s a.
Proof.
  apply sumZ_nonneg. intros i _.
  pose proof (val_binary s (x_label i)).
  destruct (I_at_binary U V (i - 1) (a - 1)) as [-> | ->]; lia.
Qed.

Lemma chosen_le (s : sample) (a : nat) : chosen s a ≤ Z.of_nat (length V).
Proof.
  etrans; [apply (sumZ_le _ (λ _, 1))|].
  - intros i _. pose proof (val_binary s (x_label i)).
    destruct (I_at_binary U V (i - 1) (a - 1)) as [-> | ->]; lia.
  - rewrite sumZ_const. unfold range. rewrite length_seq. lia.
Qed.

Lemma chosen_pos (s : sample) (a : nat) :
  0 < chosen s a
  ↔ ∃ i e Vi, i ∈ np_where (val s <$> x V)
              ∧ U !! (a - 1)%nat = Some e ∧ V !! i = Some Vi ∧ e ∈ Vi.
Proof.
  split.
  - intros Hpos. apply sumZ_pos_elem in Hpos as (i & Hi%elem_of_range & Hpos).
    2:{ intros i _. pose proof (val_binary s (x_label i)).
        destruct (I_at_binary U V (i - 1) (a - 1)) as [-> | ->]; lia. }
    pose proof (val_binary s (x_label i)) as Hv.
    destruct (I_at_binary U V (i - 1) (a - 1)) as [HI|HI];
      rewrite HI in Hpos; [lia|].
    apply I_at_one in HI as (e & Vi & He & HVi & Hin).
    exists (i - 1)%nat, e, Vi. split_and!; try done.
    apply elem_of_selected. split; [lia|].
    replace (i - 1 + 1)%nat with i by lia. apply val_one. lia.
  - intros (i & e & Vi & [Hi Hs]%elem_of_selected & He & HVi & Hin).
    eapply Z.lt_le_trans; [|apply (sumZ_elem_le _ _ (i + 1)%nat)].
    + simpl. replace (i + 1 - 1)%nat with i by lia.
      assert (I_at U V i (a - 1) = 1) as -> by (apply I_at_one; eauto).
      apply val_one in Hs. rewrite Hs. lia.
    + intros j _. pose proof (val_binary s (x_label j)).
      destruct (I_at_binary U V (j - 1) (a - 1)) as [-> | ->]; lia.
    + apply elem_of_range. lia.
Qed.

(** The two penalties of an item no selected set contains add up to at
    least one. *)
Lemma uncovered_penalty (s : sample) (a : nat) :
  chosen s a = 0 → 1 ≤ one_hot_penalty V s a + cover_penalty U V s a.
Proof.
  intros Hc. unfold one_hot_penalty, cover_penalty. rewrite Hc.
  set (Y := sumZ (λ m, val s (y_label a m)) _).
  set (MY := sumZ (λ m : nat, Z.of_nat m * val s (y_label a m)) _).
  assert (Y ≤ MY) as Hle.
  { apply sumZ_le. intros m Hm%elem_of_range.
    pose proof (val_binary s (y_label a m)). nia. }
  assert (0 ≤ Y) by (apply sumZ_nonneg; intros m _; apply val_binary).
  nia.
Qed.

Lemma penalties_nonneg (s : sample) (a : nat) :
  0 ≤ one_hot_penalty V s a ∧ 0 ≤ cover_penalty U V s a.
Proof. unfold one_hot_penalty, cover_penalty. split; nia. Qed.

(** Energy bound: every selected set costs [B], every item left
    uncovered costs at least [A]. *)
Lemma hamiltonian_lower_bound (s : sample) :
  B * Z.of_nat (length (np_where (val s <$> x V)))
  + A * Z.of_nat (length (filter (λ a, chosen s a = 0)
                                 (range 1 (length U + 1))))
  ≤ hamiltonian U V s.
Proof.
  unfold hamiltonian. rewrite sum_x_selected, <- sumZ_count.
  rewrite <- Z.mul_add_distr_l, <- sumZ_add.
  assert (sumZ (λ a, if decide (chosen s a = 0) then 1 else 0)
               (range 1 (length U + 1))
          ≤ sumZ (λ a, one_hot_penalty V s a + cover_penalty U V s a)
                 (range 1 (length U + 1))) as Hle.
  { apply sumZ_le. intros a _. case_decide.
    - by apply uncovered_penalty.
    - pose proof (penalties_nonneg s a). lia. }
  unfold A, B in *. lia.
Qed.

End SetCoverSemantics.

Section CoverSample.
Context {E : Type} `{Countable E}.
Variable U : list E.
Variable V : list (gset E).
Variable sel : list nat.
Hypothesis sel_NoDup : NoDup sel.
Hypothesis sel_range : ∀ i, i ∈ sel → (i < length V)%nat.

Local Abbreviation cnt := (cover_count U V sel).
Local Abbreviation cover_sample := (Solution.cover_sample U V sel).

Lemma cover_sample_x (i : nat) :
  (1 ≤ i)%nat →
  val cover_sample (x_label i) = if decide ((i - 1)%nat ∈ sel) then 1 else 0.
Proof.
  intros Hi. unfold val, Solution.cover_sample. case_decide as Hin.
  - rewrite bool_decide_eq_true_2; [done|].
    apply elem_of_app. left. apply list_elem_of_fmap.
    exists (i - 1)%nat. split; [|done]. f_equal. lia.
  - rewrite bool_decide_eq_false_2; [done|].
    intros [Hx|Hy]%elem_of_app.
    + apply list_elem_of_fmap in Hx as (j & Hj%x_label_inj & Hjs).
      apply Hin. by replace (i - 1)%nat with j by lia.
    + apply list_elem_of_fmap in Hy as (a & Ha & _).
      by apply x_label_ne_y_label in Ha.
Qed.

Lemma cover_sample_y (a m : nat) :
  (1 ≤ a ≤ length U)%nat →
  val cover_sample (y_label a m)
  = if decide (m = Z.to_nat (cnt a)) then 1 else 0.
Proof.
  intros Ha. unfold val, Solution.cover_sample. case_decide as Hm.
  - rewrite bool_decide_eq_true_2; [done|].
    apply elem_of_app. right. apply list_elem_of_fmap.
    exists a. split; [by rewrite Hm|]. apply elem_of_range. lia.
  - rewrite bool_decide_eq_false_2; [done|].
    intros [Hx|Hy]%elem_of_app.
    + apply list_elem_of_fmap in Hx as (j & Hj & _).
      symmetry in Hj. by apply x_label_ne_y_label in Hj.
    + apply list_elem_of_fmap in Hy as (a' & [<- Hm']%y_label_inj & _).
      done.
Qed.

Lemma cover_sample_chosen (a : nat) :
  sumZ (λ i : nat, I_at U V (i - 1) (a - 1) * val cover_sample (x_label i))
       (range 1 (length V + 1))
  = cnt a.
Proof.
  apply sumZ_ext. intros i Hi%elem_of_range.
  rewrite cover_sample_x by lia. done.
Qed.

Lemma cover_sample_selected :
  np_where (val cover_sample <$> x V) ≡ₚ sel.
Proof.
  apply NoDup_Permutation; [apply NoDup_selected|done|].
  intros i. rewrite elem_of_selected. split.
  - intros [Hi Hs]. apply val_one in Hs.
    rewrite cover_sample_x in Hs by lia.
    case_decide as Hin; [|done]. by replace (i + 1 - 1)%nat with i in Hin by lia.
  - intros Hi. split; [by apply sel_range|].
    apply val_one.
    rewrite cover_sample_x by lia. rewrite decide_True; [done|].
    by replace (i + 1 - 1)%nat with i by lia.
Qed.

Lemma cnt_bounds (a : nat) : 0 ≤ cnt a ≤ Z.of_nat (length V).
Proof.
  split.
  - unfold cover_count. apply sumZ_nonneg. intros i _.
    destruct (I_at_binary U V (i - 1) (a - 1)) as [-> | ->];
      case_decide; lia.
  - unfold cover_count. etrans; [apply (sumZ_le _ (λ _, 1))|].
    + intros i _.
      destruct (I_at_binary U V (i - 1) (a - 1)) as [-> | ->];
        case_decide; lia.
    + rewrite sumZ_const. unfold range. rewrite length_seq. lia.
Qed.

Lemma cnt_pos (a : nat) (e : E) :
  covers U V sel → U !! (a - 1)%nat = Some e → 1 ≤ cnt a.
Proof.
  intros Hcov He.
  destruct (Hcov e) as (i & Vi & Hi & HVi & Hin);
    [by eapply list_elem_of_lookup_2|].
  unfold cover_count. etrans; [|apply (sumZ_elem_le _ _ (i + 1)%nat)].
  - simpl. replace (i + 1 - 1)%nat with i by lia.
    assert (I_at U V i (a - 1) = 1) as -> by (apply I_at_one; eauto).
    rewrite decide_True by done. lia.
  - intros j _.
    destruct (I_at_binary U V (j - 1) (a - 1)) as [-> | ->];
      case_decide; lia.
  - apply elem_of_range. pose proof (sel_range i Hi). lia.
Qed.

Lemma cover_sample_hamiltonian :
  covers U V sel →
  hamiltonian U V cover_sample = B * Z.of_nat (length sel).
Proof.
  intros Hcov. unfold hamiltonian.
  rewrite sum_x_selected, cover_sample_selected.
  rewrite (sumZ_zero (one_hot_penalty V cover_sample)),
          (sumZ_zero (cover_penalty U V cover_sample)); [lia|..].
  - intros a Ha%elem_of_range. unfold cover_penalty.
    rewrite cover_sample_chosen.
    destruct (lookup_lt_is_Some_2 U (a - 1)%nat) as [e He]; [lia|].
    pose proof (cnt_pos a e Hcov He) as Hpos.
    pose proof (cnt_bounds a) as Hb.
    rewrite (sumZ_ext _ (λ m : nat, if decide (m = Z.to_nat (cnt a))
                                    then Z.of_nat m else 0)).
    2:{ intros m _. rewrite cover_sample_y by lia. case_decide; lia. }
    rewrite (sumZ_single Z.of_nat); [lia|apply NoDup_range|].
    apply elem_of_range. lia.
  - intros a Ha%elem_of_range. unfold one_hot_penalty.
    destruct (lookup_lt_is_Some_2 U (a - 1)%nat) as [e He]; [lia|].
    pose proof (cnt_pos a e Hcov He) as Hpos.
    pose proof (cnt_bounds a) as Hb.
    rewrite (sumZ_ext _ (λ m : nat, if decide (m = Z.to_nat (cnt a))
                                    then 1 else 0)).
    2:{ intros m _. rewrite cover_sample_y by lia. done. }
    rewrite (sumZ_single (λ _, 1)); [done|apply NoDup_range|].
    apply elem_of_range. lia.
Qed.

End CoverSample.

Section GroundState.
Context {E : Type} `{Countable E}.
Variable U : list E.
Variable V : list (gset E).

Local Abbreviation chosen s a :=
  (sumZ (λ i : nat, I_at U V (i - 1) (a - 1) * val s (x_label i))
        (range 1 (length V + 1))).

Lemma chosen_zero (s : sample) (a : nat) :
  chosen s a = 0
  ↔ Forall (λ i, I_at U V i (a - 1) = 0) (np_where (val s <$> x V)).
Proof.
  rewrite Forall_forall. split.
  - intros Hc i [Hi Hs]%elem_of_selected.
    destruct (I_at_binary U V i (a - 1)) as [|HI]; [done|].
    apply I_at_one in HI as (e & Vi & He & HVi & Hin).
    assert (0 < chosen s a); [|lia].
    apply chosen_pos. exists i, e, Vi. split_and!; try done.
    by apply elem_of_selected.
  - intros Hall. pose proof (chosen_nonneg U V s a).
    destruct (decide (0 < chosen s a)) as [Hpos|]; [|lia].
    apply chosen_pos in Hpos as (i & e & Vi & Hi & He & HVi & Hin).
    assert (I_at U V i (a - 1) = 1) as HI by (apply I_at_one; eauto).
    rewrite (Hall i Hi) in HI. done.
Qed.

Lemma length_uncovered (s : sample) :
  length (filter (λ a, chosen s a = 0) (range 1 (length U + 1)))
  = length (uncovered U V (np_where (val s <$> x V))).
Proof.
  apply Nat2Z.inj. unfold uncovered. rewrite <- !sumZ_count.
  rewrite <- sumZ_range_shift. apply sumZ_ext. intros a _.
  pose proof (chosen_zero s (a + 1)) as Hz.
  replace (a + 1 - 1)%nat with a in Hz by lia.
  replace (a + 1 - 1)%nat with a by lia.
  destruct Hz as [Hz1 Hz2].
  repeat case_decide; try done; exfalso; auto.
Qed.

Lemma covers_uncovered (sel : list nat) :
  uncovered U V sel = [] → covers U V sel.
Proof.
  intros Hnil e [a Ha]%list_elem_of_lookup_1.
  assert (a ∉ uncovered U V sel) as Hn by (rewrite Hnil; apply not_elem_of_nil).
  unfold uncovered in Hn. rewrite list_elem_of_filter, elem_of_range in Hn.
  apply lookup_lt_Some in Ha as Hlt.
  assert (¬ Forall (λ i, I_at U V i a = 0) sel) as Hex by (intros ?; apply Hn; split; [done|lia]).
  apply not_Forall_Exists in Hex; [|intros i; apply _].
  apply Exists_exists in Hex as (i & Hi & HI).
  destruct (I_at_binary U V i a) as [|HI1]; [done|].
  apply I_at_one in HI1 as (e' & Vi & He' & HVi & Hin).
  exists i, Vi. by simplify_eq.
Qed.

(** When every item is in some set, a selection is completed to a cover
    by at most one further set per uncovered item. *)
Lemma extend_selection (sel0 : list nat) (l : list nat) :
  covers U V (range 0 (length V)) →
  NoDup sel0 → (∀ i, i ∈ sel0 → (i < length V)%nat) →
  (∀ a, a ∈ l → (a < length U)%nat) →
  ∃ sel, NoDup sel ∧ (∀ i, i ∈ sel → (i < length V)%nat)
         ∧ sel0 ⊆ sel
         ∧ (∀ a, a ∈ l → ∃ i, i ∈ sel ∧ I_at U V i a = 1)
         ∧ (length sel ≤ length sel0 + length l)%nat.
Proof.
  intros Hcov Hnd Hrange. induction l as [|a l IH]; intros Hl.
  - exists sel0. split_and!; try done; [|simpl; lia].
    intros a Ha. by apply elem_of_nil in Ha.
  - destruct IH as (sel & Hnd' & Hrange' & Hsub & Hall & Hlen).
    { intros a' Ha'. apply Hl. by right. }
    destruct (lookup_lt_is_Some_2 U a) as [e He]; [apply Hl; by left|].
    destruct (Hcov e) as (i & Vi & Hi%elem_of_range & HVi & Hin);
      [by eapply list_elem_of_lookup_2|].
    assert (I_at U V i a = 1) as HI by (apply I_at_one; eauto).
    destruct (decide (i ∈ sel)) as [Hisel|Hisel].
    + exists sel. split_and!; try done; [|simpl; lia].
      intros a' [->|Ha']%elem_of_cons; [by exists i|by apply Hall].
    + exists (i :: sel). split_and!.
      * by apply NoDup_cons.
      * intros j [->|Hj]%elem_of_cons; [lia|by apply Hrange'].
      * intros j Hj. right. by apply Hsub.
      * intros a' [->|Ha']%elem_of_cons.
        -- exists i. split; [by left|done].
        -- destruct (Hall a' Ha') as (j & Hj & HIj). exists j. split; [by right|done].
      * simpl. lia.
Qed.

Lemma complete_to_cover (sel0 : list nat) :
  covers U V (range 0 (length V)) →
  NoDup sel0 → (∀ i, i ∈ sel0 → (i < length V)%nat) →
  ∃ sel, NoDup sel ∧ (∀ i, i ∈ sel → (i < length V)%nat)
         ∧ covers U V sel
         ∧ (length sel ≤ length sel0 + length (uncovered U V sel0))%nat.
Proof.
  intros Hcov Hnd Hrange.
  destruct (extend_selection sel0 (uncovered U V sel0) Hcov Hnd Hrange)
    as (sel & Hnd' & Hrange' & Hsub & Hall & Hlen).
  { intros a Ha. unfold uncovered in Ha.
    apply list_elem_of_filter in Ha as [_ Ha%elem_of_range]. lia. }
  exists sel. split_and!; try done.
  intros e [a Ha]%list_elem_of_lookup_1.
  apply lookup_lt_Some in Ha as Hlt.
  destruct (decide (a ∈ uncovered U V sel0)) as [Hunc|Hunc].
  - destruct (Hall a Hunc) as (i & Hi & HI).
    apply I_at_one in HI as (e' & Vi & He' & HVi & Hin).
    exists i, Vi. by simplify_eq.
  - unfold uncovered in Hunc. rewrite list_elem_of_filter, elem_of_range in Hunc.
    assert (¬ Forall (λ i, I_at U V i a = 0) sel0) as Hex
      by (intros ?; apply Hunc; split; [done|lia]).
    apply not_Forall_Exists in Hex; [|intros i; apply _].
    apply Exists_exists in Hex as (i & Hi & HI).
    destruct (I_at_binary U V i a) as [|HI1]; [done|].
    apply I_at_one in HI1 as (e' & Vi & He' & HVi & Hin).
    exists i, Vi. split_and!; [by apply Hsub|done|by simplify_eq].
Qed.

Lemma remove_dups_length (l : list nat) :
  (length (remove_dups l) ≤ length l)%nat.
Proof.
  induction l as [|x l IH]; simpl; [done|].
  destruct (decide_rel _ _ _); simpl; lia.
Qed.

(** A selection given with repetitions or indices out of range. *)
Lemma normalise_selection (sel : list nat) :
  covers U V sel →
  ∃ sel', NoDup sel' ∧ (∀ i, i ∈ sel' → (i < length V)%nat)
          ∧ covers U V sel' ∧ (length sel' ≤ length sel)%nat.
Proof.
  intros Hcov.
  exists (remove_dups (filter (λ i, (i < length V)%nat) sel)).
  split_and!.
  - apply NoDup_remove_dups.
  - intros i Hi%elem_of_remove_dups%list_elem_of_filter. tauto.
  - intros e He. destruct (Hcov e He) as (i & Vi & Hi & HVi & Hin).
    exists i, Vi. split_and!; try done.
    apply elem_of_remove_dups, list_elem_of_filter. split; [|done].
    by apply lookup_lt_Some in HVi.
  - etrans; [apply remove_dups_length|]. apply length_filter.
Qed.

End GroundState.

Section SetCoverSolutions.
Context {E : Type} `{Countable E}.
Variable U : list E.
Variable V : list (gset E).

Lemma energy_lower_bound (s : sample) :
  B * Z.of_nat (length (np_where (val s <$> x V)))
  + A * Z.of_nat (length (uncovered U V (np_where (val s <$> x V))))
  - A * Z.of_nat (length U)
  ≤ energy (mkBQM (list_to_map (linear_entries (setcover_writes U V)))
                  (list_to_map (quadratic_entries (setcover_writes U V)))) s.
Proof.
  rewrite energy_setcover_model, <- length_uncovered.
  pose proof (hamiltonian_lower_bound U V s). lia.
Qed.

Lemma energy_cover_sample (sel : list nat) :
  NoDup sel → (∀ i, i ∈ sel → (i < length V)%nat) → covers U V sel →
  energy (mkBQM (list_to_map (linear_entries (setcover_writes U V)))
                (list_to_map (quadratic_entries (setcover_writes U V))))
         (cover_sample U V sel)
  = B * Z.of_nat (length sel) - A * Z.of_nat (length U).
Proof.
  intros Hnd Hrange Hcov.
  rewrite energy_setcover_model, cover_sample_hamiltonian by done. done.
Qed.

(** X1. Every selected set costs [B] and every item the selected sets leave
    uncovered costs at least [A]; an assignment that pays for its sets
    only selects a cover. *)
Theorem energy_bounds_selection :
  ∃ bqm xs,
    build_setcover_bqm U V = Ok (bqm, xs)
    ∧ ∀ s : sample,
        B * Z.of_nat (length (np_where (val s <$> xs)))
        + A * Z.of_nat (length (uncovered U V (np_where (val s <$> xs))))
        - A * Z.of_nat (length U)
        ≤ energy bqm s
        ∧ (energy bqm s
           = B * Z.of_nat (length (np_where (val s <$> xs)))
             - A * Z.of_nat (length U)
           → covers U V (np_where (val s <$> xs))).
Proof.
  eexists _, _. split; [apply build_setcover_bqm_ok|].
  intros s. pose proof (energy_lower_bound s) as Hb. split; [done|].
  intros Heq. apply covers_uncovered.
  destruct (uncovered U V _) as [|a l]; [done|].
  simpl length in Hb. unfold A, B in *. lia.
Qed.

(** X2. A cover is encoded by an assignment whose energy is [B] per selected
    set, minus the constant. *)
Theorem cover_sample_energy (sel : list nat) :
  NoDup sel → (∀ i, i ∈ sel → (i < length V)%nat) → covers U V sel →
  ∃ bqm xs,
    build_setcover_bqm U V = Ok (bqm, xs)
    ∧ np_where (val (cover_sample U V sel) <$> xs) ≡ₚ sel
    ∧ energy bqm (cover_sample U V sel)
      = B * Z.of_nat (length sel) - A * Z.of_nat (length U).
Proof.
  intros Hnd Hrange Hcov.
  eexists _, _. split; [apply build_setcover_bqm_ok|]. split.
  - by apply cover_sample_selected.
  - by apply energy_cover_sample.
Qed.

(** X3. When every item is in some set, an assignment of least energy selects
    a cover of least size. *)
Theorem ground_state_is_minimum_cover (s : sample) (bqm : BQM)
    (xs : list string) :
  build_setcover_bqm U V = Ok (bqm, xs) →
  covers U V (range 0 (length V)) →
  (∀ s' : sample, energy bqm s ≤ energy bqm s') →
  covers U V (np_where (val s <$> xs))
  ∧ energy bqm s
    = B * Z.of_nat (length (np_where (val s <$> xs)))
      - A * Z.of_nat (length U)
  ∧ ∀ sel, covers U V sel →
           (length (np_where (val s <$> xs)) ≤ length sel)%nat.
Proof.
  rewrite build_setcover_bqm_ok. intros [= <- <-] Hall Hmin.
  set (bqm := mkBQM _ _) in *.
  set (X := np_where (val s <$> x V)).
  assert (NoDup X) as HndX by apply NoDup_selected.
  assert (∀ i, i ∈ X → (i < length V)%nat) as HrX
    by (intros i Hi%elem_of_selected; tauto).
  pose proof (energy_lower_bound s) as Hlow. fold bqm X in Hlow.
  assert (covers U V X) as HcovX.
  { destruct (complete_to_cover U V X Hall HndX HrX)
      as (sel & Hnd & Hr & Hcov & Hlen).
    pose proof (energy_cover_sample sel Hnd Hr Hcov) as Hsel. fold bqm in Hsel.
    pose proof (Hmin (cover_sample U V sel)) as Hle.
    apply covers_uncovered.
    destruct (uncovered U V X) as [|a l]; [done|].
    simpl length in *. unfold A, B in *. lia. }
  pose proof (energy_cover_sample X HndX HrX HcovX) as HeX. fold bqm in HeX.
  pose proof (Hmin (cover_sample U V X)) as HleX.
  split_and!; [done| |].
  - unfold A, B in *. lia.
  - intros sel Hcov.
    destruct (normalise_selection U V sel Hcov) as (sel' & Hnd & Hr & Hcov' & Hlen).
    pose proof (energy_cover_sample sel' Hnd Hr Hcov') as Hsel. fold bqm in Hsel.
    pose proof (Hmin (cover_sample U V sel')) as Hle.
    unfold A, B in *. lia.
Qed.

End SetCoverSolutions.

Lemma cover_sample_energy_witness :
  ∃ bqm xs,
    build_setcover_bqm U_ab V_ab = Ok (bqm, xs)
    ∧ np_where (val (cover_sample U_ab V_ab [1%nat]) <$> xs) ≡ₚ [1%nat]
    ∧ energy bqm (cover_sample U_ab V_ab [1%nat])
      = B * Z.of_nat (length [1%nat]) - A * Z.of_nat (length U_ab).
Proof.
  apply (cover_sample_energy U_ab V_ab [1%nat]).
  - apply NoDup_singleton.
  - intros i ->%list_elem_of_singleton. simpl. lia.
  - intros e He. exists 1%nat, {["a"; "b"]}.
    split_and!; [by left|done|].
    unfold U_ab in He. rewrite !elem_of_cons, elem_of_nil in He.
    rewrite elem_of_union, !elem_of_singleton. tauto.
Defined.

Lemma ground_state_is_minimum_cover_witness :
  covers U_ab V_ab
    (np_where (val (λ v, bool_decide (v ∈ ["x_2"; "y_(1, 1)"; "y_(2, 1)"]))
                 <$> x V_ab))
  ∧ energy (mkBQM (list_to_map (linear_entries (setcover_writes U_ab V_ab)))
                  (list_to_map (quadratic_entries (setcover_writes U_ab V_ab))))
           (λ v, bool_decide (v ∈ ["x_2"; "y_(1, 1)"; "y_(2, 1)"]))
    = B * Z.of_nat
            (length (np_where
                       (val (λ v, bool_decide
                                    (v ∈ ["x_2"; "y_(1, 1)"; "y_(2, 1)"]))
                          <$> x V_ab)))
      - A * Z.of_nat (length U_ab)
  ∧ ∀ sel, covers U_ab V_ab sel →
           (length (np_where
                      (val (λ v, bool_decide
                                   (v ∈ ["x_2"; "y_(1, 1)"; "y_(2, 1)"]))
                         <$> x V_ab))
            ≤ length sel)%nat.
Proof.
  apply (ground_state_is_minimum_cover U_ab V_ab).
  - apply build_setcover_bqm_ok.
  - intros e He. exists 1%nat, {["a"; "b"]}.
    split_and!; [by right; left|done|].
    unfold U_ab in He. rewrite !elem_of_cons, elem_of_nil in He.
    rewrite elem_of_union, !elem_of_singleton. tauto.
  - intros s'. rewrite !energy_ab.
    unfold val at 1 2 3 4 5 6 7 8 9 10 11 12 13.
    vm_compute bool_decide.
    unfold val.
    destruct (s' "x_1"), (s' "x_2"), (s' "y_(1, 1)"), (s' "y_(1, 2)"),
             (s' "y_(2, 1)"), (s' "y_(2, 2)"); vm_compute; done.
Defined.

Lemma length_sumZ {A} (l : list A) : Z.of_nat (length l) = sumZ (λ _, 1) l.
Proof. rewrite sumZ_const. lia. Qed.

Lemma triangle_sum (len s : nat) :
  2 * sumZ (λ i : nat, Z.of_nat (s + len - 1 - i)) (seq s len)
  = Z.of_nat len * (Z.of_nat len - 1).
Proof.
  revert s. induction len as [|len IH]; intros s; [done|].
  cbn [seq sumZ].
  rewrite (sumZ_ext _ (λ i : nat, Z.of_nat (S s + len - 1 - i))).
  2:{ intros i _. f_equal. lia. }
  specialize (IH (S s)).
  replace (s + S len - 1 - s)%nat with len by lia. lia.
Qed.

Lemma bind_nil_all {A B} (f : A → list B) (l : list A) :
  (∀ x, f x = []) → l ≫= f = [].
Proof. intros Hf. induction l as [|x l IH]; csimpl; [done|]. by rewrite Hf, IH. Qed.

Section SetCoverSize.
Context {E : Type} `{Countable E}.
Variable U : list E.
Variable V : list (gset E).

Lemma length_linear_entries_setcover :
  Z.of_nat (length (linear_entries (setcover_writes U V)))
  = Z.of_nat (length V) + Z.of_nat (length U) * Z.of_nat (length V).
Proof.
  rewrite linear_entries_setcover, length_app, Nat2Z.inj_add. f_equal.
  - unfold x_linear_terms. rewrite linear_entries_add, length_fmap.
    unfold range. rewrite length_seq. lia.
  - unfold y_linear_terms. rewrite linear_entries_bind, (length_sumZ (_ ≫= _)), sumZ_bind.
    rewrite (sumZ_ext _ (λ _, Z.of_nat (length V))).
    + rewrite sumZ_const. unfold range. rewrite length_seq. lia.
    + intros a _. rewrite linear_entries_add, <- length_sumZ, length_fmap.
      unfold range. rewrite length_seq. lia.
Qed.

Lemma pairs_below (n : nat) :
  2 * sumZ (λ i : nat, Z.of_nat (length (range (i + 1) (n + 1)))) (range 1 (n + 1))
  = Z.of_nat n * (Z.of_nat n - 1).
Proof.
  rewrite <- (triangle_sum n 1). f_equal. unfold range.
  replace (n + 1 - 1)%nat with n by lia.
  apply sumZ_ext. intros i _. rewrite length_seq. f_equal. lia.
Qed.

Lemma length_quadratic_entries_setcover :
  2 * Z.of_nat (length (quadratic_entries (setcover_writes U V)))
  = Z.of_nat (length V) * (Z.of_nat (length V) - 1)
      * (1 + Z.of_nat (length U))
    + 2 * Z.of_nat (length V) * Z.of_nat (length V) * Z.of_nat (length U).
Proof.
  rewrite quadratic_entries_setcover, !length_app, !Nat2Z.inj_add.
  assert (Z.of_nat (length (quadratic_entries (xx_terms U V)))
          = sumZ (λ i : nat, Z.of_nat (length (range (i + 1) (length V + 1))))
                 (range 1 (length V + 1))) as Hxx.
  { unfold xx_terms. rewrite quadratic_entries_bind, (length_sumZ (_ ≫= _)), sumZ_bind.
    apply sumZ_ext. intros i _.
    rewrite quadratic_entries_bind, sumZ_bind, (length_sumZ (range _ _)).
    apply sumZ_ext. intros j _. done. }
  assert (Z.of_nat (length (quadratic_entries (yy_terms U V)))
          = Z.of_nat (length U)
            * sumZ (λ m : nat, Z.of_nat (length (range (m + 1) (length V + 1))))
                   (range 1 (length V + 1))) as Hyy.
  { unfold yy_terms. rewrite quadratic_entries_bind, (length_sumZ (_ ≫= _)), sumZ_bind.
    rewrite <- sumZ_scale. apply sumZ_ext. intros m _.
    rewrite quadratic_entries_bind, sumZ_bind, (length_sumZ (range _ _)).
    rewrite <- sumZ_scale.
    apply sumZ_ext. intros n _.
    rewrite quadratic_entries_bind, sumZ_bind.
    rewrite (sumZ_ext _ (λ _, 1)) by done.
    rewrite sumZ_const. unfold range. rewrite length_seq. lia. }
  assert (Z.of_nat (length (quadratic_entries (xy_terms U V)))
          = Z.of_nat (length V) * Z.of_nat (length V) * Z.of_nat (length U))
    as Hxy.
  { unfold xy_terms. rewrite quadratic_entries_bind, (length_sumZ (_ ≫= _)), sumZ_bind.
    rewrite (sumZ_ext _ (λ _, Z.of_nat (length V) * Z.of_nat (length U))).
    { rewrite sumZ_const. unfold range. rewrite length_seq. lia. }
    intros i _. rewrite quadratic_entries_bind, sumZ_bind.
    rewrite (sumZ_ext _ (λ _, Z.of_nat (length U))).
    { rewrite sumZ_const. unfold range. rewrite length_seq. lia. }
    intros m _. rewrite quadratic_entries_bind, sumZ_bind.
    rewrite (sumZ_ext _ (λ _, 1)) by done.
    rewrite sumZ_const. unfold range. rewrite length_seq. lia. }
  rewrite Hxx, Hyy, Hxy. pose proof (pairs_below (length V)). lia.
Qed.

(** X4. The variables and the size of the model: one [x] per set, one [y]
    per item and count, and a coupling for every pair of [x], every pair
    of [y] of one item and every [x] with every [y]. *)
Theorem setcover_model_size :
  ∃ bqm xs,
    build_setcover_bqm U V = Ok (bqm, xs)
    ∧ length xs = length V
    ∧ (∀ v, is_Some (linear bqm !! v)
            ↔ (∃ i, (1 ≤ i ≤ length V)%nat ∧ v = x_label i)
              ∨ (∃ a m, (1 ≤ a ≤ length U)%nat ∧ (1 ≤ m ≤ length V)%nat
                        ∧ v = y_label a m))
    ∧ Z.of_nat (size (linear bqm))
      = Z.of_nat (length V) + Z.of_nat (length U) * Z.of_nat (length V)
    ∧ 2 * Z.of_nat (size (quadratic bqm))
      = Z.of_nat (length V) * (Z.of_nat (length V) - 1)
          * (1 + Z.of_nat (length U))
        + 2 * Z.of_nat (length V) * Z.of_nat (length V)
            * Z.of_nat (length U)
    ∧ (∀ u v, is_Some (quadratic bqm !! (u, v)) →
              is_Some (linear bqm !! u) ∧ is_Some (linear bqm !! v)).
Proof.
  eexists _, _. split; [apply build_setcover_bqm_ok|]. simpl.
  assert (Hlin : ∀ v,
    is_Some (list_to_map (M := gmap string Z)
               (linear_entries (setcover_writes U V)) !! v)
    ↔ (∃ i, (1 ≤ i ≤ length V)%nat ∧ v = x_label i)
      ∨ (∃ a m, (1 ≤ a ≤ length U)%nat ∧ (1 ≤ m ≤ length V)%nat
                ∧ v = y_label a m)).
  { intros v. split.
    - intros [c Hc]. apply lookup_linear_setcover in Hc.
      rewrite linear_entries_setcover, elem_of_app in Hc.
      destruct Hc as [Hc|Hc].
      + apply elem_of_x_linear_entries in Hc as (i & Hi & Heq).
        left. exists i. split; [done|]. congruence.
      + apply elem_of_y_linear_entries in Hc as (a & m & Ha & Hm & Heq).
        right. exists a, m. split_and!; first [lia|congruence].
    - intros [(i & Hi & ->)|(a & m & Ha & Hm & ->)].
      + by rewrite setcover_linear_x.
      + by rewrite setcover_linear_y. }
  split_and!.
  - apply length_x.
  - exact Hlin.
  - rewrite map_size_list_to_map by apply NoDup_linear_keys_setcover.
    apply length_linear_entries_setcover.
  - rewrite map_size_list_to_map by apply NoDup_quadratic_keys_setcover.
    apply length_quadratic_entries_setcover.
  - intros u v [c Hc]. rewrite !Hlin.
    apply setcover_quadratic_key in Hc
      as [(i & j & ? & ? & ? & Hk & _)|[(m & n & a & ? & ? & ? & ? & Hk & _)
         |(i & m & a & ? & ? & ? & Hk & _)]].
    + assert (u = x_label i) as -> by congruence.
      assert (v = x_label j) as -> by congruence.
      split; left; eexists; (split; [|done]); lia.
    + assert (u = y_label a m) as -> by congruence.
      assert (v = y_label a n) as -> by congruence.
      split; right; eexists _, _; (split_and!; [..|done]); lia.
    + assert (u = x_label i) as -> by congruence.
      assert (v = y_label a m) as -> by congruence.
      split; [left; eexists|right; eexists _, _]; (split_and!; [..|done]); lia.
Qed.

End SetCoverSize.

(** X5. With no candidate set the builder returns the empty model and no
    variable, whatever the universe: every assignment has energy 0, also
    when the universe has items to cover. *)
Theorem build_setcover_bqm_no_sets {E : Type} `{Countable E} (U : list E) :
  build_setcover_bqm U [] = Ok (empty_bqm, [])
  ∧ ∀ s : sample, energy empty_bqm s = 0.
Proof.
  split; [|done].
  unfold build_setcover_bqm, setcover_writes, quadratic_terms,
    x_linear_terms, y_linear_terms, xx_terms, yy_terms, xy_terms. simpl.
  rewrite (bind_nil_all _ (range 1 (length U + 1))) by done. done.
Qed.

(** * Solving and reporting *)

Import Report.

Lemma supplier_name_inj (i j : nat) : supplier_name i = supplier_name j → i = j.
Proof. unfold supplier_name. simpl. intros [= Heq]. by apply str_inj. Qed.

Lemma elem_of_np_where (l : list Z) (i : nat) :
  i ∈ np_where l ↔ ∃ v, l !! i = Some v ∧ v ≠ 0.
Proof.
  unfold np_where. rewrite list_elem_of_filter, elem_of_range. split.
  - intros [Hv Hi]. destruct (lookup_lt_is_Some_2 l i) as [v Hl]; [lia|].
    exists v. rewrite Hl in Hv. done.
  - intros (v & Hl & Hv). split; [by rewrite Hl|].
    apply lookup_lt_Some in Hl. lia.
Qed.

Lemma sumZ_seq_lookup (l : list Z) (f : Z → Z) (s : nat) :
  sumZ (λ i, f (default 0 (l !! (i - s)%nat))) (seq s (length l))
  = sumZ f l.
Proof.
  revert s. induction l as [|x l IH]; intros s; simpl; [done|].
  rewrite Nat.sub_diag. simpl. f_equal. rewrite <- (IH (S s)).
  apply sumZ_ext. intros a Ha%elem_of_seq.
  replace (a - s)%nat with (S (a - S s)) by lia. done.
Qed.

Section SolveBqm.
Context {E : Type} `{Countable E}.
Variable U : list E.
Variable V : list (gset E).

(** X6. [solve_bqm] on the model and the list of [build_setcover_bqm]: the
    energy returned is the first of the record, and the solution has one
    entry per set, the value the best sample gives to [x_(i+1)]; the call
    fails exactly when the record is empty or the sample lacks an [x]. *)
Theorem solve_bqm_reads_selection (sampler : BQM → response) :
  ∃ bqm xs,
    build_setcover_bqm U V = Ok (bqm, xs)
    ∧ ∀ sol e,
        solve_bqm bqm xs sampler = Some (sol, e)
        ↔ record_energy (sampler bqm) !! 0%nat = Some e
          ∧ length sol = length V
          ∧ ∀ i, (i < length V)%nat →
                 first_sample (sampler bqm) !! x_label (i + 1) = sol !! i.
Proof.
  eexists _, _. split; [apply build_setcover_bqm_ok|].
  set (bqm := mkBQM _ _). intros sol e. unfold solve_bqm. cbv zeta.
  destruct (record_energy (sampler bqm) !! 0%nat) as [e0|] eqn:He; simpl.
  2:{ split; [done|]. intros [? _]. done. }
  destruct (mapM _ (x V)) as [sol0|] eqn:Hm; simpl.
  - apply mapM_Some in Hm. split.
    + intros [= <- <-]. split; [done|].
      pose proof (Forall2_length _ _ _ Hm) as Hlen. rewrite length_x in Hlen.
      split; [lia|]. intros i Hi.
      destruct (lookup_lt_is_Some_2 sol0 i) as [v Hv]; [lia|].
      rewrite Hv. eapply (Forall2_lookup_lr _ _ _ _ _ _ Hm); [|done].
      by apply lookup_x.
    + intros ([= <-] & Hlen & Hall). f_equal. f_equal.
      assert (length sol0 = length V) as Hlen0.
      { apply Forall2_length in Hm. by rewrite <- Hm, length_x. }
      apply list_eq_same_length with (length V); [lia..|].
      intros i v v' Hi Hv Hv'.
      pose proof (Forall2_lookup_lr _ _ _ _ _ _ Hm (lookup_x V i Hi) Hv) as Hs.
      simpl in Hs. rewrite (Hall i Hi), Hv' in Hs. congruence.
  - split; [done|]. intros ([= <-] & Hlen & Hall). exfalso.
    assert (mapM (λ i, first_sample (sampler bqm) !! i) (x V) = Some sol)
      as Hm'; [|congruence].
    apply mapM_Some, Forall2_same_length_lookup_2.
    { by rewrite length_x. }
    intros i v v' Hv Hv'.
    assert (i < length V)%nat as Hi
      by (apply lookup_lt_Some in Hv; by rewrite length_x in Hv).
    rewrite lookup_x in Hv by done. injection Hv as <-.
    by rewrite (Hall i Hi).
Qed.

End SolveBqm.

(** X7. For a solution of zeros and ones the number of suppliers the cell
    prints is the number of names it lists, no name is listed twice, and
    [supplier<i>] is listed exactly when entry [i] is 1. *)
Theorem selected_count_matches_names (best_solution : list Z) :
  Forall (λ v, v = 0 ∨ v = 1) best_solution →
  selected_count best_solution
  = Z.of_nat (length (selected_names best_solution))
  ∧ NoDup (selected_names best_solution)
  ∧ ∀ i, supplier_name i ∈ selected_names best_solution
         ↔ best_solution !! i = Some 1.
Proof.
  intros Hbin. unfold selected_count, selected_names. split_and!.
  - rewrite length_fmap. unfold np_where. rewrite <- sumZ_count.
    unfold range. rewrite Nat.sub_0_r.
    rewrite <- (sumZ_seq_lookup best_solution id 0).
    apply sumZ_ext. intros i Hi%elem_of_seq. rewrite Nat.sub_0_r.
    destruct (lookup_lt_is_Some_2 best_solution i) as [v Hv]; [lia|].
    rewrite Hv. simpl.
    destruct (proj1 (Forall_lookup _ _) Hbin i v Hv) as [-> | ->];
      by case_decide.
  - apply NoDup_fmap_2_strong; [|apply NoDup_selected].
    intros i j _ _. apply supplier_name_inj.
  - intros i. rewrite list_elem_of_fmap. split.
    + intros (j & Hij%supplier_name_inj & (v & Hv & Hne)%elem_of_np_where).
      subst j. destruct (proj1 (Forall_lookup _ _) Hbin i v Hv) as [-> | ->]; done.
    + intros Hi. exists i. split; [done|].
      apply elem_of_np_where. by exists 1.
Qed.

Lemma selected_count_matches_names_witness :
  selected_count [0; 1; 1]
  = Z.of_nat (length (selected_names [0; 1; 1]))
  ∧ NoDup (selected_names [0; 1; 1])
  ∧ ∀ i, supplier_name i ∈ selected_names [0; 1; 1]
         ↔ [0; 1; 1] !! i = Some 1.
Proof.
  apply (selected_count_matches_names [0; 1; 1]).
  repeat (constructor; [lia|]). constructor.
Defined.

Section DisplayFacts.
Context {T : Type} `{EqDecision T}.
Implicit Types (sol data : list T).

Lemma chosen_iff sol (d : T) :
  (0 < length (filter (λ s, s = d) sol))%nat ↔ d ∈ sol.
Proof.
  split.
  - intros Hlen. destruct (filter (λ s, s = d) sol) as [|s l] eqn:Hf;
      [simpl in Hlen; lia|].
    assert (s ∈ filter (λ s, s = d) sol) as Hs by (rewrite Hf; left).
    apply list_elem_of_filter in Hs as [-> Hs]. done.
  - intros Hd.
    assert (d ∈ filter (λ s, s = d) sol) as Hs by (by apply list_elem_of_filter).
    destruct (filter (λ s, s = d) sol); [by apply elem_of_nil in Hs|simpl; lia].
Qed.

Lemma idx_from sol data (g : nat → nat) :
  (filter (λ p : nat * T, (0 < length (filter (λ s, s = p.2) sol))%nat)
          (imap (λ i d, (g i, d)) data)).*1
  = g <$> idx_supplier sol data.
Proof.
  unfold idx_supplier. revert g. induction data as [|d data IH]; intros g; [done|].
  rewrite !imap_cons.
  change (imap ((λ i d0, (g i, d0)) ∘ S) data)
    with (imap (λ i d0, ((g ∘ S) i, d0)) data).
  change (imap (pair ∘ S) data) with (imap (λ (i : nat) (d0 : T), (S i, d0)) data).
  rewrite !filter_cons.
  change (decide (0 < length (filter (λ s, s = (g 0%nat, d).2) sol))%nat)
    with (decide (0 < length (filter (λ s, s = d) sol))%nat).
  change (decide (0 < length (filter (λ s, s = (0%nat, d).2) sol))%nat)
    with (decide (0 < length (filter (λ s, s = d) sol))%nat).
  destruct (decide (0 < length (filter (λ s, s = d) sol))%nat);
    rewrite ?fmap_cons, IH, (IH S), <- !list_fmap_compose; reflexivity.
Qed.

Lemma idx_supplier_cons sol (d : T) data :
  idx_supplier sol (d :: data)
  = (if decide (d ∈ sol) then [0%nat] else [])
    ++ (S <$> idx_supplier sol data).
Proof.
  unfold idx_supplier at 1. rewrite imap_cons, filter_cons.
  change (imap (pair ∘ S) data) with (imap (λ (i : nat) (d0 : T), (S i, d0)) data).
  change (decide (0 < length (filter (λ s, s = (0%nat, d).2) sol))%nat)
    with (decide (0 < length (filter (λ s, s = d) sol))%nat).
  destruct (decide (0 < length (filter (λ s, s = d) sol))%nat) as [Hd|Hd];
    rewrite chosen_iff in Hd.
  - rewrite decide_True by done. rewrite fmap_cons, idx_from. done.
  - rewrite decide_False by done. rewrite idx_from. done.
Qed.

Lemma elem_of_idx_supplier sol data (i : nat) :
  i ∈ idx_supplier sol data ↔ ∃ d, data !! i = Some d ∧ d ∈ sol.
Proof.
  revert i. induction data as [|d data IH]; intros i.
  - split; [by intros ?%elem_of_nil|intros (? & ? & _); done].
  - rewrite idx_supplier_cons, elem_of_app, list_elem_of_fmap. split.
    + intros [Hi|(j & -> & Hj)].
      * case_decide; [|by apply elem_of_nil in Hi].
        apply list_elem_of_singleton in Hi as ->. by exists d.
      * apply IH in Hj as (d' & ? & ?). by exists d'.
    + intros (d' & Hd & Hin). destruct i as [|i]; simpl in Hd.
      * injection Hd as ->. left. rewrite decide_True by done. by left.
      * right. exists i. split; [done|]. apply IH. by exists d'.
Qed.

Lemma idx_supplier_sorted sol data : StronglySorted lt (idx_supplier sol data).
Proof.
  induction data as [|d data IH]; [constructor|].
  rewrite idx_supplier_cons.
  assert (StronglySorted lt (S <$> idx_supplier sol data)) as Hs.
  { apply (StronglySorted_fmap S lt lt); [|done]. intros ??. lia. }
  case_decide; [|done]. simpl. constructor; [done|].
  apply Forall_fmap, Forall_forall. intros j _. simpl. lia.
Qed.

Lemma length_idx_supplier sol data :
  length (idx_supplier sol data) = length (filter (λ d, d ∈ sol) data).
Proof.
  induction data as [|d data IH]; [done|].
  rewrite idx_supplier_cons, length_app, length_fmap, filter_cons, IH.
  by case_decide.
Qed.

(** X8. The positions [display_classical_solution] lists are those of the
    suppliers whose data occurs in the solution, in increasing order. *)
Theorem idx_supplier_lists_chosen sol data :
  StronglySorted lt (idx_supplier sol data)
  ∧ (∀ i, i ∈ idx_supplier sol data ↔ ∃ d, data !! i = Some d ∧ d ∈ sol)
  ∧ length (idx_supplier sol data) = length (filter (λ d, d ∈ sol) data).
Proof.
  split_and!; [apply idx_supplier_sorted|apply elem_of_idx_supplier
              |apply length_idx_supplier].
Qed.

(** X9. When the solution is a choice of pairwise distinct suppliers among
    pairwise distinct ones, the count [display_classical_solution] prints
    is the number of names it prints. *)
Theorem display_count_matches_names sol data :
  NoDup sol → NoDup data → (∀ d, d ∈ sol → d ∈ data) →
  display_classical_solution sol data
  = [ String "010" "Solution (Classical Algorithm):";
      "There are " +:+ str (length (idx_supplier sol data))
        +:+ " suppliers selected.";
      "Selected Suppliers: "
        +:+ repr_list (supplier_name <$> idx_supplier sol data) ]
  ∧ length (supplier_name <$> idx_supplier sol data) = length sol.
Proof.
  intros Hsol Hdata Hsub.
  assert (length (idx_supplier sol data) = length sol) as Hlen.
  { rewrite length_idx_supplier. apply Permutation_length, NoDup_Permutation.
    - by apply NoDup_filter.
    - done.
    - intros d. rewrite list_elem_of_filter. split; [tauto|]. auto. }
  split; [|by rewrite length_fmap].
  unfold display_classical_solution. by rewrite Hlen.
Qed.

End DisplayFacts.

Lemma display_count_matches_names_witness :
  display_classical_solution [3%nat; 1%nat] [1%nat; 2%nat; 3%nat]
  = [ String "010" "Solution (Classical Algorithm):";
      "There are "
        +:+ str (length (idx_supplier [3%nat; 1%nat] [1%nat; 2%nat; 3%nat]))
        +:+ " suppliers selected.";
      "Selected Suppliers: "
        +:+ repr_list (supplier_name
                         <$> idx_supplier [3%nat; 1%nat]
                               [1%nat; 2%nat; 3%nat]) ]
  ∧ length (supplier_name
              <$> idx_supplier [3%nat; 1%nat] [1%nat; 2%nat; 3%nat])
    = length [3%nat; 1%nat].
Proof.
  apply (display_count_matches_names [3%nat; 1%nat] [1%nat; 2%nat; 3%nat]).
  - apply (bool_decide_unpack _). vm_compute. exact Logic.I.
  - apply (bool_decide_unpack _). vm_compute. exact Logic.I.
  - intros d Hd. apply (bool_decide_unpack _).
    rewrite !elem_of_cons, elem_of_nil in Hd.
    destruct Hd as [->|[->|[]]]; vm_compute; exact Logic.I.
Defined.

(** The lines printed when the solution holds the first and the third
    of three suppliers. *)
Example display_classical_solution_ex :
  display_classical_solution [3%nat; 1%nat] [1%nat; 2%nat; 3%nat]
  = [ String "010" "Solution (Classical Algorithm):";
      "There are 2 suppliers selected.";
      "Selected Suppliers: ['supplier0', 'supplier2']" ].
Proof. reflexivity. Qed.

(** * The data cell of the combined notebook *)

Section DataCell.
Import GroceryData.
Context {E : Type} `{Countable E}.
Variable U : list E.
Variable S : list (gset E).

Local Abbreviation cell W a i := (W !! a ≫= (.!! i)).
Local Abbreviation step := (λ acc p, acc ≫= λ W', mark_step U S W' p).

Lemma I_at_zero_one (i a : nat) : I_at U S i a ≠ 0 ↔ I_at U S i a = 1.
Proof. destruct (I_at_binary U S i a) as [-> | ->]; split; done. Qed.

Lemma mark_step_in_range (W : list (list Z)) (a i : nat) :
  (a < length U)%nat → (i < length S)%nat →
  mark_step U S W (a, i)
  = if decide (I_at U S i a = 0) then set_unavailable a i W else Some W.
Proof.
  intros Ha Hi. unfold mark_step. simpl.
  destruct (lookup_lt_is_Some_2 U a Ha) as [e He].
  destruct (lookup_lt_is_Some_2 S i Hi) as [Ss HSs].
  rewrite He, HSs. simpl.
  destruct (decide (e ∈ Ss)) as [Hin|Hin].
  - rewrite decide_False; [done|]. apply I_at_zero_one, I_at_one. eauto.
  - rewrite decide_True; [done|].
    destruct (I_at_binary U S i a) as [|H1]; [done|].
    apply I_at_one in H1 as (e' & Ss' & ? & ? & ?). by simplify_eq.
Qed.

Lemma set_unavailable_None (W : list (list Z)) (a i : nat) :
  set_unavailable a i W = None ↔ cell W a i = None.
Proof.
  unfold set_unavailable. destruct (W !! a) as [row|]; simpl; [|done].
  case_decide as Hi.
  - split; [done|]. intros Hn. apply lookup_ge_None in Hn. lia.
  - split; [|done]. intros _. apply lookup_ge_None. lia.
Qed.

Lemma set_unavailable_shape (W W' : list (list Z)) (a i : nat) :
  set_unavailable a i W = Some W' → length <$> W' = length <$> W.
Proof.
  unfold set_unavailable. destruct (W !! a) as [row|] eqn:Hrow; simpl; [|done].
  case_decide; [|done]. intros [= <-].
  rewrite list_fmap_insert, length_insert.
  apply list_insert_id. by rewrite list_lookup_fmap, Hrow.
Qed.

Lemma set_unavailable_cell (W W' : list (list Z)) (a i a' i' : nat) :
  set_unavailable a i W = Some W' →
  cell W' a' i'
  = if decide (a' = a ∧ i' = i) then Some (-1) else cell W a' i'.
Proof.
  unfold set_unavailable. destruct (W !! a) as [row|] eqn:Hrow; simpl; [|done].
  case_decide as Hi; [|done]. intros [= <-].
  destruct (decide (a' = a)) as [->|Ha].
  - rewrite list_lookup_insert_eq by (by eapply lookup_lt_Some). simpl.
    destruct (decide (i' = i)) as [->|Hi'].
    + rewrite decide_True by done. by apply list_lookup_insert_eq.
    + rewrite decide_False by tauto. rewrite Hrow. simpl.
      by apply list_lookup_insert_ne.
  - rewrite decide_False by tauto. by rewrite list_lookup_insert_ne.
Qed.

Lemma cell_shape (W W' : list (list Z)) (a i : nat) :
  length <$> W' = length <$> W → is_Some (cell W' a i) ↔ is_Some (cell W a i).
Proof.
  intros Hshape.
  assert (length <$> (W' !! a) = length <$> (W !! a)) as Hrow
    by (by rewrite <- !list_lookup_fmap, Hshape).
  destruct (W' !! a) as [row'|], (W !! a) as [row|]; simplify_eq/=;
    try done.
  - rewrite !lookup_lt_is_Some. by rewrite Hrow.
Qed.

Lemma foldl_step_None (ps : list (nat * nat)) : foldl step None ps = None.
Proof. induction ps as [|p ps IH]; [done|]. simpl. apply IH. Qed.

Lemma set_unavailable_id (W : list (list Z)) (a i : nat) :
  cell W a i = Some (-1) → set_unavailable a i W = Some W.
Proof.
  unfold set_unavailable. destruct (W !! a) as [row|] eqn:Hrow; simpl; [|done].
  intros Hc. rewrite decide_True by (by eapply lookup_lt_Some).
  f_equal. rewrite (list_insert_id row) by done. by apply list_insert_id.
Qed.

Section Fold.
Variable ps : list (nat * nat).

Lemma marks_result (W W' : list (list Z)) :
  (∀ p, p ∈ ps → (p.1 < length U)%nat ∧ (p.2 < length S)%nat) →
  foldl step (Some W) ps = Some W' →
  length <$> W' = length <$> W
  ∧ ∀ a i c, cell W a i = Some c →
      cell W' a i
      = Some (if decide ((a, i) ∈ ps ∧ I_at U S i a = 0) then -1 else c).
Proof.
  revert W. induction ps as [|[a0 i0] ps' IH]; intros W Hps Hfold.
  - simpl in Hfold. injection Hfold as <-. split; [done|].
    intros a i c Hc. rewrite decide_False; [done|].
    intros [[]%elem_of_nil _].
  - simpl in Hfold.
    destruct (Hps (a0, i0)) as [Ha0 Hi0]; [left|]. simpl in Ha0, Hi0.
    rewrite mark_step_in_range in Hfold by done.
    assert (Hps' : ∀ p, p ∈ ps' → (p.1 < length U)%nat ∧ (p.2 < length S)%nat)
      by (intros p Hp; apply Hps; by right).
    destruct (decide (I_at U S i0 a0 = 0)) as [Hun|Hav].
    + destruct (set_unavailable a0 i0 W) as [W1|] eqn:HW1;
        [|by rewrite foldl_step_None in Hfold].
      destruct (IH W1 Hps' Hfold) as [Hshape Hcells].
      pose proof (set_unavailable_shape _ _ _ _ HW1) as Hshape1.
      split; [congruence|].
      intros a i c Hc.
      pose proof (set_unavailable_cell W W1 a0 i0 a i HW1) as Hc1.
      destruct (decide (a = a0 ∧ i = i0)) as [[-> ->]|Hne].
      * rewrite (Hcells a0 i0 (-1) Hc1).
        rewrite (decide_True (P := (a0, i0) ∈ (a0, i0) :: ps' ∧ _));
          [|split; [left|done]].
        by case_decide.
      * rewrite Hc in Hc1. rewrite (Hcells a i c Hc1). f_equal.
        repeat case_decide; try done; exfalso.
        -- match goal with H : ¬ _ |- _ => apply H end.
           split; [right|]; tauto.
        -- match goal with H : _ ∧ _ |- _ => destruct H as [Hin ?] end.
           apply elem_of_cons in Hin as [[= -> ->]|Hin]; tauto.
    + destruct (IH W Hps' Hfold) as [Hshape Hcells].
      split; [done|]. intros a i c Hc. rewrite (Hcells a i c Hc). f_equal.
      repeat case_decide; try done; exfalso.
      * match goal with H : ¬ _ |- _ => apply H end.
        split; [right|]; tauto.
      * match goal with H : _ ∧ _ |- _ => destruct H as [Hin ?] end.
        apply elem_of_cons in Hin as [[= -> ->]|Hin]; tauto.
Qed.

Lemma marks_fail (W : list (list Z)) :
  (∀ p, p ∈ ps → (p.1 < length U)%nat ∧ (p.2 < length S)%nat) →
  foldl step (Some W) ps = None
  ↔ ∃ a i, (a, i) ∈ ps ∧ I_at U S i a = 0 ∧ cell W a i = None.
Proof.
  revert W. induction ps as [|[a0 i0] ps' IH]; intros W Hps.
  - simpl. split; [done|]. intros (a & i & []%elem_of_nil & _).
  - simpl.
    destruct (Hps (a0, i0)) as [Ha0 Hi0]; [left|]. simpl in Ha0, Hi0.
    rewrite mark_step_in_range by done.
    assert (Hps' : ∀ p, p ∈ ps' → (p.1 < length U)%nat ∧ (p.2 < length S)%nat)
      by (intros p Hp; apply Hps; by right).
    destruct (decide (I_at U S i0 a0 = 0)) as [Hun|Hav].
    + destruct (set_unavailable a0 i0 W) as [W1|] eqn:HW1.
      * rewrite (IH W1 Hps').
        pose proof (set_unavailable_shape _ _ _ _ HW1) as Hshape1.
        assert (cell W a0 i0 ≠ None) as Hsome.
        { intros Hn%set_unavailable_None. congruence. }
        split.
        -- intros (a & i & Hin & Hu & Hc). exists a, i.
           split_and!; [by right|done|].
           apply eq_None_not_Some. rewrite <- (cell_shape W W1) by done.
           by apply eq_None_not_Some.
        -- intros (a & i & Hin & Hu & Hc).
           apply elem_of_cons in Hin as [Heq|Hin].
           { assert (a = a0 ∧ i = i0) as [-> ->] by (split; congruence). done. }
           exists a, i. split_and!; [done..|].
           apply eq_None_not_Some. rewrite (cell_shape W W1) by done.
           by apply eq_None_not_Some.
      * rewrite foldl_step_None. split; [|done]. intros _.
        exists a0, i0. split_and!; [left|done|].
        by apply set_unavailable_None.
    + rewrite (IH W Hps'). split.
      * intros (a & i & Hin & Hu & Hc). exists a, i. split_and!; [by right|done..].
      * intros (a & i & Hin & Hu & Hc).
        apply elem_of_cons in Hin as [Heq|Hin].
        { assert (a = a0 ∧ i = i0) as [-> ->] by (split; congruence). done. }
        exists a, i. done.
Qed.

Lemma marks_id (W : list (list Z)) :
  (∀ p, p ∈ ps → (p.1 < length U)%nat ∧ (p.2 < length S)%nat) →
  (∀ a i, (a, i) ∈ ps → I_at U S i a = 0 → cell W a i = Some (-1)) →
  foldl step (Some W) ps = Some W.
Proof.
  induction ps as [|[a0 i0] ps' IH]; intros Hps Hall; [done|].
  simpl.
  destruct (Hps (a0, i0)) as [Ha0 Hi0]; [left|]. simpl in Ha0, Hi0.
  rewrite mark_step_in_range by done.
  assert (foldl step (Some W) ps' = Some W) as Htail.
  { apply IH; [intros p Hp; apply Hps; by right|].
    intros a i Hin. apply Hall. by right. }
  case_decide as Hun; [|done].
  rewrite set_unavailable_id; [done|]. apply Hall; [left|done].
Qed.

End Fold.

Lemma elem_of_positions (a i : nat) :
  (a, i) ∈ positions U S ↔ (a < length U)%nat ∧ (i < length S)%nat.
Proof.
  unfold positions. rewrite list_elem_of_bind. split.
  - intros (a' & Hin & Ha'%elem_of_range).
    apply list_elem_of_bind in Hin as (i' & Hin & Hi'%elem_of_range).
    apply list_elem_of_singleton in Hin.
    assert (a = a' ∧ i = i') as [-> ->] by (split; congruence). lia.
  - intros [Ha Hi]. exists a. split; [|apply elem_of_range; lia].
    apply list_elem_of_bind. exists i. split; [by left|apply elem_of_range; lia].
Qed.

Lemma positions_in_range (p : nat * nat) :
  p ∈ positions U S → (p.1 < length U)%nat ∧ (p.2 < length S)%nat.
Proof. destruct p as [a i]. by intros ?%elem_of_positions. Qed.

(** X10. The marked table: it has the shape of the table it was made from,
    the cost of a pair is [-1] where the indicator [I] of the next cell
    is 0 (the supplier does not carry the item) and is unchanged
    elsewhere. *)
Theorem mark_unavailable_table (W W' : list (list Z)) :
  mark_unavailable U S W = Some W' →
  length <$> W' = length <$> W
  ∧ ∀ a i c, W !! a ≫= (.!! i) = Some c →
      W' !! a ≫= (.!! i)
      = Some (if decide ((a < length U)%nat ∧ (i < length S)%nat
                         ∧ I_at U S i a = 0)
              then -1 else c).
Proof.
  intros Hm. unfold mark_unavailable in Hm.
  destruct (marks_result _ W W' positions_in_range Hm) as [Hshape Hcells].
  split; [done|]. intros a i c Hc. rewrite (Hcells a i c Hc). f_equal.
  pose proof (elem_of_positions a i) as Hpos.
  repeat case_decide; try done; tauto.
Qed.

(** X11. The loops fail exactly when a pair to be marked lies outside the
    table. *)
Theorem mark_unavailable_fails (W : list (list Z)) :
  mark_unavailable U S W = None
  ↔ ∃ a i, (a < length U)%nat ∧ (i < length S)%nat
           ∧ I_at U S i a = 0 ∧ W !! a ≫= (.!! i) = None.
Proof.
  unfold mark_unavailable. rewrite (marks_fail _ W positions_in_range).
  split; intros (a & i & Hrest); exists a, i.
  - rewrite elem_of_positions in Hrest. tauto.
  - rewrite elem_of_positions. tauto.
Qed.

(** X12. Marking a marked table again changes nothing. *)
Theorem mark_unavailable_idempotent (W W' : list (list Z)) :
  mark_unavailable U S W = Some W' → mark_unavailable U S W' = Some W'.
Proof.
  intros Hm. unfold mark_unavailable in *.
  apply marks_id; [apply positions_in_range|].
  intros a i Hin Hun.
  destruct (marks_result _ W W' positions_in_range Hm) as [_ Hcells].
  destruct (W !! a ≫= (.!! i)) as [c|] eqn:Hc.
  - rewrite (Hcells a i c Hc). by rewrite decide_True.
  - exfalso.
    assert (foldl step (Some W) (positions U S) = None) as Hn
      by (apply (marks_fail _ W positions_in_range); eauto).
    congruence.
Qed.

End DataCell.

Section DataCellWitnesses.
Import GroceryData Combined.

Lemma mark_unavailable_table_witness :
  length <$> W_ex = length <$> [[11; 9]; [23; 24]]
  ∧ ∀ a i c, [[11; 9]; [23; 24]] !! a ≫= (.!! i) = Some c →
      W_ex !! a ≫= (.!! i)
      = Some (if decide ((a < length U_ex)%nat ∧ (i < length S_ex)%nat
                         ∧ I_at U_ex S_ex i a = 0)
              then -1 else c).
Proof.
  apply (mark_unavailable_table U_ex S_ex [[11; 9]; [23; 24]] W_ex).
  vm_compute. reflexivity.
Defined.

Lemma mark_unavailable_idempotent_witness :
  mark_unavailable U_ex S_ex W_ex = Some W_ex.
Proof.
  apply (mark_unavailable_idempotent U_ex S_ex [[11; 9]; [23; 24]] W_ex).
  vm_compute. reflexivity.
Defined.

End DataCellWitnesses.


(** * The finished combined model *)


Section CombinedVariables.
Import Combined.
Context {E : Type} `{Countable E}.
Variable U : list E.
Variable S : list (gset E).
Variable weights : list (list Z).
Variable values : list Z.
Variable bound0 : list nat.
Variable lagrange : Z.
Variable M : nat.
Variable w : list Z.

Local Abbreviation writes :=
  (combined_writes U S weights values bound0 lagrange M w).
Local Abbreviation base :=
  (knapsack_and_cover_writes U S weights values bound0 lagrange M w).

Lemma w_variable_in (j : nat) :
  (j < M + 1)%nat → DAddVariable 2 (w_label j) ∈ base.
Proof.
  intros Hj. unfold knapsack_and_cover_writes.
  apply elem_of_app; right. apply elem_of_app; left.
  unfold w_variables, num_slack_variables.
  apply list_elem_of_bind. exists j. split; [by left|apply elem_of_range; lia].
Qed.

Lemma x_variable_in (i : nat) :
  (1 ≤ i ≤ length S)%nat → DAddVariable 2 (x_label i) ∈ base.
Proof.
  intros Hi. unfold knapsack_and_cover_writes.
  do 7 (apply elem_of_app; right). apply elem_of_app; left.
  unfold x_terms.
  apply list_elem_of_bind. exists (i - 1)%nat.
  split; [|apply elem_of_range; lia].
  replace (i - 1 + 1)%nat with i by lia. by left.
Qed.

Lemma y_variable_in (a m : nat) :
  (1 ≤ a ≤ length U)%nat → (1 ≤ m ≤ length S)%nat →
  DAddVariable 2 (y_label a m) ∈ base.
Proof.
  intros Ha Hm. unfold knapsack_and_cover_writes.
  do 8 (apply elem_of_app; right). apply elem_of_app; left.
  unfold y_terms.
  apply list_elem_of_bind. exists a. split; [|apply elem_of_range; lia].
  apply list_elem_of_bind. exists m. split; [|apply elem_of_range; lia].
  by left.
Qed.

Lemma num_cases_w (j : nat) :
  (j < M + 1)%nat →
  num_cases (dfold writes empty_dqm) !! w_label j = Some 2%nat.
Proof.
  intros Hj. apply num_cases_dfold.
  - by apply base_app_writes, w_variable_in.
  - intros n' Hin. classify Hin; subst; label_eq; by subst.
Qed.

Lemma num_cases_x (i : nat) :
  (1 ≤ i ≤ length S)%nat →
  num_cases (dfold writes empty_dqm) !! x_label i = Some 2%nat.
Proof.
  intros Hi. apply num_cases_dfold.
  - by apply base_app_writes, x_variable_in.
  - intros n' Hin. classify Hin; subst; label_eq; by subst.
Qed.

Lemma num_cases_y (a m : nat) :
  (1 ≤ a ≤ length U)%nat → (1 ≤ m ≤ length S)%nat →
  num_cases (dfold writes empty_dqm) !! y_label a m = Some 2%nat.
Proof.
  intros Ha Hm. apply num_cases_dfold.
  - by apply base_app_writes, y_variable_in.
  - intros n' Hin. classify Hin; subst; label_eq; by subst.
Qed.

(** Whatever the model declares is a purchase variable, a slack bit, a
    supplier variable or a count variable. *)
Lemma num_cases_forms (v : string) (n : nat) :
  num_cases (dfold writes empty_dqm) !! v = Some n →
  (∃ k s, (k < x_size values)%nat ∧ (s < length S)%nat
          ∧ v = z_label k s ∧ n = bound_at bound0 k)
  ∨ (∃ j, (j < M + 1)%nat ∧ v = w_label j ∧ n = 2%nat)
  ∨ (∃ i, (1 ≤ i ≤ length S)%nat ∧ v = x_label i ∧ n = 2%nat)
  ∨ (∃ a m, (1 ≤ a ≤ length U)%nat ∧ (1 ≤ m ≤ length S)%nat
            ∧ v = y_label a m ∧ n = 2%nat).
Proof.
  intros [Hin|Hd]%num_cases_dfold_inv; [|by (simpl in Hd; rewrite lookup_empty in Hd)].
  classify Hin; subst.
  - left. eauto 10.
  - right; left. eauto 10.
  - do 2 right; left. eauto 10.
  - do 3 right. eauto 10.
Qed.

Lemma dlinear_cases (v : string) (b : list Qc) :
  dlinear (dfold writes empty_dqm) !! v = Some b →
  num_cases (dfold writes empty_dqm) !! v = Some (length b).
Proof.
  intros [Hin|Hd]%dlinear_dfold_inv; [|by (simpl in Hd; rewrite lookup_empty in Hd)].
  classify Hin; subst.
  - rewrite length_z_linear_biases. by apply num_cases_z.
  - by apply num_cases_w.
  - by apply num_cases_x.
  - by apply num_cases_y.
Qed.

Lemma zz_biases_cases (i j s1 s2 : nat) (c : nat * nat) (q : Qc) :
  (c, q) ∈ zz_biases weights bound0 lagrange i j s1 s2 →
  (c.1 < bound_at bound0 i)%nat ∧ (c.2 < bound_at bound0 j)%nat.
Proof.
  intros Hin. unfold zz_biases in Hin. in_binds Hin. simplify_eq/=. lia.
Qed.

Lemma zw_biases_cases (i s j : nat) (c : nat * nat) (q : Qc) :
  (c, q) ∈ zw_biases weights bound0 lagrange w i s j →
  (c.1 < bound_at bound0 i)%nat ∧ c.2 = 1%nat.
Proof.
  intros Hin. unfold zw_biases in Hin. in_binds Hin. simplify_eq/=. lia.
Qed.

Lemma h3_biases_cases (i : nat) (c : nat * nat) (q : Qc) :
  (c, q) ∈ h3_biases bound0 i →
  (c.1 < bound_at bound0 i)%nat ∧ c.2 = 1%nat.
Proof.
  intros Hin. unfold h3_biases in Hin. in_binds Hin. simplify_eq/=. lia.
Qed.

Lemma dquadratic_cases (u v : string) (t : gmap (nat * nat) Qc)
    (cu cv : nat) :
  dquadratic (dfold writes empty_dqm) !! (u, v) = Some t →
  is_Some (t !! (cu, cv)) →
  ∃ nu nv, num_cases (dfold writes empty_dqm) !! u = Some nu
           ∧ num_cases (dfold writes empty_dqm) !! v = Some nv
           ∧ (cu < nu)%nat ∧ (cv < nv)%nat.
Proof.
  intros Ht Hc.
  destruct (dquadratic_dfold_inv _ _ _ _ _ _ Ht Hc)
    as [(b & Hin & Hcb)|(t0 & Hd & _)];
    [|by (simpl in Hd; rewrite lookup_empty in Hd)].
  apply list_elem_of_fmap in Hcb as ([c q] & Hc' & Hcb). simpl in Hc'.
  subst c. classify Hin; subst.
  - apply zz_biases_cases in Hcb as [? ?]. simpl in *.
    eexists _, _. split_and!; [apply num_cases_z|apply num_cases_z|..]; lia.
  - apply elem_of_cons in Hcb as [Hcb|[]%elem_of_nil].
    assert (cu = 1 ∧ cv = 1)%nat as [-> ->] by (split; congruence).
    eexists _, _. split_and!; [apply num_cases_w|apply num_cases_w|..]; lia.
  - apply zw_biases_cases in Hcb as [? ?]. simpl in *.
    eexists _, _. split_and!; [apply num_cases_z|apply num_cases_w|..]; lia.
  - apply elem_of_cons in Hcb as [Hcb|[]%elem_of_nil].
    assert (cu = 1 ∧ cv = 1)%nat as [-> ->] by (split; congruence).
    eexists _, _. split_and!; [apply num_cases_x|apply num_cases_x|..]; lia.
  - apply elem_of_cons in Hcb as [Hcb|[]%elem_of_nil].
    assert (cu = 1 ∧ cv = 1)%nat as [-> ->] by (split; congruence).
    eexists _, _. split_and!; [apply num_cases_y|apply num_cases_y|..]; lia.
  - apply elem_of_cons in Hcb as [Hcb|[]%elem_of_nil].
    assert (cu = 1 ∧ cv = 1)%nat as [-> ->] by (split; congruence).
    eexists _, _. split_and!; [apply num_cases_x|apply num_cases_y|..]; lia.
  - apply h3_biases_cases in Hcb as [? ?]. simpl in *.
    eexists _, _. split_and!; [apply num_cases_z|apply num_cases_x|..]; lia.
Qed.

End CombinedVariables.

Section CombinedBuild.
Import Combined.
Context {E : Type} `{Countable E}.
Variable U : list E.
Variable S : list (gset E).
Variable weights : list (list Z).
Variable weight_capacity : Z.
Variable values : list Z.
Variable bound0 : list nat.

(** X13. The cell fails on an empty list of prices ([max] of an empty
    sequence) and, the prices given, on a budget that is not positive
    ([log2] outside its domain); otherwise it builds a model: no write of
    its loops is rejected. *)
Theorem build_combined_dqm_outcomes :
  well_shaped S weights values bound0 →
  (values = []
   ∧ build_combined_dqm U S weights weight_capacity values bound0
     = Raise (ValueError "max() arg is an empty sequence"))
  ∨ (values ≠ [] ∧ weight_capacity ≤ 0
     ∧ build_combined_dqm U S weights weight_capacity values bound0
       = Raise (ValueError "math domain error"))
  ∨ (values ≠ [] ∧ 1 ≤ weight_capacity
     ∧ ∃ dqm, build_combined_dqm U S weights weight_capacity values bound0
              = Ok dqm).
Proof.
  intros Hshape. destruct (decide (values = [])) as [Hv|Hv].
  - left. split; [done|]. by rewrite Hv.
  - right. destruct (decide (weight_capacity ≤ 0)) as [Hle|Hgt].
    + left. split_and!; [done..|].
      unfold build_combined_dqm, build_with, Slack.floor_log2.
      destruct values as [|v vs]; [done|]. simpl.
      by rewrite decide_True.
    + right. split_and!; [done|lia|].
      destruct (build_combined_dqm_dfold U S weights weight_capacity
                  values bound0 Hshape Hv)
        as (vmax & M & _ & _ & Hbuild & _); [lia|].
      eexists. exact Hbuild.
Qed.

(** X14. The model the cell builds is well formed: its variables are the
    purchase variables [z_(k,s)] with [bound[k] + 1] cases and the binary
    slack, supplier and count variables, the slack bits being
    [w0 .. wM] for the [M] of the slack setup (the integer logarithm of
    the budget, for a budget below [2^49 - 1]); every variable with
    linear biases has one bias per case; every interaction joins two
    declared variables and holds biases only for cases they have. *)
Theorem combined_model_well_formed :
  well_shaped S weights values bound0 →
  values ≠ [] → 1 ≤ weight_capacity →
  ∃ dqm M,
    build_combined_dqm U S weights weight_capacity values bound0 = Ok dqm
    ∧ Slack.floor_log2 weight_capacity = Ok (Z.of_nat M)
    ∧ (weight_capacity ≤ 2 ^ 49 - 2 → Z.of_nat M = Z.log2 weight_capacity)
    ∧ (∀ v n, num_cases dqm !! v = Some n
         ↔ (∃ k s, (k < length values)%nat ∧ (s < length S)%nat
                   ∧ v = z_label k s ∧ n = bound_at bound0 k)
           ∨ (∃ j, (j ≤ M)%nat ∧ v = w_label j ∧ n = 2%nat)
           ∨ (∃ i, (1 ≤ i ≤ length S)%nat ∧ v = x_label i ∧ n = 2%nat)
           ∨ (∃ a m, (1 ≤ a ≤ length U)%nat ∧ (1 ≤ m ≤ length S)%nat
                     ∧ v = y_label a m ∧ n = 2%nat))
    ∧ (∀ k b, bound0 !! k = Some b → bound_at bound0 k = (b + 1)%nat)
    ∧ (∀ v b, dlinear dqm !! v = Some b →
              num_cases dqm !! v = Some (length b))
    ∧ (∀ u v t cu cv,
         dquadratic dqm !! (u, v) = Some t → is_Some (t !! (cu, cv)) →
         ∃ nu nv, num_cases dqm !! u = Some nu
                  ∧ num_cases dqm !! v = Some nv
                  ∧ (cu < nu)%nat ∧ (cv < nv)%nat).
Proof.
  intros Hshape Hvalues Hcap.
  destruct (build_combined_dqm_dfold U S weights weight_capacity
              values bound0 Hshape Hvalues Hcap)
    as (vmax & M & _ & HM & Hbuild & _).
  eexists _, M. split; [exact Hbuild|]. split; [exact HM|]. split_and!.
  - intros Hle. rewrite floor_log2_exact in HM by lia. congruence.
  - intros v n. split; [|intros [Hz|[Hw|[Hx|Hy]]]].
    + intros Hv. apply num_cases_forms in Hv
        as [(k & s & ? & ? & -> & ->)|[(j & ? & -> & ->)
           |[(i & ? & -> & ->)|(a & m & ? & ? & -> & ->)]]].
      * left. exists k, s. done.
      * right; left. exists j. split_and!; [lia|done..].
      * do 2 right; left. exists i. done.
      * do 3 right. exists a, m. done.
    + destruct Hz as (k & s & ? & ? & -> & ->). by apply num_cases_z.
    + destruct Hw as (j & ? & -> & ->). apply num_cases_w. lia.
    + destruct Hx as (i & ? & -> & ->). by apply num_cases_x.
    + destruct Hy as (a & m & ? & ? & -> & ->). by apply num_cases_y.
  - intros k b. apply bound_at_lookup.
  - apply dlinear_cases.
  - apply dquadratic_cases.
Qed.

End CombinedBuild.

Section CombinedBuildWitnesses.
Import Combined.

Lemma build_combined_dqm_outcomes_witness :
  (V_ex = []
   ∧ build_combined_dqm U_ex S_ex W_ex 100 V_ex bound_ex
     = Raise (ValueError "max() arg is an empty sequence"))
  ∨ (V_ex ≠ [] ∧ 100 ≤ 0
     ∧ build_combined_dqm U_ex S_ex W_ex 100 V_ex bound_ex
       = Raise (ValueError "math domain error"))
  ∨ (V_ex ≠ [] ∧ 1 ≤ 100
     ∧ ∃ dqm, build_combined_dqm U_ex S_ex W_ex 100 V_ex bound_ex = Ok dqm).
Proof.
  apply (build_combined_dqm_outcomes U_ex S_ex W_ex 100 V_ex bound_ex).
  by repeat constructor.
Defined.

Lemma combined_model_well_formed_witness :
  ∃ dqm M,
    build_combined_dqm U_ex S_ex W_ex 100 V_ex bound_ex = Ok dqm
    ∧ Slack.floor_log2 100 = Ok (Z.of_nat M)
    ∧ (100 ≤ 2 ^ 49 - 2 → Z.of_nat M = Z.log2 100)
    ∧ (∀ v n, num_cases dqm !! v = Some n
         ↔ (∃ k s, (k < length V_ex)%nat ∧ (s < length S_ex)%nat
                   ∧ v = z_label k s ∧ n = bound_at bound_ex k)
           ∨ (∃ j, (j ≤ M)%nat ∧ v = w_label j ∧ n = 2%nat)
           ∨ (∃ i, (1 ≤ i ≤ length S_ex)%nat ∧ v = x_label i ∧ n = 2%nat)
           ∨ (∃ a m, (1 ≤ a ≤ length U_ex)%nat ∧ (1 ≤ m ≤ length S_ex)%nat
                     ∧ v = y_label a m ∧ n = 2%nat))
    ∧ (∀ k b, bound_ex !! k = Some b → bound_at bound_ex k = (b + 1)%nat)
    ∧ (∀ v b, dlinear dqm !! v = Some b →
              num_cases dqm !! v = Some (length b))
    ∧ (∀ u v t cu cv,
         dquadratic dqm !! (u, v) = Some t → is_Some (t !! (cu, cv)) →
         ∃ nu nv, num_cases dqm !! u = Some nu
                  ∧ num_cases dqm !! v = Some nv
                  ∧ (cu < nu)%nat ∧ (cv < nv)%nat).
Proof.
  apply (combined_model_well_formed U_ex S_ex W_ex 100 V_ex bound_ex);
    [by repeat constructor|done|lia].
Defined.

(** What the model object rejects: a label declared twice, biases for
    a variable that was not declared, the wrong number of biases, a
    coupling of a variable with itself and a case the variable does not
    have. *)
Example dexec_rejections :
  (∃ e, drun [DAddVariable 2 "x_1"; DAddVariable 2 "x_1"] empty_dqm
        = Raise e)
  ∧ (∃ e, drun [DSetLinear "x_1" [0%Qc; 1%Qc]] empty_dqm = Raise e)
  ∧ (∃ e, drun [DAddVariable 2 "x_1"; DSetLinear "x_1" [0%Qc]] empty_dqm
          = Raise e)
  ∧ (∃ e, drun [DAddVariable 2 "x_1";
                DSetQuadratic "x_1" "x_1" [((1, 1)%nat, 1%Qc)]] empty_dqm
          = Raise e)
  ∧ (∃ e, drun [DAddVariable 2 "x_1"; DAddVariable 2 "x_2";
                DSetQuadratic "x_1" "x_2" [((2, 1)%nat, 1%Qc)]] empty_dqm
          = Raise e).
Proof. split_and!; eexists; by vm_compute. Qed.

End CombinedBuildWitnesses.

(** * Reading the solution of the combined model *)

Lemma lookup_bind_const {A B} (f : A → list B) (c : nat) (l : list A)
    (k j : nat) :
  (∀ x, length (f x) = c) → (j < c)%nat →
  (l ≫= f) !! (k * c + j)%nat = l !! k ≫= λ x, f x !! j.
Proof.
  intros Hf Hj. revert k. induction l as [|x l IH]; intros k; [done|].
  csimpl. destruct k as [|k]; simpl.
  - rewrite lookup_app_l by (rewrite Hf; lia). done.
  - rewrite lookup_app_r by (rewrite Hf; lia). rewrite Hf.
    replace (c + k * c + j - c)%nat with (k * c + j)%nat by lia. apply IH.
Qed.

Lemma length_bind_const {A B} (f : A → list B) (c : nat) (l : list A) :
  (∀ x, length (f x) = c) → length (l ≫= f) = (length l * c)%nat.
Proof.
  intros Hf. induction l as [|x l IH]; csimpl; [done|].
  rewrite length_app, Hf, IH. lia.
Qed.

Lemma length_range (lo hi : nat) : length (range lo hi) = (hi - lo)%nat.
Proof. unfold range. apply length_seq. Qed.

Section PlanFacts.
Import Combined Plan.
Context {E : Type} `{Countable E}.
Variable U : list E.
Variable S : list (gset E).
Variable values : list Z.

Lemma length_z : length (z S values) = (length values * length S)%nat.
Proof.
  unfold z. rewrite (length_bind_const _ (length S)).
  - by rewrite length_range, Nat.sub_0_r.
  - intros k. rewrite (length_bind_const _ 1%nat) by done.
    rewrite length_range. lia.
Qed.

Lemma lookup_z (k s : nat) :
  (k < length values)%nat → (s < length S)%nat →
  z S values !! (k * length S + s)%nat = Some (z_label k s).
Proof.
  intros Hk Hs. unfold z. rewrite (lookup_bind_const _ (length S)); [|  |done].
  - rewrite lookup_range by (unfold x_size; lia). simpl.
    replace s with (s * 1 + 0)%nat at 1 by lia.
    rewrite (lookup_bind_const _ 1%nat) by (done || lia).
    rewrite lookup_range by lia. done.
  - intros k'. rewrite (length_bind_const _ 1%nat) by done.
    rewrite length_range. lia.
Qed.

Lemma reshape_lookup {A} (l : list A) (rows cols r c : nat) :
  (r < rows)%nat → (c < cols)%nat →
  ((λ r, take cols (drop (r * cols) l)) <$> range 0 rows) !! r ≫= (.!! c)
  = l !! (r * cols + c)%nat.
Proof.
  intros Hr Hc. rewrite list_lookup_fmap, lookup_range by lia. simpl.
  rewrite lookup_take_lt by done. by rewrite lookup_drop.
Qed.

(** X15. The purchase plan is the table of the quantities: when the
    inventory has one item per price, row [k] and column [s] hold the
    case the sample gives to [z_(k,s)].  With inventory and prices of
    different lengths [reshape] fails, unless there is no supplier. *)
Theorem purchase_plan_outcomes (best_solution : dsample) :
  (length U = length values
   ∧ ∃ plan, purchase_plan U S values best_solution = Ok plan
             ∧ length plan = length U
             ∧ Forall (λ row, length row = length S) plan
             ∧ ∀ k s, (k < length values)%nat → (s < length S)%nat →
                 plan !! k ≫= (.!! s) = Some (best_solution (z_label k s)))
  ∨ (length U ≠ length values ∧ S = []
     ∧ purchase_plan U S values best_solution
       = Ok (replicate (length U) []))
  ∨ (length U ≠ length values ∧ S ≠ []
     ∧ purchase_plan U S values best_solution
       = Raise (ValueError
                  ("cannot reshape array of size "
                   +:+ str (length values * length S)
                   +:+ " into shape (" +:+ str (length U) +:+ ","
                   +:+ str (length S) +:+ ")"))).
Proof.
  unfold purchase_plan, reshape. rewrite length_fmap, length_z.
  destruct (decide (length U = length values)) as [Heq|Hne].
  - left. split; [done|]. rewrite decide_True by (by rewrite Heq).
    eexists. split; [done|]. split_and!.
    + by rewrite length_fmap, length_range, Nat.sub_0_r.
    + apply Forall_fmap, Forall_forall. intros r Hr%elem_of_range. simpl.
      rewrite length_take, length_drop, length_fmap, length_z. nia.
    + intros k s Hk Hs. rewrite reshape_lookup by lia.
      rewrite list_lookup_fmap, lookup_z by done. done.
  - right. destruct S as [|S0 S'] eqn:HS.
    + left. split_and!; [done..|]. simpl length.
      rewrite decide_True by lia. f_equal.
      apply list_eq_same_length with (length U).
      * by rewrite length_replicate.
      * by rewrite length_fmap, length_range, Nat.sub_0_r.
      * intros i r r' Hi Hr Hr'.
        rewrite list_lookup_fmap, lookup_range in Hr by lia.
        apply lookup_replicate in Hr' as [-> _].
        simpl in Hr. injection Hr as <-. done.
    + right. split_and!; [done..|].
      rewrite decide_False; [done|]. simpl length. nia.
Qed.

End PlanFacts.


(** * The energy of the combined model *)

Section RationalSums.
Import Combined Energy.

Lemma sumQc_app {A} (f : A → Qc) (l k : list A) :
  sumQc f (l ++ k) = (sumQc f l + sumQc f k)%Qc.
Proof. induction l as [|x l IH]; simpl; [ring|]. rewrite IH. ring. Qed.

Lemma sumQc_ext {A} (f g : A → Qc) (l : list A) :
  (∀ x, x ∈ l → f x = g x) → sumQc f l = sumQc g l.
Proof.
  induction l as [|x l IH]; intros Hfg; simpl; [done|].
  rewrite Hfg by left. rewrite IH; [done|]. intros y Hy. apply Hfg. by right.
Qed.

Lemma sumQc_bind {A B} (h : B → list A) (f : A → Qc) (k : list B) :
  sumQc f (k ≫= h) = sumQc (λ y, sumQc f (h y)) k.
Proof.
  induction k as [|y k IH]; csimpl; [done|]. by rewrite sumQc_app, IH.
Qed.

(** A sum of terms [lagrange * a + b] with integer [a] and [b]. *)
Lemma sumQc_affine {A} (lagrange : Qc) (a b : A → Z) (l : list A) :
  sumQc (λ x, lagrange * ofZ (a x) + ofZ (b x))%Qc l
  = (lagrange * ofZ (sumZ a l) + ofZ (sumZ b l))%Qc.
Proof.
  induction l as [|x l IH]; simpl.
  - rewrite ofZ_0. ring.
  - rewrite IH, !ofZ_add. ring.
Qed.

Lemma sumQc_affine_ext {A} (lagrange : Qc) (f : A → Qc) (a b : A → Z)
    (l : list A) :
  (∀ x, x ∈ l → f x = (lagrange * ofZ (a x) + ofZ (b x))%Qc) →
  sumQc f l = (lagrange * ofZ (sumZ a l) + ofZ (sumZ b l))%Qc.
Proof. intros Hf. rewrite (sumQc_ext _ _ _ Hf). apply sumQc_affine. Qed.

End RationalSums.

Section FreshWrites.
Import Combined Energy.

Lemma dlinear_dfold_fresh (ws : list dwrite) (d : DQM) :
  NoDup (dlinear_keys ws) →
  dlinear (dfold ws d) = list_to_map (dlinear_entries ws) ∪ dlinear d.
Proof.
  revert d. induction ws as [|wr ws IH]; intros d Hnd.
  - simpl. by rewrite (left_id_L ∅ (∪)).
  - change (dfold (wr :: ws) d) with (dfold ws (dapply wr d)).
    destruct wr as [n v|v b|u v b].
    + change (dlinear_keys (DAddVariable n v :: ws)) with (dlinear_keys ws)
        in Hnd.
      change (dlinear_entries (DAddVariable n v :: ws))
        with (dlinear_entries ws).
      by rewrite IH.
    + change (dlinear_keys (DSetLinear v b :: ws))
        with (v :: dlinear_keys ws) in Hnd.
      change (dlinear_entries (DSetLinear v b :: ws))
        with ((v, b) :: dlinear_entries ws).
      apply NoDup_cons in Hnd as [Hv Hnd]. rewrite IH by done. simpl.
      rewrite <- insert_union_l, <- insert_union_r; [done|].
      by apply not_elem_of_list_to_map.
    + change (dlinear_keys (DSetQuadratic u v b :: ws))
        with (dlinear_keys ws) in Hnd.
      change (dlinear_entries (DSetQuadratic u v b :: ws))
        with (dlinear_entries ws).
      by rewrite IH.
Qed.

Lemma dquadratic_dfold_fresh (ws : list dwrite) (d : DQM) :
  NoDup (dquadratic_keys ws) →
  (∀ k, k ∈ dquadratic_keys ws → dquadratic d !! k = None) →
  dquadratic (dfold ws d)
  = list_to_map (dquadratic_entries ws) ∪ dquadratic d.
Proof.
  revert d. induction ws as [|wr ws IH]; intros d Hnd Hfresh.
  - simpl. by rewrite (left_id_L ∅ (∪)).
  - change (dfold (wr :: ws) d) with (dfold ws (dapply wr d)).
    destruct wr as [n v|v b|u v b].
    + change (dquadratic_keys (DAddVariable n v :: ws))
        with (dquadratic_keys ws) in *.
      change (dquadratic_entries (DAddVariable n v :: ws))
        with (dquadratic_entries ws).
      by rewrite IH.
    + change (dquadratic_keys (DSetLinear v b :: ws))
        with (dquadratic_keys ws) in *.
      change (dquadratic_entries (DSetLinear v b :: ws))
        with (dquadratic_entries ws).
      by rewrite IH.
    + change (dquadratic_keys (DSetQuadratic u v b :: ws))
        with ((u, v) :: dquadratic_keys ws) in *.
      change (dquadratic_entries (DSetQuadratic u v b :: ws))
        with (((u, v), list_to_map b) :: dquadratic_entries ws).
      apply NoDup_cons in Hnd as [Hk Hnd]. rewrite IH; simpl.
      * rewrite (Hfresh (u, v)) by left. simpl. rewrite (right_id_L ∅ (∪)).
        rewrite <- insert_union_l, <- insert_union_r; [done|].
        by apply not_elem_of_list_to_map.
      * done.
      * intros k Hin. rewrite lookup_insert_ne; [|intros <-; done].
        apply Hfresh. by right.
Qed.

Lemma map_fold_sumQc `{Countable K} {V} (f : K → V → Qc) (l : list (K * V)) :
  NoDup (l.*1) →
  map_fold (λ k b acc, (f k b + acc)%Qc) 0%Qc (list_to_map l : gmap K V)
  = sumQc (λ kb, f kb.1 kb.2) l.
Proof.
  intros Hnd. rewrite map_fold_foldr.
  rewrite (foldr_permutation (=) _ 0%Qc _ l).
  - induction l as [|[k b] l IH]; simpl; [done|].
    rewrite IH; [done|]. by apply NoDup_cons in Hnd as [_ ?].
  - intros j1 [k1 b1] j2 [k2 b2] acc _ _ _. simpl. ring.
  - by apply map_to_list_to_map.
Qed.

Lemma sumQc_entries (ws : list dwrite) (s : dsample) :
  (sumQc (λ kb : string * list Qc, default 0%Qc (kb.2 !! s kb.1))
         (dlinear_entries ws)
   + sumQc (λ kb : (string * string) * gmap (nat * nat) Qc,
              default 0%Qc (kb.2 !! (s kb.1.1, s kb.1.2)))
           (dquadratic_entries ws))%Qc
  = sumQc (dwrite_energy s) ws.
Proof.
  induction ws as [|[n v|v b|u v b] ws IH].
  - simpl. ring.
  - change (dlinear_entries (DAddVariable n v :: ws))
      with (dlinear_entries ws).
    change (dquadratic_entries (DAddVariable n v :: ws))
      with (dquadratic_entries ws).
    rewrite IH. simpl. ring.
  - change (dlinear_entries (DSetLinear v b :: ws))
      with ((v, b) :: dlinear_entries ws).
    change (dquadratic_entries (DSetLinear v b :: ws))
      with (dquadratic_entries ws).
    cbn [sumQc]. rewrite <- IH. simpl. ring.
  - change (dlinear_entries (DSetQuadratic u v b :: ws))
      with (dlinear_entries ws).
    change (dquadratic_entries (DSetQuadratic u v b :: ws))
      with (((u, v), list_to_map b) :: dquadratic_entries ws).
    cbn [sumQc]. rewrite <- IH. simpl. ring.
Qed.

Lemma denergy_of_writes (ws : list dwrite) (s : dsample) :
  NoDup (dlinear_keys ws) → NoDup (dquadratic_keys ws) →
  denergy (dfold ws empty_dqm) s = sumQc (dwrite_energy s) ws.
Proof.
  intros Hlin Hquad. unfold denergy.
  rewrite dlinear_dfold_fresh, dquadratic_dfold_fresh by done.
  simpl. rewrite !(right_id_L ∅ (∪)).
  rewrite (map_fold_sumQc (λ v (biases : list Qc),
             default 0%Qc (biases !! s v))) by done.
  rewrite (map_fold_sumQc (λ (key : string * string)
                             (biases : gmap (nat * nat) Qc),
             default 0%Qc (biases !! (s key.1, s key.2)))) by done.
  apply sumQc_entries.
Qed.

End FreshWrites.



(** ** Expanding the squared budget residual *)

Section KnapsackExpansion.
Variables (n ns m : nat).
Variable c : nat → nat → Z.
Variable wb : nat → Z.

Local Abbreviation row k := (sumZ (c k) (range 0 ns)).

Lemma knapsack_expansion :
  sumZ (λ k, sumZ (λ i, c k i ^ 2) (range 0 ns)) (range 0 n)
  + sumZ (λ i, sumZ (λ j, sumZ (λ s1, sumZ (λ s2, 2 * (c i s1 * c j s2))
                                          (range 0 ns))
                               (range 0 ns))
                    (range (i + 1) n))
         (range 0 n)
  + sumZ (λ j, wb j ^ 2) (range 0 m)
  + sumZ (λ i, sumZ (λ j, 2 * (wb i * wb j)) (range (i + 1) m)) (range 0 m)
  + sumZ (λ k, sumZ (λ i, sumZ (λ j, -2 * (c k i * wb j)) (range 0 m))
                    (range 0 ns))
         (range 0 n)
  = (sumZ wb (range 0 m) - sumZ (λ k, row k) (range 0 n)) ^ 2
    - sumZ (λ k, row k ^ 2 - sumZ (λ i, c k i ^ 2) (range 0 ns)) (range 0 n).
Proof.
  pose proof (sumZ_square_range (λ k, row k) 0 n) as HT.
  pose proof (sumZ_square_range wb 0 m) as HW.
  cbv beta in HT.
  (* the couplings of different items *)
  assert (sumZ (λ i, sumZ (λ j, sumZ (λ s1, sumZ (λ s2, 2 * (c i s1 * c j s2))
                                          (range 0 ns))
                               (range 0 ns))
                    (range (i + 1) n))
               (range 0 n)
          = 2 * sumZ (λ k, sumZ (λ l, row k * row l) (range (k + 1) n))
                     (range 0 n)) as Hzz.
  { rewrite <- sumZ_scale. apply sumZ_ext. intros i _.
    rewrite <- sumZ_scale. apply sumZ_ext. intros j _.
    rewrite sumZ_mul_sumZ, <- sumZ_scale. apply sumZ_ext. intros s1 _.
    rewrite <- sumZ_scale. done. }
  assert (sumZ (λ i, sumZ (λ j, 2 * (wb i * wb j)) (range (i + 1) m))
               (range 0 m)
          = 2 * sumZ (λ k, sumZ (λ l, wb k * wb l) (range (k + 1) m))
                     (range 0 m)) as Hww.
  { rewrite <- sumZ_scale. apply sumZ_ext. intros i _.
    rewrite <- sumZ_scale. done. }
  assert (sumZ (λ k, sumZ (λ i, sumZ (λ j, -2 * (c k i * wb j)) (range 0 m))
                    (range 0 ns))
               (range 0 n)
          = -2 * (sumZ wb (range 0 m) * sumZ (λ k, row k) (range 0 n)))
    as Hzw.
  { assert (sumZ wb (range 0 m) * sumZ (λ k, row k) (range 0 n)
            = sumZ (λ k, row k * sumZ wb (range 0 m)) (range 0 n)) as ->.
    { rewrite (sumZ_ext (λ k, row k * sumZ wb (range 0 m))
                        (λ k, sumZ wb (range 0 m) * row k))
        by (intros; ring).
      by rewrite sumZ_scale. }
    rewrite <- sumZ_scale. apply sumZ_ext. intros k _.
    rewrite (sumZ_mul_sumZ (c k) wb), <- sumZ_scale.
    apply sumZ_ext. intros i _. rewrite <- sumZ_scale. done. }
  rewrite Hzz, Hww, Hzw, sumZ_sub.
  set (T := sumZ (λ k, row k) (range 0 n)) in *.
  set (Wb := sumZ wb (range 0 m)) in *.
  replace ((Wb - T) ^ 2) with (Wb ^ 2 - 2 * (Wb * T) + T ^ 2) by ring.
  rewrite HT, HW. ring.
Qed.

End KnapsackExpansion.

Section GroupEnergies.
Import Combined Energy.
Context {E : Type} `{Countable E}.
Variable U : list E.
Variable S : list (gset E).
Variable weights : list (list Z).
Variable values : list Z.
Variable bound0 : list nat.
Variable lagrange : Z.
Variable M : nat.
Variable w : list Z.
Variable s : dsample.
Variables Vb Wb Pb : Z.

(** The numbers are small enough for the cell to compute the knapsack
    biases exactly. *)
Hypothesis HVb : 1 ≤ Vb.
Hypothesis HWb : 1 ≤ Wb.
Hypothesis HPb : 1 ≤ Pb.
Hypothesis Hsmall : Vb * Wb ^ 2 * Pb ^ 2 ≤ 2 ^ 50.
Hypothesis lagrange_small : Z.abs lagrange ≤ Vb.
Hypothesis values_small : ∀ k, Z.abs (value_at values k) ≤ Vb.
Hypothesis weights_small : ∀ k i, Z.abs (weight_at weights k i) ≤ Wb.
Hypothesis slack_small : ∀ j, Z.abs (w_at w j) ≤ Wb.
Hypothesis pieces_small : ∀ k, Z.of_nat (bound_at bound0 k) ≤ Pb + 1.

Hypothesis z_valid : ∀ k i, (k < x_size values)%nat → (i < length S)%nat →
  (s (z_label k i) < bound_at bound0 k)%nat.
Hypothesis w_valid : ∀ j, (j < M + 1)%nat → (s (w_label j) < 2)%nat.
Hypothesis x_valid : ∀ i, (1 ≤ i ≤ length S)%nat → (s (x_label i) < 2)%nat.
Hypothesis y_valid : ∀ a m, (1 ≤ a ≤ length U)%nat → (1 ≤ m ≤ length S)%nat →
  (s (y_label a m) < 2)%nat.

Local Abbreviation P k i := (Z.of_nat (s (z_label k i))).
Local Abbreviation Bw j := (Z.of_nat (s (w_label j))).
Local Abbreviation X i := (Z.of_nat (s (x_label i))).
Local Abbreviation Y a m := (Z.of_nat (s (y_label a m))).
Local Abbreviation W k i := (weight_at weights k i).
Local Abbreviation L := (dbl lagrange).

Lemma no_energy (ws : list dwrite) :
  (∀ wr, wr ∈ ws → dwrite_energy s wr = 0%Qc) →
  sumQc (dwrite_energy s) ws = 0%Qc.
Proof.
  induction ws as [|wr ws IH]; intros Hws; simpl; [done|].
  rewrite (Hws wr) by left. rewrite IH; [ring|].
  intros wr' Hin. apply Hws. by right.
Qed.

Lemma energy_z_variables :
  sumQc (dwrite_energy s) (z_variables S values bound0) = 0%Qc.
Proof.
  apply no_energy. intros wr Hin. unfold z_variables in Hin. in_binds Hin.
  by subst.
Qed.

Lemma energy_w_variables :
  sumQc (dwrite_energy s) (w_variables M) = 0%Qc.
Proof.
  apply no_energy. intros wr Hin. unfold w_variables in Hin. in_binds Hin.
  by subst.
Qed.

Lemma sumQc_singleton (wr : dwrite) :
  sumQc (dwrite_energy s) [wr] = dwrite_energy s wr.
Proof. simpl. ring. Qed.

Lemma binary_case (n : nat) : (n < 2)%nat → n = 0%nat ∨ n = 1%nat.
Proof. lia. Qed.

(** The biases the samples read. *)
Lemma lookup_z_linear_biases (k i p : nat) :
  (p < bound_at bound0 k)%nat →
  z_linear_biases weights values bound0 lagrange k i !! p
  = Some (L * ofZ (W k i ^ 2 * Z.of_nat p ^ 2)
          + ofZ ((C - value_at values k) * Z.of_nat p))%Qc.
Proof.
  intros Hp. unfold z_linear_biases.
  rewrite list_lookup_fmap, lookup_range by lia.
  cbn [fmap option_fmap option_map Nat.add]. f_equal.
  apply (z_linear_bias_exact Vb Wb Pb); try done.
  specialize (pieces_small k). lia.
Qed.

Lemma lookup_zz_biases (i j s1 s2 p1 p2 : nat) :
  (p1 < bound_at bound0 i)%nat → (p2 < bound_at bound0 j)%nat →
  list_to_map (M := gmap (nat * nat) Qc)
    (zz_biases weights bound0 lagrange i j s1 s2) !! (p1, p2)
  = Some (L * ofZ (2 * (W i s1 * Z.of_nat p1 * (W j s2 * Z.of_nat p2)))
          + ofZ 0)%Qc.
Proof.
  intros Hp1 Hp2.
  set (q0 := dbl (Float64.mul_int
                    (Float64.mul_int
                       (Float64.mul_int
                          (Float64.mul_int (Float64.mul_int lagrange 2)
                                           (W i s1))
                          (W j s2))
                       (Z.of_nat p1))
                    (Z.of_nat p2))).
  assert (∀ q, ((p1, p2), q) ∈ zz_biases weights bound0 lagrange i j s1 s2 →
               q = q0) as Hfun.
  { intros q Hq. unfold zz_biases in Hq. in_binds Hq. by simplify_eq. }
  rewrite (elem_of_list_to_map_1' _ _ q0).
  - f_equal. unfold q0.
    rewrite (zz_bias_exact Vb Wb Pb); try done.
    + rewrite ofZ_0. ring.
    + specialize (pieces_small i). lia.
    + specialize (pieces_small j). lia.
  - intros q Hq. symmetry. by apply Hfun.
  - unfold zz_biases.
    apply list_elem_of_bind. exists p1. split; [|apply elem_of_range; lia].
    apply list_elem_of_bind. exists p2. split; [|apply elem_of_range; lia].
    by left.
Qed.

Lemma lookup_zw_biases_1 (i i' j p : nat) :
  (p < bound_at bound0 i)%nat →
  list_to_map (M := gmap (nat * nat) Qc)
    (zw_biases weights bound0 lagrange w i i' j) !! (p, 1%nat)
  = Some (L * ofZ (-2 * (W i i' * Z.of_nat p * (w_at w j * 1)))
          + ofZ 0)%Qc.
Proof.
  intros Hp.
  set (q0 := dbl (Float64.mul_int
                    (Float64.mul_int
                       (Float64.mul_int (Float64.mul_int lagrange (-2))
                                        (W i i'))
                       (w_at w j))
                    (Z.of_nat p))).
  assert (∀ q, ((p, 1%nat), q) ∈ zw_biases weights bound0 lagrange w i i' j →
               q = q0) as Hfun.
  { intros q Hq. unfold zw_biases in Hq. in_binds Hq. by simplify_eq. }
  rewrite (elem_of_list_to_map_1' _ _ q0).
  - f_equal. unfold q0.
    rewrite (zw_bias_exact Vb Wb Pb); try done.
    + rewrite ofZ_0, Z.mul_1_r. ring.
    + specialize (pieces_small i). lia.
  - intros q Hq. symmetry. by apply Hfun.
  - unfold zw_biases.
    apply list_elem_of_bind. exists p. split; [|apply elem_of_range; lia].
    by left.
Qed.

Lemma lookup_zw_biases_0 (i i' j p : nat) :
  list_to_map (M := gmap (nat * nat) Qc)
    (zw_biases weights bound0 lagrange w i i' j) !! (p, 0%nat) = None.
Proof.
  apply not_elem_of_list_to_map_1.
  intros ([c q] & Hc & Hin)%list_elem_of_fmap. simpl in Hc. subst c.
  unfold zw_biases in Hin. in_binds Hin. by simplify_eq.
Qed.

Lemma lookup_one_one (q : Qc) (a b : nat) :
  (a < 2)%nat → (b < 2)%nat →
  default 0%Qc (list_to_map (M := gmap (nat * nat) Qc) [((1, 1)%nat, q)]
                  !! (a, b))
  = (q * ofZ (Z.of_nat a * Z.of_nat b))%Qc.
Proof.
  intros [-> | ->]%binary_case [-> | ->]%binary_case;
    rewrite list_to_map_cons, list_to_map_nil;
    [rewrite lookup_insert_ne by (intros [=]); rewrite lookup_empty..
    |rewrite lookup_insert_eq];
    cbn [default from_option id];
    change (Z.of_nat 0) with 0; change (Z.of_nat 1) with 1;
    rewrite ?Z.mul_0_l, ?Z.mul_0_r, ?Z.mul_1_l, ?ofZ_0, ?ofZ_1; ring.
Qed.

Lemma lookup_zero_one (c : Z) (a : nat) :
  (a < 2)%nat →
  default 0%Qc ([ofZ (c * 0); ofZ (c * 1)] !! a) = ofZ (c * Z.of_nat a).
Proof. intros [-> | ->]%binary_case; done. Qed.


Ltac affine_loops :=
  repeat (rewrite sumQc_bind; apply sumQc_affine_ext;
          intros ? ?%elem_of_range);
  rewrite sumQc_singleton.

Lemma energy_z_linear :
  sumQc (dwrite_energy s) (z_linear_terms S weights values bound0 lagrange)
  = (L
     * ofZ (sumZ (λ k, sumZ (λ i, W k i ^ 2 * P k i ^ 2) (range 0 (length S)))
                 (range 0 (x_size values)))%Z
     + ofZ (sumZ (λ k, sumZ (λ i, (C - value_at values k) * P k i)
                            (range 0 (length S)))
                 (range 0 (x_size values)))%Z)%Qc.
Proof.
  unfold z_linear_terms. affine_loops. simpl.
  rewrite lookup_z_linear_biases by (apply z_valid; lia). done.
Qed.

Lemma energy_zz :
  sumQc (dwrite_energy s) (zz_terms S weights values bound0 lagrange)
  = (L
     * ofZ (sumZ (λ i, sumZ (λ j, sumZ (λ s1, sumZ (λ s2,
                    2 * (W i s1 * P i s1 * (W j s2 * P j s2)))
                    (range 0 (length S))) (range 0 (length S)))
                    (range (i + 1) (x_size values)))
                 (range 0 (x_size values)))%Z
     + ofZ (sumZ (λ i, sumZ (λ j, sumZ (λ s1, sumZ (λ s2 : nat, 0)
                    (range 0 (length S))) (range 0 (length S)))
                    (range (i + 1) (x_size values)))
                 (range 0 (x_size values)))%Z)%Qc.
Proof.
  unfold zz_terms. affine_loops. simpl.
  rewrite lookup_zz_biases by (apply z_valid; lia). done.
Qed.

Lemma energy_w_linear :
  sumQc (dwrite_energy s) (w_linear_terms lagrange M w)
  = (L * ofZ (sumZ (λ j, w_at w j ^ 2 * Bw j) (range 0 (M + 1)))%Z
     + ofZ (sumZ (λ j : nat, 0) (range 0 (M + 1)))%Z)%Qc.
Proof.
  unfold w_linear_terms, num_slack_variables. affine_loops.
  unfold dwrite_energy.
  rewrite !(w_linear_bias_exact Vb Wb Pb) by (done || lia).
  match goal with Hj : (_ ≤ ?j < _)%nat |- _ =>
    destruct (binary_case (s (w_label j))) as [-> | ->];
      [apply w_valid; lia|..] end;
    cbn [lookup list_lookup default from_option id];
    change (Z.of_nat 0) with 0; change (Z.of_nat 1) with 1;
    rewrite ?Z.mul_0_r, ?Z.mul_1_r, ?ofZ_0; ring.
Qed.

Lemma energy_ww :
  sumQc (dwrite_energy s) (ww_terms lagrange M w)
  = (L
     * ofZ (sumZ (λ i, sumZ (λ j, 2 * (w_at w i * Bw i * (w_at w j * Bw j)))
                            (range (i + 1) (M + 1)))
                 (range 0 (M + 1)))%Z
     + ofZ (sumZ (λ i, sumZ (λ j : nat, 0) (range (i + 1) (M + 1)))
                 (range 0 (M + 1)))%Z)%Qc.
Proof.
  unfold ww_terms, num_slack_variables. affine_loops.
  unfold dwrite_energy.
  rewrite lookup_one_one by (apply w_valid; lia).
  rewrite (ww_bias_exact Vb Wb Pb) by done.
  rewrite !ofZ_mul, ofZ_0, ofZ_2. ring.
Qed.

Lemma energy_zw :
  sumQc (dwrite_energy s) (zw_terms S weights values bound0 lagrange M w)
  = (L
     * ofZ (sumZ (λ k, sumZ (λ i, sumZ (λ j,
                    -2 * (W k i * P k i * (w_at w j * Bw j)))
                    (range 0 (M + 1))) (range 0 (length S)))
                 (range 0 (x_size values)))%Z
     + ofZ (sumZ (λ k, sumZ (λ i, sumZ (λ j : nat, 0)
                    (range 0 (M + 1))) (range 0 (length S)))
                 (range 0 (x_size values)))%Z)%Qc.
Proof.
  unfold zw_terms, num_slack_variables. affine_loops.
  unfold dwrite_energy.
  match goal with Hj : (_ ≤ ?j < _)%nat |- _ =>
    destruct (binary_case (s (w_label j))) as [-> | ->];
      [apply w_valid; lia|..] end.
  - rewrite lookup_zw_biases_0. cbn [default from_option id].
    change (Z.of_nat 0) with 0. rewrite !Z.mul_0_r, ofZ_0. ring.
  - rewrite lookup_zw_biases_1 by (apply z_valid; lia). done.
Qed.


Ltac affine_loops2 :=
  repeat (rewrite sumQc_bind; apply sumQc_affine_ext;
          intros ? ?%elem_of_range).

Lemma energy_x :
  sumQc (dwrite_energy s) (x_terms U S)
  = (L * ofZ (sumZ (λ i : nat, 0) (range 0 (length S)))%Z
     + ofZ (sumZ (λ i, (A * sumZ id (I U S !!! i) + B) * X (i + 1))
                 (range 0 (length S)))%Z)%Qc.
Proof.
  unfold x_terms. affine_loops2. cbn [sumQc dwrite_energy].
  rewrite lookup_zero_one by (apply x_valid; lia). rewrite ofZ_0. ring.
Qed.

Lemma energy_y :
  sumQc (dwrite_energy s) (y_terms U S)
  = (L * ofZ (sumZ (λ a, sumZ (λ m : nat, 0) (range 1 (length S + 1)))
                          (range 1 (length U + 1)))%Z
     + ofZ (sumZ (λ a, sumZ (λ m, A * (Z.of_nat m ^ 2 - 1) * Y a m)
                            (range 1 (length S + 1)))
                 (range 1 (length U + 1)))%Z)%Qc.
Proof.
  unfold y_terms. affine_loops2. cbn [sumQc dwrite_energy].
  rewrite lookup_zero_one by (apply y_valid; lia). rewrite ofZ_0. ring.
Qed.

Lemma energy_xx :
  sumQc (dwrite_energy s) (xx_terms U S)
  = (L * ofZ (sumZ (λ i, sumZ (λ j : nat, 0)
                                     (range (i + 1) (length S + 1)))
                          (range 1 (length S + 1)))%Z
     + ofZ (sumZ (λ i, sumZ (λ j,
                    2 * A * dot (I U S !!! (i - 1)%nat) (I U S !!! (j - 1)%nat)
                    * (X i * X j))
                    (range (i + 1) (length S + 1)))
                 (range 1 (length S + 1)))%Z)%Qc.
Proof.
  unfold xx_terms. affine_loops. unfold dwrite_energy.
  rewrite lookup_one_one by (apply x_valid; lia).
  rewrite (ofZ_mul (2 * A * _)), ofZ_0. ring.
Qed.

Lemma energy_yy :
  sumQc (dwrite_energy s) (yy_terms U S)
  = (L * ofZ (sumZ (λ m, sumZ (λ n, sumZ (λ a : nat, 0)
                       (range 1 (length U + 1)))
                       (range (m + 1) (length S + 1)))
                          (range 1 (length S + 1)))%Z
     + ofZ (sumZ (λ m, sumZ (λ n, sumZ (λ a,
                    2 * A * (1 + Z.of_nat m * Z.of_nat n) * (Y a m * Y a n))
                    (range 1 (length U + 1)))
                    (range (m + 1) (length S + 1)))
                 (range 1 (length S + 1)))%Z)%Qc.
Proof.
  unfold yy_terms. affine_loops. unfold dwrite_energy.
  rewrite lookup_one_one by (apply y_valid; lia).
  rewrite (ofZ_mul (2 * A * _)), ofZ_0. ring.
Qed.

Lemma energy_xy :
  sumQc (dwrite_energy s) (xy_terms U S)
  = (L * ofZ (sumZ (λ i, sumZ (λ m, sumZ (λ a : nat, 0)
                       (range 1 (length U + 1)))
                       (range 1 (length S + 1)))
                          (range 1 (length S + 1)))%Z
     + ofZ (sumZ (λ i, sumZ (λ m, sumZ (λ a,
                    -2 * A * Z.of_nat m * I_at U S (i - 1) (a - 1)
                    * (X i * Y a m))
                    (range 1 (length U + 1)))
                    (range 1 (length S + 1)))
                 (range 1 (length S + 1)))%Z)%Qc.
Proof.
  unfold xy_terms. affine_loops. unfold dwrite_energy.
  rewrite lookup_one_one by first [apply x_valid; lia|apply y_valid; lia].
  rewrite (ofZ_mul (-2 * A * _ * _)), ofZ_0. ring.
Qed.


Lemma clamp_square (n : nat) :
  Z.of_nat (Nat.min 1 n) ^ 2 = Z.of_nat (Nat.min 1 n).
Proof. destruct n as [|n]; [done|]. by destruct n. Qed.

Lemma clamp_binary (n : nat) : (n < 2)%nat → Z.of_nat (Nat.min 1 n) = Z.of_nat n.
Proof. intros Hn. f_equal. lia. Qed.

Local Abbreviation Xc i := (Z.of_nat (Nat.min 1 (s (x_label i)))).
Local Abbreviation Yc a m := (Z.of_nat (Nat.min 1 (s (y_label a m)))).

Lemma Xc_eq (i : nat) : (1 ≤ i ≤ length S)%nat → Xc i = X i.
Proof. intros Hi. apply clamp_binary, x_valid. lia. Qed.

Lemma Yc_eq (a m : nat) :
  (1 ≤ a ≤ length U)%nat → (1 ≤ m ≤ length S)%nat → Yc a m = Y a m.
Proof. intros Ha Hm. by apply clamp_binary, y_valid. Qed.

Lemma cover_energy :
  sumZ (λ i, (A * sumZ id (I U S !!! i) + B) * X (i + 1)) (range 0 (length S))
  + sumZ (λ a, sumZ (λ m, A * (Z.of_nat m ^ 2 - 1) * Y a m)
                    (range 1 (length S + 1)))
         (range 1 (length U + 1))
  + sumZ (λ i, sumZ (λ j,
            2 * A * dot (I U S !!! (i - 1)%nat) (I U S !!! (j - 1)%nat)
            * (X i * X j))
            (range (i + 1) (length S + 1)))
         (range 1 (length S + 1))
  + sumZ (λ m, sumZ (λ n, sumZ (λ a,
            2 * A * (1 + Z.of_nat m * Z.of_nat n) * (Y a m * Y a n))
            (range 1 (length U + 1)))
            (range (m + 1) (length S + 1)))
         (range 1 (length S + 1))
  + sumZ (λ i, sumZ (λ m, sumZ (λ a,
            -2 * A * Z.of_nat m * I_at U S (i - 1) (a - 1) * (X i * Y a m))
            (range 1 (length U + 1)))
            (range 1 (length S + 1)))
         (range 1 (length S + 1))
  = cover_hamiltonian U S s - A * Z.of_nat (length U).
Proof.
  pose proof (setcover_expansion (length S) (length U) A B
    (λ i, Xc i) (λ a m, Yc a m) (λ i a, I_at U S (i - 1) (a - 1))
    (λ i, clamp_square _) (λ a m, clamp_square _)
    (λ i a, I_at_square U S _ _)) as Hexp.
  cbv beta in Hexp.
  etrans; [|etrans; [exact Hexp|]].
  - repeat apply (f_equal2 Z.add).
    + apply sumZ_ext. intros i Hi%elem_of_range.
      rewrite Xc_eq by lia. f_equal. f_equal. f_equal.
      rewrite <- (sum_I_row U S (i + 1)) by lia.
      by replace (i + 1 - 1)%nat with i by lia.
    + apply sumZ_ext. intros a Ha%elem_of_range.
      apply sumZ_ext. intros m Hm%elem_of_range.
      rewrite Yc_eq by lia. done.
    + apply sumZ_ext. intros i Hi%elem_of_range.
      apply sumZ_ext. intros j Hj%elem_of_range.
      rewrite !Xc_eq by lia. rewrite dot_I_rows by lia. ring.
    + apply sumZ_ext. intros m Hm%elem_of_range.
      apply sumZ_ext. intros n Hn%elem_of_range.
      apply sumZ_ext. intros a Ha%elem_of_range.
      rewrite !Yc_eq by lia. ring.
    + apply sumZ_ext. intros i Hi%elem_of_range.
      apply sumZ_ext. intros m Hm%elem_of_range.
      apply sumZ_ext. intros a Ha%elem_of_range.
      rewrite Xc_eq, Yc_eq by lia. ring.
  - unfold cover_hamiltonian. apply (f_equal2 Z.sub); [|reflexivity].
    repeat apply (f_equal2 Z.add); apply (f_equal2 Z.mul); try reflexivity.
    + apply sumZ_ext. intros a Ha%elem_of_range.
      apply (f_equal (λ t, (1 - t) ^ 2)).
      apply sumZ_ext. intros m Hm%elem_of_range. apply Yc_eq; lia.
    + apply sumZ_ext. intros a Ha%elem_of_range.
      apply (f_equal (λ t, t ^ 2)). apply (f_equal2 Z.sub).
      * apply sumZ_ext. intros m Hm%elem_of_range. rewrite Yc_eq by lia. done.
      * apply sumZ_ext. intros i Hi%elem_of_range. rewrite Xc_eq by lia. done.
    + apply sumZ_ext. intros i Hi%elem_of_range. apply Xc_eq; lia.
Qed.

Lemma knapsack_energy :
  sumZ (λ k, sumZ (λ i, W k i ^ 2 * P k i ^ 2) (range 0 (length S)))
       (range 0 (x_size values))
  + sumZ (λ i, sumZ (λ j, sumZ (λ s1, sumZ (λ s2,
            2 * (W i s1 * P i s1 * (W j s2 * P j s2)))
            (range 0 (length S))) (range 0 (length S)))
            (range (i + 1) (x_size values)))
         (range 0 (x_size values))
  + sumZ (λ j, w_at w j ^ 2 * Bw j) (range 0 (M + 1))
  + sumZ (λ i, sumZ (λ j, 2 * (w_at w i * Bw i * (w_at w j * Bw j)))
                    (range (i + 1) (M + 1)))
         (range 0 (M + 1))
  + sumZ (λ k, sumZ (λ i, sumZ (λ j,
            -2 * (W k i * P k i * (w_at w j * Bw j)))
            (range 0 (M + 1))) (range 0 (length S)))
         (range 0 (x_size values))
  = (slack M w s - spent S weights values s) ^ 2
    - sumZ (same_item_products S weights s) (range 0 (x_size values)).
Proof.
  pose proof (knapsack_expansion (x_size values) (length S) (M + 1)
                (λ k i, W k i * P k i) (λ j, w_at w j * Bw j)) as Hexp.
  cbv beta in Hexp. etrans; [|exact Hexp].
  repeat apply (f_equal2 Z.add); try reflexivity.
  - apply sumZ_ext. intros k _. apply sumZ_ext. intros i _. ring.
  - apply sumZ_ext. intros j Hj%elem_of_range.
    destruct (binary_case (s (w_label j))) as [-> | ->];
      [apply w_valid; lia|..]; ring.
Qed.

Lemma revenue_energy :
  sumZ (λ k, sumZ (λ i, (C - value_at values k) * P k i) (range 0 (length S)))
       (range 0 (x_size values))
  = - revenue S values s.
Proof.
  unfold revenue, C, quantity.
  replace (- sumZ (λ k, sumZ (λ i, value_at values k * P k i)
                             (range 0 (length S)))
             (range 0 (x_size values)))
    with (-1 * sumZ (λ k, sumZ (λ i, value_at values k * P k i)
                               (range 0 (length S)))
                    (range 0 (x_size values))) by lia.
  rewrite <- sumZ_scale. apply sumZ_ext. intros k _.
  rewrite <- sumZ_scale. apply sumZ_ext. intros i _. ring.
Qed.

Lemma zero_sum1 {X} (l : list X) : sumZ (λ _, 0) l = 0.
Proof. by apply sumZ_zero. Qed.

Lemma zero_sum2 {X Y} (g : X → list Y) (l : list X) :
  sumZ (λ i, sumZ (λ _, 0) (g i)) l = 0.
Proof. apply sumZ_zero. intros i _. apply zero_sum1. Qed.

Lemma zero_sum3 {X Y T} (g : X → list Y) (h : X → Y → list T) (l : list X) :
  sumZ (λ i, sumZ (λ j, sumZ (λ _, 0) (h i j)) (g i)) l = 0.
Proof. apply sumZ_zero. intros i _. apply zero_sum2. Qed.

Lemma zero_sum4 {X Y Z' T} (g : X → list Y) (h : list Z') (k : list T)
    (l : list X) :
  sumZ (λ i, sumZ (λ _, sumZ (λ _, sumZ (λ _, 0) k) h) (g i)) l = 0.
Proof.
  apply sumZ_zero. intros i _. apply sumZ_zero. intros j _. apply zero_sum2.
Qed.

(** The energy of the writes before the H3 block. *)
Lemma energy_base :
  sumQc (dwrite_energy s)
        (knapsack_and_cover_writes U S weights values bound0 lagrange M w)
  = (knapsack_hamiltonian S weights values M w s L
     + ofZ (cover_hamiltonian U S s - A * Z.of_nat (length U)))%Qc.
Proof.
  unfold knapsack_and_cover_writes. rewrite !sumQc_app.
  rewrite energy_z_variables, energy_w_variables, energy_z_linear, energy_zz,
    energy_w_linear, energy_ww, energy_zw, energy_x, energy_y, energy_xx,
    energy_yy, energy_xy.
  unfold knapsack_hamiltonian.
  rewrite <- cover_energy, <- knapsack_energy.
  rewrite <- (Z.opp_involutive (revenue S values s)), <- revenue_energy.
  rewrite ?zero_sum4, ?zero_sum3, ?zero_sum2, ?zero_sum1.
  rewrite !ofZ_add, ofZ_opp, ofZ_0. ring.
Qed.

End GroupEnergies.

Section CombinedEnergy.
Import Combined Energy.
Context {E : Type} `{Countable E}.
Variable U : list E.
Variable S : list (gset E).
Variable weights : list (list Z).
Variable weight_capacity : Z.
Variable values : list Z.
Variable bound0 : list nat.

Lemma py_max_elem (l : list Z) (m : Z) : py_max l = Ok m → m ∈ l.
Proof.
  destruct l as [|v l]; [done|]. intros [= <-].
  revert v. induction l as [|x l IH]; intros v; simpl; [by left|].
  specialize (IH (Z.max v x)). apply elem_of_cons in IH as [Heq|Hin].
  - rewrite Heq. destruct (Z.max_spec v x) as [[_ ->]|[_ ->]].
    + right; left.
    + left.
  - by do 2 right.
Qed.

Lemma value_at_small (Vb : Z) (k : nat) :
  0 ≤ Vb → Forall (λ v, Z.abs v ≤ Vb) values →
  Z.abs (value_at values k) ≤ Vb.
Proof.
  intros HVb Hv. unfold value_at.
  destruct (values !! k) as [v|] eqn:Hk; simpl; [|lia].
  by apply (proj1 (Forall_lookup _ _) Hv k v).
Qed.

Lemma weight_at_small (Wb : Z) (k i : nat) :
  0 ≤ Wb → Forall (Forall (λ c, Z.abs c ≤ Wb)) weights →
  Z.abs (weight_at weights k i) ≤ Wb.
Proof.
  intros HWb Hw. unfold weight_at.
  destruct ((weights !!! k) !! i) as [c|] eqn:Hc; simpl; [|lia].
  destruct (weights !! k) as [row|] eqn:Hrow.
  - rewrite (list_lookup_total_correct _ _ _ Hrow) in Hc.
    pose proof (proj1 (Forall_lookup _ _) Hw k row Hrow) as Hr.
    by apply (proj1 (Forall_lookup _ _) Hr i c).
  - rewrite list_lookup_total_alt, Hrow in Hc. done.
Qed.

Lemma bound_at_small (Pb : Z) (k : nat) :
  0 ≤ Pb → Forall (λ b, Z.of_nat b ≤ Pb) bound0 →
  Z.of_nat (bound_at bound0 k) ≤ Pb + 1.
Proof.
  intros HPb Hb. unfold bound_at, bound. rewrite list_lookup_fmap.
  destruct (bound0 !! k) as [b|] eqn:Hk; simpl; [|lia].
  pose proof (proj1 (Forall_lookup _ _) Hb k b Hk). simpl in *. lia.
Qed.

Lemma slack_weight_small (j : nat) :
  1 ≤ weight_capacity →
  Z.abs (w_at (Slack.weights_for (Z.to_nat (Z.log2 weight_capacity))
                 weight_capacity) j) ≤ weight_capacity.
Proof.
  intros Hcap. unfold w_at, Slack.weights_for.
  destruct (Z.log2_spec weight_capacity) as [Hlo Hhi]; [lia|].
  pose proof (Z.log2_nonneg weight_capacity) as Hnn.
  set (M := Z.to_nat (Z.log2 weight_capacity)).
  assert (HM : Z.of_nat M = Z.log2 weight_capacity) by (unfold M; lia).
  match goal with |- Z.abs (default 0 ?o) ≤ _ => destruct o as [c|] eqn:Hc end;
    simpl; [|lia].
  apply lookup_app_Some in Hc as [Hc|[_ Hc]].
  - rewrite list_lookup_fmap in Hc.
    destruct (range 0 M !! j) as [n|] eqn:Hn; [|done].
    apply list_elem_of_lookup_2, elem_of_range in Hn.
    simpl in Hc. injection Hc as <-.
    assert (2 ^ Z.of_nat n ≤ 2 ^ Z.log2 weight_capacity)
      by (apply Z.pow_le_mono_r; lia).
    assert (0 < 2 ^ Z.of_nat n) by (apply Z.pow_pos_nonneg; lia). lia.
  - apply list_lookup_singleton_Some in Hc as [_ <-].
    rewrite HM. rewrite Z.pow_succ_r in Hhi by done. lia.
Qed.

(** X16. The energy the model of the build cell gives to a sample that picks
    a case of every variable is the Hamiltonian its loops encode:
    [max(values)/2] times the squared difference between the slack and
    the money spent, less the products of the costs of one item at two
    different suppliers (the "zi-zj" loop couples different items only),
    minus the revenue, plus the set-cover Hamiltonian without its
    constant [A * len(U)].  This holds for tables whose numbers the cell
    computes with exactly: prices up to [Vb], costs and budget up to
    [Wb] and purchase bounds up to [Pb] with
    [Vb * Wb^2 * Pb^2 <= 2^50]. *)
Theorem combined_energy (Vb Wb Pb : Z) :
  well_shaped S weights values bound0 →
  values ≠ [] → 1 ≤ weight_capacity →
  1 ≤ Vb → 1 ≤ Wb → 1 ≤ Pb → Vb * Wb ^ 2 * Pb ^ 2 ≤ 2 ^ 50 →
  Forall (λ v, Z.abs v ≤ Vb) values →
  Forall (Forall (λ c, Z.abs c ≤ Wb)) weights →
  weight_capacity ≤ Wb →
  Forall (λ b, Z.of_nat b ≤ Pb) bound0 →
  ∃ dqm vmax,
    build_combined_dqm U S weights weight_capacity values bound0 = Ok dqm
    ∧ py_max values = Ok vmax
    ∧ Slack.floor_log2 weight_capacity = Ok (Z.log2 weight_capacity)
    ∧ ∀ s, valid_sample dqm s →
        denergy dqm s
        = (knapsack_hamiltonian S weights values
             (Z.to_nat (Z.log2 weight_capacity))
             (Slack.weights_for (Z.to_nat (Z.log2 weight_capacity))
                                weight_capacity)
             s (ofZ vmax * half)
           + ofZ (cover_hamiltonian U S s - A * Z.of_nat (length U)))%Qc.
Proof.
  intros Hshape Hvalues Hcap HVb HWb HPb Hsmall Hv Hw Hc Hb.
  destruct (build_combined_dqm_dfold U S weights weight_capacity
              values bound0 Hshape Hvalues Hcap)
    as (vmax & M & Hmax & HM & Hbuild & _).
  assert (HW25 : Wb ≤ 2 ^ 25).
  { assert (Wb ^ 2 ≤ 2 ^ 50); [|nia].
    assert (1 * Wb ^ 2 * 1 ≤ Vb * Wb ^ 2 * Pb ^ 2); [|lia].
    assert (0 ≤ Wb ^ 2) by (apply Z.pow_nonneg; lia).
    repeat apply Z.mul_le_mono_nonneg; lia. }
  assert (HV50 : Vb ≤ 2 ^ 50).
  { assert (Vb * 1 * 1 ≤ Vb * Wb ^ 2 * Pb ^ 2); [|lia].
    assert (1 ≤ Wb ^ 2) by nia. assert (1 ≤ Pb ^ 2) by nia.
    repeat apply Z.mul_le_mono_nonneg; lia. }
  pose proof (floor_log2_exact weight_capacity ltac:(lia)) as Hexact.
  assert (M = Z.to_nat (Z.log2 weight_capacity)) as ->.
  { rewrite Hexact in HM. injection HM as HM. lia. }
  assert (Hvmax : Z.abs vmax ≤ Vb).
  { apply py_max_elem in Hmax.
    by apply (proj1 (Forall_forall _ _) Hv vmax). }
  rewrite round53_small in Hbuild by lia.
  eexists _, vmax. split; [exact Hbuild|]. split; [exact Hmax|].
  split; [exact Hexact|].
  intros s Hs.
  destruct (dfold_h3 U S weights values bound0 vmax
              (Z.to_nat (Z.log2 weight_capacity))
              (Slack.weights_for (Z.to_nat (Z.log2 weight_capacity))
                                 weight_capacity) s) as (_ & _ & ->).
  rewrite denergy_of_writes
    by first [apply NoDup_dlinear_keys_base|apply NoDup_dquadratic_keys_base].
  apply (energy_base U S weights values bound0 vmax _ _ s Vb Wb Pb);
    try done.
  - intros k. apply value_at_small; [lia|done].
  - intros k i. apply weight_at_small; [lia|done].
  - intros j. pose proof (slack_weight_small j Hcap). lia.
  - intros k. apply bound_at_small; [lia|done].
  - intros k i Hk Hi. apply Hs. by apply num_cases_z.
  - intros j Hj. apply Hs. by apply num_cases_w.
  - intros i Hi. apply Hs. by apply num_cases_x.
  - intros a m Ha Hm. apply Hs. by apply num_cases_y.
Qed.

End CombinedEnergy.

Section CombinedEnergyWitness.
Import Combined Energy.

Lemma combined_energy_witness :
  ∃ dqm vmax,
    build_combined_dqm U_ex S_ex W_ex 100 V_ex bound_ex = Ok dqm
    ∧ py_max V_ex = Ok vmax
    ∧ Slack.floor_log2 100 = Ok (Z.log2 100)
    ∧ ∀ s, valid_sample dqm s →
        denergy dqm s
        = (knapsack_hamiltonian S_ex W_ex V_ex
             (Z.to_nat (Z.log2 100))
             (Slack.weights_for (Z.to_nat (Z.log2 100)) 100)
             s (ofZ vmax * half)
           + ofZ (cover_hamiltonian U_ex S_ex s
                  - A * Z.of_nat (length U_ex)))%Qc.
Proof.
  apply (combined_energy U_ex S_ex W_ex 100 V_ex bound_ex 30 100 2);
    [by repeat constructor|done|lia|lia|lia|lia|lia| | |lia|].
  - repeat constructor; simpl; lia.
  - repeat constructor; simpl; lia.
  - repeat constructor; simpl; lia.
Defined.

(** A plan that spends 43 on the small instance, splitting item 0
    between the two suppliers, with slack bits worth 43: the budget term
    vanishes, and the energy is [15 * (0 - 198) - 60 + (2000 - 4000)]. *)
Example combined_energy_ex :
  match build_combined_dqm U_ex S_ex W_ex 100 V_ex bound_ex with
  | Ok dqm =>
      valid_sample dqm sample_ex
      ∧ this (denergy dqm sample_ex) = (-5030 # 1)%Q
      ∧ spent S_ex W_ex V_ex sample_ex = 43
      ∧ slack 6 (Slack.weights_for 6 100) sample_ex = 43
      ∧ sumZ (same_item_products S_ex W_ex sample_ex) (range 0 2) = 198
      ∧ revenue S_ex V_ex sample_ex = 60
      ∧ cover_hamiltonian U_ex S_ex sample_ex = 2000
  | Raise _ => False
  end.
Proof.
  vm_compute build_combined_dqm.
  split.
  { apply (bool_decide_unpack (map_Forall (λ v n, (sample_ex v < n)%nat) _)).
    vm_compute. reflexivity. }
  vm_compute. split_and!; reflexivity.
Qed.

End CombinedEnergyWitness.


